(** * lkpg-rs: the scraping and indexing pipeline, embedded and verified

    A shallow embedding of [src/utils.py], [src/pipeline.py] and [src/api.py].

    Modelling conventions.
    - A Python [str] is a list of characters, [list ascii]; a character is a
      code point below 256 (the Latin-1 range, which holds every character the
      source's patterns and its month table mention; U+00E5, U+00E4 and U+00F6
      are written by their decimal codes 229, 228 and 246).  [is_space],
      [is_digit] and [lower] are Python's [str.isspace], the [re] classes
      [\s] and [\d], and [str.lower] on that range.
    - A Python exception is the [Raise] branch of [result]; [try ... except
      Exception] is [try_except].
    - A Python [dict] used as a map is a [gmap], a [set] is a [gset]; the
      dictionaries with a fixed set of keys that the pipeline passes around
      (listing items, article records) are records.
    - The libraries the source calls (bs4, re, datetime, hashlib, json,
      requests, the embedding and index clients) are modelled at the
      interface the source uses; the HTML parser, the network and the
      clients are parameters.
    - A loop that waits on the outside ([ensure_pinecone_index]) takes fuel,
      and what it does to the outside is the list of its calls. *)

From Stdlib Require Import ZArith NArith Ascii Bool Lia ZifyBool.
From stdpp Require Import base option list gmap strings.

Local Open Scope Z_scope.

(** ** Text *)

Abbreviation str := (list ascii).

(** A string literal of the source. *)
Definition lit (s : string) : str := String.list_ascii_of_string s.

Definition code (c : ascii) : N := N_of_ascii c.

Definition in_range (lo hi : N) (c : ascii) : bool :=
  ((lo <=? code c) && (code c <=? hi))%N.

(** [str.isspace] and the class [\s] of a [str] pattern: TAB..CR, FS..US,
    SPACE, NEL (U+0085) and NBSP (U+00A0). *)
Definition is_space (c : ascii) : bool :=
  in_range 9 13 c || in_range 28 31 c || (code c =? 32)%N
  || (code c =? 133)%N || (code c =? 160)%N.

(** The class [\d]: the decimal digits of the range are 0..9. *)
Definition is_digit (c : ascii) : bool := in_range 48 57 c.

(** The class [[a-zåäö]]. *)
Definition is_swedish_lower (c : ascii) : bool :=
  in_range 97 122 c || (code c =? 229)%N || (code c =? 228)%N
  || (code c =? 246)%N.

(** [str.lower] on one character: A..Z, and the accented capitals U+00C0..U+00DE
    except the multiplication sign U+00D7. *)
Definition lower_char (c : ascii) : ascii :=
  if in_range 65 90 c
     || (in_range 192 222 c && negb (code c =? 215)%N)
  then ascii_of_N (code c + 32)
  else c.

Definition lower (s : str) : str := map lower_char s.

Fixpoint take_while (p : ascii → bool) (s : str) : str :=
  match s with
  | c :: s' => if p c then c :: take_while p s' else []
  | [] => []
  end.

Fixpoint drop_while (p : ascii → bool) (s : str) : str :=
  match s with
  | c :: s' => if p c then drop_while p s' else s
  | [] => []
  end.

Definition lstrip (s : str) : str := drop_while is_space s.

Definition rstrip (s : str) : str := rev (lstrip (rev s)).

(** [str.strip()] with no argument. *)
Definition strip (s : str) : str := rstrip (lstrip s).

(** [sep.join(parts)]. *)
Fixpoint join (sep : str) (parts : list str) : str :=
  match parts with
  | [] => []
  | [p] => p
  | p :: ps => p ++ sep ++ join sep ps
  end.

(** [s.startswith(prefix)]. *)
Fixpoint startswith (prefix s : str) : bool :=
  match prefix, s with
  | [], _ => true
  | p :: prefix', c :: s' => Ascii.eqb p c && startswith prefix' s'
  | _ :: _, [] => false
  end.

(** Truth value of a [str]: non-empty. *)
Definition truthy (s : str) : bool :=
  match s with [] => false | _ :: _ => true end.

(** ** Exceptions *)

Inductive exn : Type :=
  | ValueError
  | IndexError
  | HTTPError
  | RequestException
  | HTTPException (status : Z)
  | ServiceError.

Inductive result (A : Type) : Type :=
  | Ok (a : A)
  | Raise (e : exn).
Arguments Ok {A} a.
Arguments Raise {A} e.

Global Instance result_ret : MRet result := fun _ a => Ok a.
Global Instance result_bind : MBind result := fun _ _ f m =>
  match m with
  | Ok a => f a
  | Raise e => Raise e
  end.

(** [try: body  except Exception: handler]. *)
Definition try_except {A} (body : result A) (handler : exn → result A) : result A :=
  match body with
  | Ok a => Ok a
  | Raise e => handler e
  end.

(** ** The fragment of [re] the source uses

    Every repetition in the source's patterns is over a character class, so a
    pattern is a sequence of greedy bounded repetitions of classes, with
    capturing groups.  Matching is by backtracking, longest repetition first,
    as [re] does. *)

Inductive regex : Type :=
  | Chars (cls : ascii → bool) (lo : nat) (hi : option nat)
  | Seq (r1 r2 : regex)
  | Group (r : regex).

Infix "+++" := Seq (at level 60, right associativity).

Definition chr (c : ascii) : regex := Chars (Ascii.eqb c) 1 (Some 1%nat).
Definition times (cls : ascii → bool) (n : nat) : regex := Chars cls n (Some n).
Definition plus (cls : ascii → bool) : regex := Chars cls 1 None.

Definition may_take (hi : option nat) : bool :=
  match hi with Some O => false | _ => true end.

Fixpoint chars_bt {A} (cls : ascii → bool) (lo : nat) (hi : option nat)
    (s : str) (k : str → option A) : option A :=
  let stop := if Nat.eqb lo 0 then k s else None in
  match s with
  | c :: s' =>
      if cls c && may_take hi then
        match chars_bt cls (Nat.pred lo) (Nat.pred <$> hi) s' k with
        | Some a => Some a
        | None => stop
        end
      else stop
  | [] => stop
  end.

(** [bt r s gs k]: match [r] at the start of [s], then continue with [k] on the
    rest and the groups captured so far; the first success in priority order. *)
Fixpoint bt {A} (r : regex) (s : str) (gs : list str)
    (k : str → list str → option A) : option A :=
  match r with
  | Chars cls lo hi => chars_bt cls lo hi s (λ rest, k rest gs)
  | Seq r1 r2 => bt r1 s gs (λ rest gs', bt r2 rest gs' k)
  | Group r1 =>
      bt r1 s gs (λ rest gs', k rest (gs' ++ [take (length s - length rest) s]))
  end.

(** A match object: the text before the match, [group(0)], [groups()] and the
    text after the match. *)
Record Match : Type := {
  m_before : str;
  m_group0 : str;
  m_groups : list str;
  m_after : str;
}.

(** [pattern.match] at offset [before] of the subject. *)
Definition re_match_at (r : regex) (before s : str) : option Match :=
  bt r s [] (λ rest gs,
    Some {| m_before := before;
            m_group0 := take (length s - length rest) s;
            m_groups := gs;
            m_after := rest |}).

Fixpoint re_search_from (r : regex) (before_rev s : str) : option Match :=
  match re_match_at r (rev before_rev) s with
  | Some m => Some m
  | None =>
      match s with
      | [] => None
      | c :: s' => re_search_from r (c :: before_rev) s'
      end
  end.

(** [re.search(r, s)]: the match at the leftmost position that has one. *)
Definition re_search (r : regex) (s : str) : option Match :=
  re_search_from r [] s.

(** [m.group(i)] for [i >= 1]. *)
Definition group (m : Match) (i : nat) : result str :=
  match i with
  | O => Ok (m_group0 m)
  | S j => match m_groups m !! j with Some g => Ok g | None => Raise IndexError end
  end.

(** [re.sub(r, repl, s)] for a pattern that matches no empty string: scan from
    the left, replace each match, resume after it. *)
Fixpoint re_sub_fuel (fuel : nat) (r : regex) (repl s : str) : str :=
  match fuel with
  | O => s
  | S fuel' =>
      match s with
      | [] => []
      | c :: s' =>
          match re_match_at r [] s with
          | Some m =>
              if truthy (m_group0 m)
              then repl ++ re_sub_fuel fuel' r repl (m_after m)
              else c :: re_sub_fuel fuel' r repl s'
          | None => c :: re_sub_fuel fuel' r repl s'
          end
      end
  end.

Definition re_sub (r : regex) (repl s : str) : str :=
  re_sub_fuel (length s) r repl s.

(** ** The fragment of [datetime] the source uses *)

Record date : Type := { year : Z; month : Z; day : Z }.

Definition is_leap (y : Z) : bool :=
  (y mod 4 =? 0) && (negb (y mod 100 =? 0) || (y mod 400 =? 0)).

Definition days_in_month (y m : Z) : Z :=
  if m =? 2 then (if is_leap y then 29 else 28)
  else if (m =? 4) || (m =? 6) || (m =? 9) || (m =? 11) then 30
  else 31.

Definition valid_date (y m d : Z) : bool :=
  (1 <=? y) && (y <=? 9999) && (1 <=? m) && (m <=? 12)
  && (1 <=? d) && (d <=? days_in_month y m).

(** [datetime(y, m, d)]: [ValueError] unless the fields name a day of the
    proleptic Gregorian calendar in the years 1..9999.  Only the date part of
    the value is ever read ([dt.date()]), so the value is the date. *)
Definition datetime (y m d : Z) : result date :=
  if valid_date y m d then Ok {| year := y; month := m; day := d |}
  else Raise ValueError.

Definition digit_char (n : Z) : ascii := ascii_of_N (48 + Z.to_N (n mod 10)).

Definition digit_value (c : ascii) : Z := Z.of_N (code c) - 48.

(** The [%0wd] format of a number below [10^w]; date fields are. *)
Fixpoint zero_padded (w : nat) (n : Z) : str :=
  match w with
  | O => []
  | S w' => zero_padded w' (n / 10) ++ [digit_char n]
  end.

(** [date.isoformat()]: [%04d-%02d-%02d]. *)
Definition isoformat (d : date) : str :=
  zero_padded 4 (year d) ++ lit "-" ++ zero_padded 2 (month d)
  ++ lit "-" ++ zero_padded 2 (day d).

(** [int(s)] on a string of decimal digits; [ValueError] on anything else the
    patterns could hand over (the empty string, a character that is no digit). *)
Definition digits_value (s : str) (acc : Z) : Z :=
  fold_left (λ acc c, 10 * acc + digit_value c) s acc.

Definition int (s : str) : result Z :=
  if truthy s && forallb is_digit s then Ok (digits_value s 0)
  else Raise ValueError.

(** [datetime.fromisoformat] on the date-only form [YYYY-MM-DD], which is all
    the source passes to it; any other text is refused with [ValueError]. *)
Definition fromisoformat (s : str) : result date :=
  match s with
  | [y1; y2; y3; y4; h1; m1; m2; h2; d1; d2] =>
      if Ascii.eqb h1 "-" && Ascii.eqb h2 "-" then
        y ← int [y1; y2; y3; y4];
        m ← int [m1; m2];
        d ← int [d1; d2];
        datetime y m d
      else Raise ValueError
  | _ => Raise ValueError
  end.

(** ** utils.py *)

(** A [dict] with [str] keys that is only read. *)
Fixpoint dict_get {V} (d : list (str * V)) (key : str) : option V :=
  match d with
  | [] => None
  | (k, v) :: d' => if bool_decide (k = key) then Some v else dict_get d' key
  end.

Definition SWEDISH_MONTHS : list (str * Z) :=
  [ (lit "januari", 1); (lit "februari", 2); (lit "mars", 3);
    (lit "april", 4); (lit "maj", 5); (lit "juni", 6); (lit "juli", 7);
    (lit "augusti", 8); (lit "september", 9); (lit "oktober", 10);
    (lit "november", 11); (lit "december", 12) ].

(** [\s+] *)
Definition whitespace_re : regex := plus is_space.

Definition normalize_whitespace (text : str) : str :=
  strip (re_sub whitespace_re (lit " ") text).

(** [(\d{4}-\d{2}-\d{2})] *)
Definition iso_date_re : regex :=
  Group (times is_digit 4 +++ chr "-" +++ times is_digit 2 +++ chr "-"
         +++ times is_digit 2).

(** [(\d{4}-\d{2}-\d{2})T\d{2}:\d{2}] *)
Definition iso_datetime_re : regex :=
  iso_date_re +++ chr "T" +++ times is_digit 2 +++ chr ":" +++ times is_digit 2.

(** [(\d{1,2})\s+([a-zåäö]+)\s+(\d{4})] *)
Definition swedish_re : regex :=
  Group (Chars is_digit 1 (Some 2%nat)) +++ plus is_space
  +++ Group (plus is_swedish_lower) +++ plus is_space
  +++ Group (times is_digit 4).

(** The body shared by the two attempts of [try_parse_iso]:
    [dt = datetime.fromisoformat(m.group(1)); return dt.date().isoformat()]. *)
Definition parse_group1 (m : Match) : result (option str) :=
  g ← group m 1;
  dt ← fromisoformat g;
  Ok (Some (isoformat dt)).

Definition try_parse_iso (date_text : str) : result (option str) :=
  let date_text := strip date_text in
  let second_attempt :=
    match re_search iso_datetime_re date_text with
    | Some m => try_except (parse_group1 m) (λ _, Ok None)
    | None => Ok None
    end in
  match re_search iso_date_re date_text with
  | Some m => try_except (parse_group1 m) (λ _, second_attempt)
  | None => second_attempt
  end.

Definition try_parse_swedish (date_text : str) : result (option str) :=
  let lower := lower date_text in
  match re_search swedish_re lower with
  | None => Ok None
  | Some m =>
      match m_groups m with
      | [day_str; month_name; year_str] =>
          match dict_get SWEDISH_MONTHS month_name with
          | None => Ok None
          | Some month =>
              if month =? 0 then Ok None
              else
                try_except
                  (y ← int year_str;
                   d ← int day_str;
                   dt ← datetime y month d;
                   Ok (Some (isoformat dt)))
                  (λ _, Ok None)
          end
      | _ => Raise ValueError
      end
  end.

(** The loop [for fn in (...): iso = fn(date_text); if iso: return iso]. *)
Fixpoint first_parsed (fns : list (str → result (option str))) (date_text : str)
    : result (option str) :=
  match fns with
  | [] => Ok None
  | fn :: fns' =>
      iso ← fn date_text;
      match iso with
      | Some v => if truthy v then Ok (Some v) else first_parsed fns' date_text
      | None => first_parsed fns' date_text
      end
  end.

Definition normalize_date (date_text : str) : result (option str) :=
  if negb (truthy date_text) then Ok None
  else first_parsed [try_parse_iso; try_parse_swedish] date_text.

(** ** The fragment of bs4 the source uses *)

(** A parse tree.  [NavigableString] is character data; [Comment] stands for
    the string classes [get_text] leaves out (comments, declarations and the
    like); a [Tag] has a name, its attribute dictionary and its contents.
    The root of a document is the tag named [[document]]. *)
#[warning="-register-all"]
Inductive node : Type :=
  | NavigableString (text : str)
  | Comment (text : str)
  | Tag (name : str) (attrs : gmap str str) (contents : list node).

(** [el.name in names]; a string has no name. *)
Definition name_in (names : list str) (n : node) : bool :=
  match n with
  | Tag name _ _ => bool_decide (name ∈ names)
  | _ => false
  end.

(** [el.get(key)]. *)
Definition get (n : node) (key : str) : option str :=
  match n with
  | Tag _ attrs _ => attrs !! key
  | _ => None
  end.

(** The strings below a node, in document order. *)
Fixpoint strings (n : node) : list str :=
  match n with
  | NavigableString s => [s]
  | Comment _ => []
  | Tag _ _ contents => flat_map strings contents
  end.

(** [el.get_text(sep)]. *)
Definition get_text (sep : str) (n : node) : str := join sep (strings n).

(** [el.descendants]: document order. *)
Fixpoint descendants (n : node) : list node :=
  match n with
  | Tag _ _ contents => flat_map (λ c, c :: descendants c) contents
  | _ => []
  end.

(** [el.find_all(names)] and [el.find(names)]. *)
Definition find_all (names : list str) (n : node) : list node :=
  filter (λ d, name_in names d = true) (descendants n).

Definition find (names : list str) (n : node) : option node :=
  head (find_all names n).

(** An element as the source holds it: a node of the tree together with its
    chain of ancestors, nearest first ([.parent], [.parent.parent], ...). *)
Record element : Type := {
  el_node : node;
  el_parents : list node;
}.

Definition parent (e : element) : option element :=
  match el_parents e with
  | [] => None
  | p :: ps => Some {| el_node := p; el_parents := ps |}
  end.

Fixpoint descendants_in (parents : list node) (n : node) : list element :=
  match n with
  | Tag _ _ contents =>
      flat_map (λ c, {| el_node := c; el_parents := n :: parents |}
                       :: descendants_in (n :: parents) c) contents
  | _ => []
  end.

(** The selector
    [a[href^="/nyheter/"], a[href^="https://www.linkoping.se/nyheter/"]]. *)
Definition news_link (n : node) : bool :=
  name_in [lit "a"] n &&
  match get n (lit "href") with
  | Some href =>
      startswith (lit "/nyheter/") href
      || startswith (lit "https://www.linkoping.se/nyheter/") href
  | None => false
  end.

(** [soup.select(...)] with that selector: the matching descendants of the
    root, in document order. *)
Definition select (soup : node) : list element :=
  filter (λ e, news_link (el_node e) = true) (descendants_in [] soup).

(** [BeautifulSoup(markup, "html.parser")]: the parser is a parameter. *)
Class HtmlParser : Type := BeautifulSoup : str → node.

(** What the results below need of a parser: markup without [<] and [&] is
    character data, up to the whitespace that [normalize_whitespace] removes
    anyway. *)
Definition plain_text (t : str) : Prop :=
  Forall (λ c, c ≠ "<"%char ∧ c ≠ "&"%char) t.

Definition parses_plain_text (parser : HtmlParser) : Prop :=
  ∀ t, plain_text t →
    normalize_whitespace (get_text (lit " ") (BeautifulSoup t))
    = normalize_whitespace t.

(** ** [hashlib.md5] and [str.encode("utf-8")]

    Bytes and 32-bit words are integers; [w32] is the wrap-around. *)

Definition encode_utf8 (s : str) : list Z :=
  flat_map (λ c, let n := Z.of_N (code c) in
                 if n <? 128 then [n] else [192 + n / 64; 128 + n mod 64]) s.

Definition w32 (x : Z) : Z := x mod 2 ^ 32.

Definition rotl32 (x c : Z) : Z :=
  w32 (Z.lor (Z.shiftl x c) (Z.shiftr x (32 - c))).

Definition not32 (x : Z) : Z := Z.lxor x 0xffffffff.

Definition md5_s : list Z :=
  [ 7; 12; 17; 22; 7; 12; 17; 22; 7; 12; 17; 22; 7; 12; 17; 22;
    5; 9; 14; 20; 5; 9; 14; 20; 5; 9; 14; 20; 5; 9; 14; 20;
    4; 11; 16; 23; 4; 11; 16; 23; 4; 11; 16; 23; 4; 11; 16; 23;
    6; 10; 15; 21; 6; 10; 15; 21; 6; 10; 15; 21; 6; 10; 15; 21 ].

Definition md5_K : list Z :=
  [ 0xd76aa478; 0xe8c7b756; 0x242070db; 0xc1bdceee;
    0xf57c0faf; 0x4787c62a; 0xa8304613; 0xfd469501;
    0x698098d8; 0x8b44f7af; 0xffff5bb1; 0x895cd7be;
    0x6b901122; 0xfd987193; 0xa679438e; 0x49b40821;
    0xf61e2562; 0xc040b340; 0x265e5a51; 0xe9b6c7aa;
    0xd62f105d; 0x02441453; 0xd8a1e681; 0xe7d3fbc8;
    0x21e1cde6; 0xc33707d6; 0xf4d50d87; 0x455a14ed;
    0xa9e3e905; 0xfcefa3f8; 0x676f02d9; 0x8d2a4c8a;
    0xfffa3942; 0x8771f681; 0x6d9d6122; 0xfde5380c;
    0xa4beea44; 0x4bdecfa9; 0xf6bb4b60; 0xbebfbc70;
    0x289b7ec6; 0xeaa127fa; 0xd4ef3085; 0x04881d05;
    0xd9d4d039; 0xe6db99e5; 0x1fa27cf8; 0xc4ac5665;
    0xf4292244; 0x432aff97; 0xab9423a7; 0xfc93a039;
    0x655b59c3; 0x8f0ccc92; 0xffeff47d; 0x85845dd1;
    0x6fa87e4f; 0xfe2ce6e0; 0xa3014314; 0x4e0811a1;
    0xf7537e82; 0xbd3af235; 0x2ad7d2bb; 0xeb86d391 ].

(** Little-endian bytes of a number, and back. *)
Fixpoint le_bytes (n : nat) (x : Z) : list Z :=
  match n with
  | O => []
  | S n' => x mod 256 :: le_bytes n' (x / 256)
  end.

Fixpoint le_word (bs : list Z) : Z :=
  match bs with
  | [] => 0
  | b :: bs' => b + 256 * le_word bs'
  end.

Fixpoint le_words (n : nat) (bs : list Z) : list Z :=
  match n with
  | O => []
  | S n' => le_word (take 4 bs) :: le_words n' (drop 4 bs)
  end.

Definition md5_pad (msg : list Z) : list Z :=
  let len := Z.of_nat (length msg) in
  msg ++ [128] ++ replicate (Z.to_nat ((55 - len) mod 64)) 0
      ++ le_bytes 8 ((8 * len) mod 2 ^ 64).

Definition md5_state : Type := Z * Z * Z * Z.

Definition md5_step (M : list Z) (st : md5_state) (i : nat) : md5_state :=
  let '(a, b, c, d) := st in
  let iz := Z.of_nat i in
  let '(f, g) :=
    if iz <? 16 then (Z.lor (Z.land b c) (Z.land (not32 b) d), iz)
    else if iz <? 32 then
      (Z.lor (Z.land d b) (Z.land (not32 d) c), (5 * iz + 1) mod 16)
    else if iz <? 48 then (Z.lxor b (Z.lxor c d), (3 * iz + 5) mod 16)
    else (Z.lxor c (Z.lor b (not32 d)), (7 * iz) mod 16) in
  let f := w32 (f + a + nth i md5_K 0 + nth (Z.to_nat g) M 0) in
  (d, w32 (b + rotl32 f (nth i md5_s 0)), b, c).

Definition md5_block (st : md5_state) (block : list Z) : md5_state :=
  let M := le_words 16 block in
  let '(a0, b0, c0, d0) := st in
  let '(a, b, c, d) := fold_left (md5_step M) (seq 0 64) st in
  (w32 (a0 + a), w32 (b0 + b), w32 (c0 + c), w32 (d0 + d)).

Fixpoint md5_blocks (n : nat) (st : md5_state) (bs : list Z) : md5_state :=
  match n with
  | O => st
  | S n' => md5_blocks n' (md5_block st (take 64 bs)) (drop 64 bs)
  end.

(** [hashlib.md5(data).digest()]. *)
Definition md5 (data : list Z) : list Z :=
  let padded := md5_pad data in
  let '(a, b, c, d) :=
    md5_blocks (length padded / 64)
      (0x67452301, 0xefcdab89, 0x98badcfe, 0x10325476) padded in
  le_bytes 4 a ++ le_bytes 4 b ++ le_bytes 4 c ++ le_bytes 4 d.

Definition hex_digit (n : Z) : ascii :=
  nth (Z.to_nat n) (lit "0123456789abcdef") "0"%char.

(** [.hexdigest()] of a digest. *)
Definition hexdigest (digest : list Z) : str :=
  flat_map (λ b, [hex_digit (b / 16); hex_digit (b mod 16)]) digest.

(** ** [requests]

    The network is a parameter: the outcome of the [k]-th request of a run,
    for the URL asked. *)

Record Response : Type := { status_code : Z; text : str }.

Class Network : Type := requests_get : nat → str → result Response.

(** [resp.raise_for_status()]. *)
Definition raise_for_status (resp : Response) : result unit :=
  if (400 <=? status_code resp) && (status_code resp <? 600)
  then Raise HTTPError else Ok ().

Definition newline : ascii := "010"%char.

Section with_parser.

Context `{parser : HtmlParser} `{network : Network}.

(** *** utils.py, continued *)

Definition clean_text (html_or_text : str) : str :=
  let soup := BeautifulSoup html_or_text in
  let text := get_text (lit " ") soup in
  normalize_whitespace text.

(** *** pipeline.py *)

Definition BASE_URL : str := lit "https://www.linkoping.se/nyheter/".

Definition absolute_url (href : str) : str :=
  if startswith (lit "http") href then href
  else lit "https://www.linkoping.se" ++ href.

(** The dictionary [{"title": ..., "date_raw": ..., "url": ...}]. *)
Record Item : Type := {
  item_title : str;
  item_date_raw : str;
  item_url : str;
}.

(** [x or y] on strings that may be [None]. *)
Definition or_str (x : option str) (y : str) : str :=
  match x with
  | Some v => if truthy v then v else y
  | None => y
  end.

(** The loop [container = a; for _ in range(3): ...]. *)
Fixpoint find_container (n : nat) (container : element) : element :=
  match n with
  | O => container
  | S n' =>
      match parent container with
      | None => container
      | Some p =>
          if name_in [lit "article"; lit "li"; lit "div"] (el_node p) then p
          else find_container n' p
      end
  end.

Definition title_of (a container : element) : str :=
  let title_el := find [lit "h1"; lit "h2"; lit "h3"] (el_node container) in
  let title_text :=
    match title_el with
    | Some h => clean_text (get_text (lit " ") h)
    | None => clean_text (get_text (lit " ") (el_node a))
    end in
  strip title_text.

Definition date_text_of (container : element) : str :=
  let time_el := find [lit "time"] (el_node container) in
  let date_text :=
    match time_el with
    | Some t => or_str (get t (lit "datetime")) (get_text (lit " ") t)
    | None => []
    end in
  if negb (truthy date_text)
  then clean_text (get_text (lit " ") (el_node container))
  else date_text.

(** The item an anchor stands for, if it has one: a link target and a title
    that is not empty. *)
Definition candidate (a : element) : option Item :=
  href ← get (el_node a) (lit "href");
  if negb (truthy href) then None
  else
    let container := find_container 3 a in
    let title_text := title_of a container in
    if negb (truthy title_text) then None
    else Some {| item_title := title_text;
                 item_date_raw := date_text_of container;
                 item_url := absolute_url href |}.

(** The body of the loop of [extract_main_items], from the first statement to
    the [break]: the anchors still to visit, the items so far, the URLs seen. *)
Fixpoint main_items_loop (anchors : list element) (items : list Item)
    (seen_urls : gset str) (max_items : Z) : list Item :=
  match anchors with
  | [] => items
  | a :: rest =>
      match get (el_node a) (lit "href") with
      | None => main_items_loop rest items seen_urls max_items
      | Some href =>
          if negb (truthy href) then main_items_loop rest items seen_urls max_items
          else
            let url := absolute_url href in
            if bool_decide (url ∈ seen_urls)
            then main_items_loop rest items seen_urls max_items
            else
              let container := find_container 3 a in
              let title_text := title_of a container in
              if negb (truthy title_text)
              then main_items_loop rest items seen_urls max_items
              else
                let date_text := date_text_of container in
                let items := items ++ [ {| item_title := title_text;
                                           item_date_raw := date_text;
                                           item_url := url |} ] in
                let seen_urls := {[ url ]} ∪ seen_urls in
                if Z.of_nat (length items) >=? max_items then items
                else main_items_loop rest items seen_urls max_items
      end
  end.

Definition extract_main_items (soup : node) (max_items : Z) : list Item :=
  main_items_loop (select soup) [] ∅ max_items.

(** [" ".join(paragraphs) or region.get_text(" ")] over the paragraphs below
    [region]. *)
Definition paragraphs_or_text (region : node) : str :=
  let paragraphs := map (get_text (lit " ")) (find_all [lit "p"] region) in
  let joined := join (lit " ") paragraphs in
  if truthy joined then joined else get_text (lit " ") region.

Definition extract_detail_from (soup : node) : str :=
  match find [lit "article"] soup with
  | Some article => clean_text (paragraphs_or_text article)
  | None =>
      match find [lit "main"] soup with
      | Some main => clean_text (paragraphs_or_text main)
      | None => clean_text (paragraphs_or_text soup)
      end
  end.

Definition extract_detail_content (detail_html : str) : str :=
  extract_detail_from (BeautifulSoup detail_html).

(** The dictionary [{"id": ..., "title": ..., "date": ..., "url": ...,
    "content": ...}]. *)
Record Article : Type := {
  art_id : str;
  art_title : str;
  art_date : str;
  art_url : str;
  art_content : str;
}.

(** The body of [try:] for one detail page. *)
Definition fetch_detail (k : nat) (url : str) : result str :=
  d_resp ← requests_get k url;
  _ ← raise_for_status d_resp;
  Ok (extract_detail_content (text d_resp)).

(** The loop [for item in main_items] of [scrape]; the [k]-th request of the
    run is the next one. *)
Fixpoint scrape_items (k : nat) (main_items : list Item) : result (list Article) :=
  match main_items with
  | [] => Ok []
  | item :: rest =>
      let url := item_url item in
      content ← try_except (fetch_detail k url) (λ _, Ok []);
      iso ← normalize_date (or_str (Some (item_date_raw item)) []);
      let iso_date := or_str iso [] in
      let result := {| art_id := hexdigest (md5 (encode_utf8 url));
                       art_title := or_str (Some (item_title item)) [];
                       art_date := iso_date;
                       art_url := url;
                       art_content := content |} in
      results ← scrape_items (S k) rest;
      Ok (result :: results)
  end.

Definition scrape : result (list Article) :=
  resp ← requests_get 0 BASE_URL;
  _ ← raise_for_status resp;
  let soup := BeautifulSoup (text resp) in
  let main_items := extract_main_items soup 5 in
  scrape_items 1 main_items.

(** The record [scrape] builds for a listing item whose detail page is the
    [k]-th request. *)
Definition record_of (k : nat) (item : Item) : Article :=
  {| art_id := hexdigest (md5 (encode_utf8 (item_url item)));
     art_title := item_title item;
     art_date := match normalize_date (item_date_raw item) with
                 | Ok (Some v) => v
                 | _ => []
                 end;
     art_url := item_url item;
     art_content := match fetch_detail k (item_url item) with
                    | Ok content => content
                    | Raise _ => []
                    end |}.

End with_parser.

(** *** The index: [upsert_to_pinecone] and the search handler of api.py *)

(** The embedding client and the query engine of the vector index.  A vector
    and a score are opaque to the source; [zero_score] is [0.0]. *)
Class Services : Type := {
  vector : Type;
  score : Type;
  zero_score : score;
  (** [client.embeddings.create(model=..., input=t).data[0].embedding], the
      [k]-th call. *)
  embeddings_create : nat → str → result vector;
  (** The nearest stored vectors the engine picks: their ids and scores. *)
  nearest : gset str → vector → Z → list (str * option score);
}.

(** The state of the index: what is stored under each id. *)
Abbreviation index_state := (gmap str (vector * gmap str str)).

Section with_services.
Context `{services : Services}.

(** One entry of [upserts]. *)
Record Upsert : Type := {
  up_id : str;
  up_values : vector;
  up_metadata : gmap str str;
}.

Fixpoint embed_texts (k : nat) (texts : list str) : result (list vector) :=
  match texts with
  | [] => Ok []
  | t :: texts' =>
      e ← embeddings_create k t;
      es ← embed_texts (S k) texts';
      Ok (e :: es)
  end.

Definition upsert_of (article : Article) (v : vector) : Upsert :=
  {| up_id := art_id article;
     up_values := v;
     up_metadata :=
       <[ lit "url" := art_url article ]>
       (<[ lit "date" := art_date article ]>
       (<[ lit "title" := art_title article ]> ∅)) |}.

(** [index.upsert(vectors=upserts)]: insert or overwrite by id, in order. *)
Definition index_upsert (index : index_state) (upserts : list Upsert) : index_state :=
  fold_left (λ ix u, <[ up_id u := (up_values u, up_metadata u) ]> ix) upserts index.

Definition upserts_of (articles : list Article) : result (list Upsert) :=
  let inputs := map (λ a, art_title a ++ [newline; newline] ++ art_content a) articles in
  vectors ← embed_texts 0 inputs;
  Ok (zip_with upsert_of articles vectors).

Definition upsert_to_pinecone (index : index_state) (articles : list Article)
    : result index_state :=
  upserts ← upserts_of articles;
  Ok (index_upsert index upserts).

(** A match of [index.query(..., include_metadata=True)]. *)
Record ScoredVector : Type := {
  sv_id : str;
  sv_score : option score;
  sv_metadata : option (gmap str str);
}.

Definition index_query (index : index_state) (v : vector) (top_k : Z)
    : list ScoredVector :=
  map (λ '(i, sc), {| sv_id := i; sv_score := sc;
                      sv_metadata := snd <$> index !! i |})
      (nearest (dom index) v top_k).

Record SearchRequest : Type := { query : str; top_k : Z }.

Record SearchResult : Type := {
  sr_title : str;
  sr_date : str;
  sr_url : str;
  sr_content : str;
  sr_score : score;
}.

(** [md.get(key, "")]. *)
Definition md_get (md : gmap str str) (key : str) : str := default [] (md !! key).

Definition search_result_of (m : ScoredVector) : SearchResult :=
  let md := default ∅ (sv_metadata m) in
  {| sr_title := md_get md (lit "title");
     sr_date := md_get md (lit "date");
     sr_url := md_get md (lit "url");
     sr_content := md_get md (lit "content");
     sr_score := default zero_score (sv_score m) |}.

Definition search (index : index_state) (req : SearchRequest)
    : result (list SearchResult) :=
  if negb (truthy (strip (query req))) then Raise (HTTPException 400)
  else
    v ← embeddings_create 0 (query req);
    let matches := index_query index v (top_k req) in
    Ok (map search_result_of matches).

End with_services.
(** ** A reference parser

    The tree [html.parser] and bs4's tree builder give for the markup that
    the examples below are written in: elements with attributes (quoted, bare
    or without a value), end tags, void and self-closed elements, comments,
    and the references [&lt;] [&gt;] [&amp;] [&quot;] [&apos;] [&nbsp;] and
    those of the Swedish letters.
    Other constructs (declarations, processing instructions, numeric and
    other named references, the raw text of [script] and [style]) are outside
    this fragment and are kept as character data. *)

Inductive token : Type :=
  | TData (s : str)
  | TStart (name : str) (attrs : list (str * str)) (closed : bool)
  | TEnd (name : str)
  | TComment (s : str).

Definition span (p : ascii → bool) (s : str) : str * str :=
  (take_while p s, drop_while p s).

(** The text before and after the first occurrence of [marker]. *)
Fixpoint split_on (marker s : str) : option (str * str) :=
  if startswith marker s then Some ([], drop (length marker) s)
  else
    match s with
    | [] => None
    | c :: s' => '(a, b) ← split_on marker s'; Some (c :: a, b)
    end.

Definition quote : ascii := "034"%char.
Definition apostrophe : ascii := "039"%char.

Definition entities : list (str * ascii) :=
  [ (lit "lt", "<"%char); (lit "gt", ">"%char); (lit "amp", "&"%char);
    (lit "quot", quote); (lit "apos", apostrophe); (lit "nbsp", "160"%char);
    (lit "aring", "229"%char); (lit "auml", "228"%char);
    (lit "ouml", "246"%char); (lit "Aring", "197"%char);
    (lit "Auml", "196"%char); (lit "Ouml", "214"%char) ].

Definition is_letter (c : ascii) : bool := in_range 65 90 c || in_range 97 122 c.

(** After an ampersand: the character a known reference stands for, and the
    text after the reference (its semicolon is optional). *)
Definition parse_reference (s : str) : option (ascii * str) :=
  let '(name, rest) := span (λ c, is_letter c || is_digit c) s in
  c ← dict_get entities name;
  Some (c, match rest with ";"%char :: rest' => rest' | _ => rest end).

Fixpoint unescape (fuel : nat) (s : str) : str :=
  match fuel, s with
  | S fuel', "&"%char :: rest =>
      match parse_reference rest with
      | Some (c, rest') => c :: unescape fuel' rest'
      | None => "&"%char :: unescape fuel' rest
      end
  | S fuel', c :: rest => c :: unescape fuel' rest
  | _, _ => s
  end.

Definition tag_name_char (c : ascii) : bool :=
  negb (is_space c || Ascii.eqb c "/" || Ascii.eqb c ">").

Definition attr_name_char (c : ascii) : bool :=
  negb (is_space c || Ascii.eqb c "/" || Ascii.eqb c ">" || Ascii.eqb c "=").

Definition bare_value_char (c : ascii) : bool :=
  negb (is_space c || Ascii.eqb c ">").

(** After a tag name: the attributes in order, whether the tag closes itself,
    and the text after its [>]; [None] when the tag has no end. *)
Fixpoint parse_attrs (fuel : nat) (s : str) (acc : list (str * str))
    : option (list (str * str) * bool * str) :=
  match fuel with
  | O => None
  | S fuel' =>
      match s with
      | [] => None
      | ">"%char :: rest => Some (rev acc, false, rest)
      | "/"%char :: ">"%char :: rest => Some (rev acc, true, rest)
      | c :: rest =>
          if negb (attr_name_char c) then parse_attrs fuel' rest acc
          else
            let '(name, s1) := span attr_name_char s in
            match lstrip s1 with
            | "="%char :: s2 =>
                match lstrip s2 with
                | q :: s3 =>
                    if Ascii.eqb q quote || Ascii.eqb q apostrophe then
                      '(v, rest') ← split_on [q] s3;
                      parse_attrs fuel' rest'
                        ((lower name, unescape (length v) v) :: acc)
                    else
                      let '(v, rest') := span bare_value_char (q :: s3) in
                      parse_attrs fuel' rest'
                        ((lower name, unescape (length v) v) :: acc)
                | [] => None
                end
            | _ => parse_attrs fuel' s1 ((lower name, []) :: acc)
            end
      end
  end.

(** After [<]: a comment, an end tag or a start tag, and the text after it. *)
Definition parse_markup (s : str) : option (token * str) :=
  if startswith (lit "!--") s then
    '(body, rest) ← split_on (lit "-->") (drop 3 s);
    Some (TComment body, rest)
  else
    match s with
    | "/"%char :: c :: s' =>
        if is_letter c then
          let '(name, s1) := span tag_name_char (c :: s') in
          '(_, rest) ← split_on (lit ">") s1;
          Some (TEnd (lower name), rest)
        else None
    | c :: _ =>
        if is_letter c then
          let '(name, s1) := span tag_name_char s in
          '(attrs, closed, rest) ← parse_attrs (S (length s1)) s1 [];
          Some (TStart (lower name) attrs closed, rest)
        else None
    | [] => None
    end.

Definition flush (data_rev : str) (tokens : list token) : list token :=
  match data_rev with
  | [] => tokens
  | _ => TData (rev data_rev) :: tokens
  end.

Fixpoint tokenize (fuel : nat) (data_rev s : str) : list token :=
  match fuel, s with
  | S fuel', c :: rest =>
      if Ascii.eqb c "<" then
        match parse_markup rest with
        | Some (tok, rest') => flush data_rev (tok :: tokenize fuel' [] rest')
        | None => tokenize fuel' (c :: data_rev) rest
        end
      else if Ascii.eqb c "&" then
        match parse_reference rest with
        | Some (c', rest') => tokenize fuel' (c' :: data_rev) rest'
        | None => tokenize fuel' (c :: data_rev) rest
        end
      else tokenize fuel' (c :: data_rev) rest
  | _, _ => flush data_rev []
  end.

(** An open tag while the tree is built: its contents so far, last first. *)
Record frame : Type := {
  fr_name : str;
  fr_attrs : gmap str str;
  fr_rev : list node;
}.

Definition node_of (f : frame) : node :=
  Tag (fr_name f) (fr_attrs f) (rev (fr_rev f)).

Definition add_child (n : node) (f : frame) : frame :=
  {| fr_name := fr_name f; fr_attrs := fr_attrs f; fr_rev := n :: fr_rev f |}.

(** Close every open tag: what is left is the root. *)
Fixpoint collapse (top : frame) (below : list frame) : frame :=
  match below with
  | [] => top
  | g :: st => collapse (add_child (node_of top) g) st
  end.

(** An end tag closes the open tags down to the nearest one of its name; with
    no open tag of that name it does nothing ([None]). *)
Fixpoint pop_to (name : str) (top : frame) (below : list frame)
    : option (frame * list frame) :=
  match below with
  | [] => None
  | g :: st =>
      let g' := add_child (node_of top) g in
      if bool_decide (fr_name top = name) then Some (g', st)
      else pop_to name g' st
  end.

Definition void_elements : list str :=
  map lit [ "area"; "base"; "br"; "col"; "embed"; "hr"; "img"; "input";
            "keygen"; "link"; "menuitem"; "meta"; "param"; "source"; "track";
            "wbr"; "basefont"; "bgsound"; "command"; "frame"; "image";
            "isindex"; "nextid"; "spacer" ].

Definition is_ascii_space (c : ascii) : bool :=
  bool_decide (c ∈ [" "%char; newline; "009"%char; "012"%char; "013"%char]).

(** A string of ASCII whitespace only becomes one newline or one space, unless
    a [pre] or [textarea] is open. *)
Definition data_string (open_tags : list frame) (s : str) : str :=
  if forallb is_ascii_space s
     && negb (existsb (λ f, bool_decide (fr_name f ∈ [lit "pre"; lit "textarea"]))
                open_tags)
  then (if bool_decide (newline ∈ s) then [newline] else lit " ")
  else s.

Fixpoint build (tokens : list token) (top : frame) (below : list frame) : frame :=
  match tokens with
  | [] => collapse top below
  | TData s :: tokens' =>
      build tokens'
        (add_child (NavigableString (data_string (top :: below) s)) top) below
  | TComment s :: tokens' => build tokens' (add_child (Comment s) top) below
  | TStart name attrs closed :: tokens' =>
      let f := {| fr_name := name;
                  fr_attrs := fold_left (λ d kv, <[ kv.1 := kv.2 ]> d) attrs ∅;
                  fr_rev := [] |} in
      if closed || bool_decide (name ∈ void_elements)
      then build tokens' (add_child (node_of f) top) below
      else build tokens' f (top :: below)
  | TEnd name :: tokens' =>
      match pop_to name top below with
      | Some (g, st) => build tokens' g st
      | None => build tokens' top below
      end
  end.

Definition html_parser : HtmlParser := λ markup,
  node_of (build (tokenize (length markup) [] markup)
             {| fr_name := lit "[document]"; fr_attrs := ∅; fr_rev := [] |} []).

(** ** Worked examples *)

Definition example_listing : str :=
  lit "<html><body><ul><li><article><h2>Rubrik</h2><a href='/nyheter/test-artikel'>L&auml;s mer</a><time datetime='2024-08-28'>28 augusti 2024</time></article></li><li><a href='https://www.linkoping.se/nyheter/badplatser'>Badplatser &ouml;ppnar</a> <span>Publicerad 3 juni 2024</span></li><li><a href='/nyheter/test-artikel'>Rubrik igen</a></li></ul></body></html>".

Definition example_detail : str :=
  lit "<html><body><main><p>Del ett.</p><p>Del tv&aring;.</p></main></body></html>".

(** A network on which the listing and the first detail page load and every
    other request fails. *)
Definition example_network : Network := λ k url,
  match k with
  | 0%nat => Ok {| status_code := 200; text := example_listing |}
  | 1%nat => Ok {| status_code := 200; text := example_detail |}
  | 2%nat => Ok {| status_code := 503; text := lit "unavailable" |}
  | _ => Raise RequestException
  end.

Definition example_records : list Article :=
  Eval vm_compute in
    match @scrape html_parser example_network with
    | Ok records => records
    | Raise _ => []
    end.

(** The same site with every detail page down. *)
Definition example_network_down : Network := λ k url,
  match k with
  | 0%nat => Ok {| status_code := 200; text := example_listing |}
  | _ => Raise RequestException
  end.

Definition example_records_down : list Article :=
  Eval vm_compute in
    match @scrape html_parser example_network_down with
    | Ok records => records
    | Raise _ => []
    end.

Definition no_article : Article :=
  {| art_id := []; art_title := []; art_date := []; art_url := [];
     art_content := [] |}.

Definition example_record : Article :=
  Eval vm_compute in nth 0 example_records no_article.

Definition example_record_down : Article :=
  Eval vm_compute in nth 0 example_records_down no_article.



Definition escaped_markup : str := lit "&lt;b&gt;hi&lt;/b&gt;".

Definition messy_markup : str :=
  lit "  <p>Hej   d&aring;,
   <b>Link&ouml;ping</b> </p> ".

Definition bare_listing : str := lit "<p><a href='/nyheter/x'>Rubrik</a></p>".

Definition list_item_listing : str :=
  lit "<ul><li><span><a href='/nyheter/x'>Rubrik</a></span></li></ul>".


(** An embedding service and a query engine to compute with: a text is
    embedded as its length, and the engine reports every stored id with the
    score 1. *)
Definition example_services : Services :=
  {| vector := list Z;
     score := Z;
     zero_score := 0;
     embeddings_create := λ _ t, Ok [Z.of_nat (length t)];
     nearest := λ ids _ _, map (λ i, (i, Some 1)) (elements ids) |}.

Definition example_index : gmap str (@vector example_services * gmap str str) :=
  match @upsert_to_pinecone example_services ∅ example_records with
  | Ok index => index
  | Raise _ => ∅
  end.

(** ** Notions the statements below are written in *)

(** [matches r w gs]: the pattern [r] matches exactly the text [w], capturing
    the groups [gs] (in the order the groups close). *)
Inductive matches : regex → str → list str → Prop :=
  | matches_chars cls lo hi w :
      Forall (λ c, cls c = true) w →
      (lo ≤ length w)%nat →
      (∀ n, hi = Some n → (length w ≤ n)%nat) →
      matches (Chars cls lo hi) w []
  | matches_seq r1 r2 w1 w2 g1 g2 :
      matches r1 w1 g1 →
      matches r2 w2 g2 →
      matches (Seq r1 r2) (w1 ++ w2) (g1 ++ g2)
  | matches_group r w g :
      matches r w g →
      matches (Group r) w (g ++ [w]).

(** The pattern matches some text that starts at offset [i] of [s]. *)
Definition occurs_at (r : regex) (s : str) (i : nat) : Prop :=
  ∃ w rest g, drop i s = w ++ rest ∧ matches r w g.

(** Offset [i] is the leftmost one at which the pattern matches. *)
Definition leftmost (r : regex) (s : str) (i : nat) : Prop :=
  (i ≤ length s)%nat ∧ occurs_at r s i ∧ ∀ j, (j < i)%nat → ¬ occurs_at r s j.

(** Every whitespace character of [s] is a single space that follows a
    character that is no whitespace; [after_space] tells whether [s] follows
    whitespace (or starts the text). *)
Fixpoint spaced (after_space : bool) (s : str) : bool :=
  match s with
  | [] => true
  | c :: s' =>
      if is_space c
      then negb after_space && Ascii.eqb c " " && spaced true s'
      else spaced false s'
  end.

Definition ends_in_space (s : str) : bool :=
  match last s with
  | Some c => is_space c
  | None => false
  end.

Definition starts_in_space (s : str) : bool :=
  match s with
  | c :: _ => is_space c
  | [] => false
  end.

(** Every character of [w] is of the class. *)
Definition all (cls : ascii → bool) (w : str) : Prop := Forall (λ c, cls c = true) w.

(** [x] does not start with a character of the class. *)
Definition head_not (cls : ascii → bool) (x : str) : Prop :=
  ∀ c rest, x = c :: rest → cls c = false.

(** What [(\d{4}-\d{2}-\d{2})] matches. *)
Definition iso_shaped (w : str) : Prop :=
  ∃ y1 y2 y3 y4 m1 m2 d1 d2,
    w = [y1; y2; y3; y4; "-"%char; m1; m2; "-"%char; d1; d2] ∧
    Forall (λ c, is_digit c = true) [y1; y2; y3; y4; m1; m2; d1; d2].

(** The text of a day of the calendar. *)
Definition date_text (v : str) : Prop :=
  ∃ y m d, valid_date y m d = true ∧
           v = isoformat {| year := y; month := m; day := d |}.

Fixpoint groups_count (r : regex) : nat :=
  match r with
  | Chars _ _ _ => 0
  | Seq r1 r2 => groups_count r1 + groups_count r2
  | Group r1 => S (groups_count r1)
  end.

(** Keep the first item of each URL that is not in [seen]. *)
Fixpoint first_by_url (seen : gset str) (items : list Item) : list Item :=
  match items with
  | [] => []
  | it :: rest =>
      if bool_decide (item_url it ∈ seen) then first_by_url seen rest
      else it :: first_by_url ({[ item_url it ]} ∪ seen) rest
  end.

(** The tags that make a container of [extract_main_items]. *)
Definition container_names : list str := [lit "article"; lit "li"; lit "div"].

Definition is_container (p : node) : Prop := name_in container_names p = true.

Global Instance is_container_dec p : Decision (is_container p).
Proof. unfold is_container. apply _. Defined.

(** A text of whitespace only. *)
Definition blank (s : str) : Prop := all is_space s.


(** The keys of the metadata [upsert_to_pinecone] writes. *)
Definition metadata_keys : gset str := {[ lit "title"; lit "date"; lit "url" ]}.

(** ** Notions and examples for the further results *)

(** [s.split()] with no argument: the maximal runs of characters that are no
    whitespace, in order; [word_rev] is the run being read, last character
    first. *)
Fixpoint split_whitespace_acc (word_rev : str) (s : str) : list str :=
  match s with
  | [] => match word_rev with [] => [] | _ => [rev word_rev] end
  | c :: s' =>
      if is_space c
      then match word_rev with
           | [] => split_whitespace_acc [] s'
           | _ => rev word_rev :: split_whitespace_acc [] s'
           end
      else split_whitespace_acc (c :: word_rev) s'
  end.

Definition split_whitespace (s : str) : list str := split_whitespace_acc [] s.

(** What [\d{2}:\d{2}] after a [T] matches: the text [THH:MM]. *)
Definition time_shaped (t : str) : Prop :=
  ∃ h1 h2 m1 m2,
    t = ["T"%char; h1; h2; ":"%char; m1; m2] ∧
    Forall (λ c, is_digit c = true) [h1; h2; m1; m2].

(** The characters of a hexadecimal digest. *)
Definition is_hex (c : ascii) : Prop := c ∈ lit "0123456789abcdef".

Definition example_items : list Item :=
  Eval vm_compute in @extract_main_items html_parser (html_parser example_listing) 5.

Definition no_item : Item :=
  {| item_title := []; item_date_raw := []; item_url := [] |}.

Definition example_item : Item := Eval vm_compute in nth 1 example_items no_item.

(** The text [upsert_to_pinecone] embeds for an article:
    [f"{a['title']}\n\n{a['content']}"]. *)
Definition embedding_input (a : Article) : str :=
  art_title a ++ [newline; newline] ++ art_content a.

Definition example_request : SearchRequest :=
  {| query := lit "badplatser"; top_k := 3 |}.

Definition example_results : list (@SearchResult example_services) :=
  match @search example_services example_index example_request with
  | Ok results => results
  | Raise _ => []
  end.

(** ** [json.dump(data, f, ensure_ascii=False, indent=2)]

    What [save_json] writes for a list of article records: the text
    [json]'s encoder gives for a list of dictionaries of strings, with items
    separated by a comma and a newline, keys by a colon and a space, and two
    spaces of indentation a level. *)

Definition backslash : ascii := "092"%char.










(** Reading back one character of an encoded string (a device of the proofs
    below): the character and the text after it, [None] at the closing
    quote. *)
Definition hex_value (c : ascii) : Z :=
  if is_digit c then digit_value c else Z.of_N (code c) - 87.

Definition unescape_char (s : str) : option (ascii * str) :=
  match s with
  | [] => None
  | c :: rest =>
      if Ascii.eqb c quote then None
      else if Ascii.eqb c backslash then
        match rest with
        | e :: rest' =>
            if Ascii.eqb e "b" then Some ("008"%char, rest')
            else if Ascii.eqb e "f" then Some ("012"%char, rest')
            else if Ascii.eqb e "n" then Some ("010"%char, rest')
            else if Ascii.eqb e "r" then Some ("013"%char, rest')
            else if Ascii.eqb e "t" then Some ("009"%char, rest')
            else if Ascii.eqb e "u" then
              match rest' with
              | _ :: _ :: h :: l :: rest'' =>
                  Some (ascii_of_N (Z.to_N (16 * hex_value h + hex_value l)), rest'')
              | _ => None
              end
            else Some (e, rest')
        | [] => None
        end
      else Some (c, rest)
  end.

(** ** [ensure_pinecone_index]

    The function inspects what the Pinecone client returns with [hasattr],
    [getattr], [isinstance], iteration, hashing and truth value.  A value of
    Python is modelled as far as those tell values apart: [None], a [bool],
    a [str], a [list], a [dict] with [str] keys (its items in insertion
    order), or an object with data attributes, methods (a method maps the
    strings it is called with to its result, [None] when it raises) and,
    when it is iterable, the values it yields.  An operation that raises gives [None]: every such
    exception is caught by [except Exception] and its kind is never read. *)
#[warning="-register-all"]
Inductive pyval : Type :=
  | PyNone
  | PyBool (b : bool)
  | PyStr (s : str)
  | PyList (items : list pyval)
  | PyDict (items : list (str * pyval))
  | PyObject (attrs : list (str * pyval))
             (methods : list (str * (list str → option pyval)))
             (yields : option (list pyval)).

(** [hasattr(v, name)] for a name that no built-in type has. *)
Definition hasattr (v : pyval) (name : str) : bool :=
  match v with
  | PyObject attrs methods _ =>
      bool_decide (is_Some (dict_get attrs name))
      || bool_decide (is_Some (dict_get methods name))
  | _ => false
  end.

(** A bound method as a value: an object that is no string. *)
Definition bound_method : pyval := PyObject [] [] None.

(** [getattr(v, name, default)] for a name that no built-in type has. *)
Definition getattr (v : pyval) (name : str) (default : pyval) : pyval :=
  match v with
  | PyObject attrs methods _ =>
      match dict_get attrs name with
      | Some a => a
      | None =>
          match dict_get methods name with
          | Some _ => bound_method
          | None => default
          end
      end
  | _ => default
  end.

(** [v.names()]. *)
Definition call_names (v : pyval) : option pyval :=
  match v with
  | PyObject attrs methods _ =>
      match dict_get attrs (lit "names") with
      | Some _ => None
      | None => f ← dict_get methods (lit "names"); f []
      end
  | _ => None
  end.

(** [v.get(key)]: [dict.get], or the method of an object. *)
Definition call_get (v : pyval) (key : str) : option pyval :=
  match v with
  | PyDict items => Some (default PyNone (dict_get items key))
  | PyObject attrs methods _ =>
      match dict_get attrs (lit "get") with
      | Some _ => None
      | None => f ← dict_get methods (lit "get"); f [key]
      end
  | _ => None
  end.

(** The values [for i in v] goes through. *)
Definition iterate (v : pyval) : option (list pyval) :=
  match v with
  | PyList items => Some items
  | PyDict items => Some (map (λ kv, PyStr kv.1) items)
  | PyStr s => Some (map (λ c, PyStr [c]) s)
  | PyObject _ _ yields => yields
  | _ => None
  end.

Definition hashable (v : pyval) : bool :=
  match v with
  | PyList _ | PyDict _ => false
  | _ => true
  end.

(** [set(v)], as the list of its members. *)
Definition py_set (v : pyval) : option (list pyval) :=
  items ← iterate v;
  if forallb hashable items then Some items else None.

(** [bool(v)]. *)
Definition py_bool (v : pyval) : bool :=
  match v with
  | PyNone => false
  | PyBool b => b
  | PyStr s => truthy s
  | PyList items => match items with [] => false | _ => true end
  | PyDict items => match items with [] => false | _ => true end
  | PyObject _ _ _ => true
  end.

(** [v == s] for a [str] [s]. *)
Definition is_str (s : str) (v : pyval) : bool :=
  match v with
  | PyStr s' => bool_decide (s' = s)
  | _ => false
  end.

(** [s in names]. *)
Definition py_in (s : str) (names : list pyval) : bool := existsb (is_str s) names.

(** The set [names] that the first [try] statement leaves. *)
Definition index_names (li : pyval) : list pyval :=
  let attempt :=
    if hasattr li (lit "names") then
      r ← call_names li; py_set r
    else
      items ← iterate li;
      names ← mapM (λ i, d ← call_get i (lit "name");
                         Some (getattr i (lit "name") d)) items;
      if forallb hashable names then Some names else None in
  match attempt with
  | Some names => names
  | None =>
      match py_set li with
      | Some names => names
      | None => []
      end
  end.

(** The value of [ready] after the [try] statement of the loop. *)
Definition is_ready (desc : pyval) : bool :=
  let status := getattr desc (lit "status") PyNone in
  match status with
  | PyDict items => py_bool (default PyNone (dict_get items (lit "ready")))
  | _ => py_bool (getattr status (lit "ready") (PyBool false))
  end.

(** The client: what [pc.list_indexes()] returns, whether
    [pc.create_index(...)] succeeds, and what the [k]-th call of
    [pc.describe_index] returns. *)
Class PineconeClient : Type := {
  list_indexes : result pyval;
  create_index : str → Z → str → str → str → result unit;
  describe_index : nat → str → result pyval;
}.

(** What the function does to the outside, in order. *)
Inductive call : Type :=
  | CallListIndexes
  | CallCreateIndex (name : str) (dimension : Z) (metric cloud region : str)
  | CallDescribeIndex (name : str)
  | CallSleep (seconds : Z).

(** How a run ends; [Running] is a run still in its loop when the fuel is
    used up. *)
Inductive outcome : Type :=
  | Returns
  | Raises (e : exn)
  | Running.

Section with_client.
Context `{pc : PineconeClient}.

(** The loop [while True], from its [k]-th turn on. *)
Fixpoint wait_ready (fuel k : nat) (index_name : str) : list call * outcome :=
  match fuel with
  | O => ([], Running)
  | S fuel' =>
      match describe_index k index_name with
      | Raise e => ([CallDescribeIndex index_name], Raises e)
      | Ok desc =>
          if is_ready desc then ([CallDescribeIndex index_name], Returns)
          else
            let '(calls, out) := wait_ready fuel' (S k) index_name in
            (CallDescribeIndex index_name :: CallSleep 1 :: calls, out)
      end
  end.

Definition ensure_pinecone_index (fuel : nat) (index_name : str) (dimension : Z)
    (cloud region : str) : list call * outcome :=
  match list_indexes with
  | Raise e => ([CallListIndexes], Raises e)
  | Ok li =>
      let names := index_names li in
      if negb (py_in index_name names) then
        match create_index index_name dimension (lit "cosine") cloud region with
        | Raise e =>
            ([CallListIndexes;
              CallCreateIndex index_name dimension (lit "cosine") cloud region],
             Raises e)
        | Ok _ =>
            let '(calls, out) := wait_ready fuel 0 index_name in
            (CallListIndexes
               :: CallCreateIndex index_name dimension (lit "cosine") cloud region
               :: calls, out)
        end
      else
        let '(calls, out) := wait_ready fuel 0 index_name in
        (CallListIndexes :: calls, out)
  end.

End with_client.

(** An entry of a listing that names an index: a dictionary with the key
    [name], or an object with the attribute [name] and a method [get]. *)
Inductive names_entry : pyval → str → Prop :=
  | names_entry_dict items n :
      dict_get items (lit "name") = Some (PyStr n) →
      names_entry (PyDict items) n
  | names_entry_object attrs methods yields n f r :
      dict_get attrs (lit "name") = Some (PyStr n) →
      dict_get attrs (lit "get") = None →
      dict_get methods (lit "get") = Some f →
      f [lit "name"] = Some r →
      names_entry (PyObject attrs methods yields) n.

(** A listing that reports the index names [ns] in one of the three shapes
    the source expects: an object with a method [names], a list of entries
    that name an index, or a list of strings. *)
Inductive reports : pyval → list str → Prop :=
  | reports_names attrs methods yields f ns :
      dict_get attrs (lit "names") = None →
      dict_get methods (lit "names") = Some f →
      f [] = Some (PyList (map PyStr ns)) →
      reports (PyObject attrs methods yields) ns
  | reports_entries entries ns :
      Forall2 names_entry entries ns →
      reports (PyList entries) ns
  | reports_strings ns :
      reports (PyList (map PyStr ns)) ns.

(** An object with the attribute [name] and no [get]. *)
Definition named_without_get (v : pyval) : Prop :=
  ∃ attrs methods yields n,
    v = PyObject attrs methods yields ∧
    dict_get attrs (lit "name") = Some (PyStr n) ∧
    dict_get attrs (lit "get") = None ∧
    dict_get methods (lit "get") = None.

(** The calls of [k] turns of the loop that find the index not ready. *)
Fixpoint polls (k : nat) (index_name : str) : list call :=
  match k with
  | O => []
  | S k' => CallDescribeIndex index_name :: CallSleep 1 :: polls k' index_name
  end.

(** A client to compute with: the listing has a method [names], the index
    [linkoping] exists, and it is ready from the third description on. *)
Definition example_client : PineconeClient :=
  {| list_indexes :=
       Ok (PyObject [] [(lit "names", λ _, Some (PyList [PyStr (lit "linkoping")]))]
             (Some [PyStr (lit "linkoping")]));
     create_index := λ _ _ _ _ _, Ok ();
     describe_index := λ k _,
       Ok (PyObject
             [(lit "status",
               PyDict [(lit "ready", PyBool (bool_decide (2 ≤ k)%nat))])]
             [] None) |}.

(** A client whose listing is a list of objects that have the attribute
    [name] and no method [get]. *)
Definition example_client_objects : PineconeClient :=
  {| list_indexes :=
       Ok (PyList [PyObject [(lit "name", PyStr (lit "linkoping"))] [] None]);
     create_index := λ _ _ _ _ _, Raise ServiceError;
     describe_index := λ _ _, Raise ServiceError |}.

(** * Proofs *)

(** ** The matcher finds exactly what the pattern describes *)

Lemma chars_bt_sound {A} cls lo hi s (k : str → option A) a :
  chars_bt cls lo hi s k = Some a →
  ∃ w rest, s = w ++ rest ∧ matches (Chars cls lo hi) w [] ∧ k rest = Some a.
Proof.
  revert lo hi. induction s as [|c s IH]; intros lo hi; simpl.
  - destruct (Nat.eqb_spec lo 0) as [->|]; [|done]. intros Hk.
    exists [], []. split_and!; [done| |done].
    constructor; [constructor|simpl; lia|simpl; intros; lia].
  - assert (Hstop : (if Nat.eqb lo 0 then k (c :: s) else None) = Some a →
      ∃ w rest, c :: s = w ++ rest ∧ matches (Chars cls lo hi) w [] ∧ k rest = Some a).
    { destruct (Nat.eqb_spec lo 0) as [->|]; [|done]. intros Hk.
      exists [], (c :: s). split_and!; [done| |done].
      constructor; [constructor|simpl; lia|simpl; intros; lia]. }
    destruct (cls c) eqn:Hc, (may_take hi) eqn:Hm; simpl; try exact Hstop.
    destruct (chars_bt cls (Nat.pred lo) (Nat.pred <$> hi) s k) as [a'|] eqn:Hin;
      [|exact Hstop].
    intros [= ->]. apply IH in Hin as (w & rest & -> & Hw & Hk).
    exists (c :: w), rest. split_and!; [done| |done].
    inversion Hw; subst. constructor.
    + by constructor.
    + simpl. lia.
    + intros n ->. simpl in *. destruct n; [done|].
      specialize (H5 n eq_refl). lia.
Qed.

Lemma chars_bt_complete {A} cls lo hi s (k : str → option A) w rest :
  chars_bt cls lo hi s k = None →
  s = w ++ rest → matches (Chars cls lo hi) w [] → k rest = None.
Proof.
  revert lo hi w. induction s as [|c s IH]; intros lo hi w Hnone Hs Hw;
    inversion Hw as [? ? ? ? Hall Hlo Hhi| |]; subst.
  - symmetry in Hs. apply app_eq_nil in Hs as [-> ->]. simpl in *.
    by destruct lo; [|lia].
  - simpl in Hnone. destruct w as [|c' w]; simpl in Hs.
    + subst rest. simpl in Hlo. destruct lo; [|lia]. simpl in Hnone.
      destruct (cls c && may_take hi); [|done].
      by destruct (chars_bt cls _ _ s k).
    + injection Hs as <- ->. apply Forall_cons in Hall as [Hc Hall].
      rewrite Hc in Hnone. simpl in Hnone.
      assert (may_take hi = true) as Hm.
      { destruct hi as [[|n]|]; try done. specialize (Hhi _ eq_refl). simpl in Hhi. lia. }
      rewrite Hm in Hnone.
      destruct (chars_bt cls (Nat.pred lo) (Nat.pred <$> hi) (w ++ rest) k) eqn:Hin; [done|].
      eapply IH; [exact Hin|done|]. constructor; [done|simpl in *; lia|].
      intros n Hn. destruct hi as [m|]; [|done]. simpl in Hn. injection Hn as <-.
      specialize (Hhi _ eq_refl). simpl in Hhi. lia.
Qed.

Lemma bt_sound {A} r s gs (k : str → list str → option A) a :
  bt r s gs k = Some a →
  ∃ w rest g, s = w ++ rest ∧ matches r w g ∧ k rest (gs ++ g) = Some a.
Proof.
  revert s gs k. induction r as [cls lo hi|r1 IH1 r2 IH2|r IH]; intros s gs k; simpl.
  - intros (w & rest & -> & Hw & Hk)%chars_bt_sound.
    exists w, rest, []. by rewrite app_nil_r.
  - intros (w1 & rest1 & g1 & -> & Hw1 & Hk)%IH1.
    apply IH2 in Hk as (w2 & rest & g2 & -> & Hw2 & Hk).
    exists (w1 ++ w2), rest, (g1 ++ g2). split_and!.
    + by rewrite app_assoc.
    + by constructor.
    + by rewrite app_assoc.
  - intros (w & rest & g & -> & Hw & Hk)%IH.
    exists w, rest, (g ++ [w]). split_and!; [done|by constructor|].
    rewrite length_app in Hk.
    replace (length w + length rest - length rest)%nat with (length w) in Hk by lia.
    rewrite take_app_length in Hk. by rewrite app_assoc.
Qed.

Lemma bt_complete {A} r s gs (k : str → list str → option A) w rest g :
  bt r s gs k = None →
  s = w ++ rest → matches r w g → k rest (gs ++ g) = None.
Proof.
  intros Hnone Hs Hm. revert s gs k rest Hnone Hs.
  induction Hm as [cls lo hi w Hall Hlo Hhi|r1 r2 w1 w2 g1 g2 _ IH1 _ IH2|r w g _ IH];
    intros s gs k rest Hnone Hs; simpl in Hnone.
  - rewrite app_nil_r.
    eapply (chars_bt_complete cls lo hi s (λ rest, k rest gs)); [done..|by constructor].
  - rewrite app_assoc. eapply IH2; [|done].
    eapply (IH1 s gs (λ rest gs', bt r2 rest gs' k)); [done|].
    by rewrite Hs, app_assoc.
  - specialize (IH s gs _ rest Hnone Hs). simpl in IH. subst s.
    rewrite length_app in IH.
    replace (length w + length rest - length rest)%nat with (length w) in IH by lia.
    rewrite take_app_length in IH. by rewrite app_assoc.
Qed.

Lemma re_match_at_Some r before s m :
  re_match_at r before s = Some m →
  ∃ w rest g, s = w ++ rest ∧ matches r w g ∧
    m = {| m_before := before; m_group0 := w; m_groups := g; m_after := rest |}.
Proof.
  unfold re_match_at. intros (w & rest & g & -> & Hw & Hk)%bt_sound.
  exists w, rest, g. split_and!; [done..|]. injection Hk as <-.
  rewrite length_app.
  replace (length w + length rest - length rest)%nat with (length w) by lia.
  by rewrite take_app_length.
Qed.

Lemma re_match_at_None r before s :
  re_match_at r before s = None → ¬ occurs_at r s 0.
Proof.
  unfold re_match_at. intros Hnone (w & rest & g & Hs & Hw). simpl in Hs.
  by pose proof (bt_complete _ _ _ _ _ _ _ Hnone Hs Hw).
Qed.

Lemma occurs_at_S r c s j : occurs_at r (c :: s) (S j) ↔ occurs_at r s j.
Proof. done. Qed.

Lemma re_search_from_Some r b s m :
  re_search_from r b s = Some m →
  ∃ pre w rest g, s = pre ++ w ++ rest ∧ matches r w g ∧
    m = {| m_before := rev b ++ pre; m_group0 := w; m_groups := g; m_after := rest |} ∧
    ∀ j, (j < length pre)%nat → ¬ occurs_at r s j.
Proof.
  revert b. induction s as [|c s IH]; intros b; simpl.
  - destruct (re_match_at r (rev b) []) as [m'|] eqn:Hm; [|done].
    intros [= ->]. apply re_match_at_Some in Hm as (w & rest & g & Hs & Hw & ->).
    exists [], w, rest, g. rewrite app_nil_r. split_and!; [done..|simpl; lia].
  - destruct (re_match_at r (rev b) (c :: s)) as [m'|] eqn:Hm.
    + intros [= ->]. apply re_match_at_Some in Hm as (w & rest & g & Hs & Hw & ->).
      exists [], w, rest, g. rewrite app_nil_r. split_and!; [done..|simpl; lia].
    + intros (pre & w & rest & g & -> & Hw & -> & Hleft)%IH.
      exists (c :: pre), w, rest, g. split_and!; [done|done| |].
      * simpl. by rewrite <- app_assoc.
      * intros [|j] Hj; [by eapply re_match_at_None|].
        rewrite occurs_at_S. apply Hleft. simpl in Hj. lia.
Qed.

Lemma re_search_from_None r b s :
  re_search_from r b s = None → ∀ j, ¬ occurs_at r s j.
Proof.
  revert b. induction s as [|c s IH]; intros b; simpl.
  - destruct (re_match_at r (rev b) []) eqn:Hm; [done|]. intros _ j.
    apply re_match_at_None in Hm. unfold occurs_at in *. by rewrite drop_nil.
  - destruct (re_match_at r (rev b) (c :: s)) eqn:Hm; [done|].
    intros Hs [|j]; [by eapply re_match_at_None|].
    rewrite occurs_at_S. by eapply IH.
Qed.

Lemma re_search_Some r s m :
  re_search r s = Some m →
  s = m_before m ++ m_group0 m ++ m_after m ∧
  matches r (m_group0 m) (m_groups m) ∧
  leftmost r s (length (m_before m)).
Proof.
  intros (pre & w & rest & g & -> & Hw & -> & Hleft)%re_search_from_Some.
  simpl. split_and!; [done..|]. split_and!.
  - rewrite length_app. lia.
  - exists w, rest, g. by rewrite drop_app_length.
  - done.
Qed.

Lemma re_search_None r s : re_search r s = None → ∀ j, ¬ occurs_at r s j.
Proof. apply re_search_from_None. Qed.

Lemma re_search_is_Some r s j : occurs_at r s j → is_Some (re_search r s).
Proof.
  intros Hj. destruct (re_search r s) eqn:Hs; [done|].
  by destruct (re_search_None _ _ Hs j).
Qed.

(** ** Character classes *)

Ltac class_lia :=
  unfold is_space, is_digit, is_swedish_lower, is_letter, is_ascii_space,
    digit_value, in_range in *;
  repeat match goal with
  | |- context [code ?c] =>
      let n := fresh "n" in set (n := code c) in *; clearbody n
  | H : context [code ?c] |- _ =>
      let n := fresh "n" in set (n := code c) in *; clearbody n
  end;
  lia.

Lemma digit_not_space c : is_digit c = true → is_space c = false.
Proof. intros H. class_lia. Qed.

Lemma letter_not_space c : is_swedish_lower c = true → is_space c = false.
Proof. intros H. class_lia. Qed.

Lemma space_not_digit c : is_space c = true → is_digit c = false.
Proof. intros H. destruct (is_digit c) eqn:Hd; [|done]. apply digit_not_space in Hd. congruence. Qed.

Lemma space_not_letter c : is_space c = true → is_swedish_lower c = false.
Proof. intros H. destruct (is_swedish_lower c) eqn:Hd; [|done]. apply letter_not_space in Hd. congruence. Qed.

Lemma letter_not_digit c : is_swedish_lower c = true → is_digit c = false.
Proof. intros H. class_lia. Qed.

(** ** [strip] *)

Lemma take_drop_while p s : take_while p s ++ drop_while p s = s.
Proof. induction s as [|c s IH]; [done|]. simpl. destruct (p c); [|done]. simpl. by f_equal. Qed.

Lemma take_while_all p s : Forall (λ c, p c = true) (take_while p s).
Proof.
  induction s as [|c s IH]; simpl; [constructor|].
  destruct (p c) eqn:Hc; by constructor.
Qed.

Lemma drop_while_head p s c rest : drop_while p s = c :: rest → p c = false.
Proof.
  induction s as [|c' s IH]; simpl; [done|].
  destruct (p c') eqn:Hc; [done|]. by intros [= <- _].
Qed.

Lemma drop_while_all p s : Forall (λ c, p c = true) s → drop_while p s = [].
Proof. induction 1 as [|c s Hc _ IH]; [done|]. simpl. by rewrite Hc. Qed.

Lemma drop_while_app_stop p pre x rest :
  p x = false → drop_while p (pre ++ x :: rest) = drop_while p pre ++ x :: rest.
Proof.
  intros Hx. induction pre as [|c pre IH]; simpl; [by rewrite Hx|].
  by destruct (p c).
Qed.

Lemma drop_while_id p s : (∀ c rest, s = c :: rest → p c = false) → drop_while p s = s.
Proof. destruct s as [|c s]; [done|]. intros H. simpl. by rewrite (H c s eq_refl). Qed.

Lemma rstrip_app_stop a x post :
  is_space x = false → rstrip (a ++ x :: post) = a ++ x :: rstrip post.
Proof.
  intros Hx. unfold rstrip, lstrip.
  rewrite rev_app_distr.
  change (rev (x :: post)) with (rev post ++ [x]).
  rewrite <- app_assoc.
  change ([x] ++ rev a) with (x :: rev a).
  rewrite drop_while_app_stop by done.
  rewrite rev_app_distr.
  change (rev (x :: rev a)) with (rev (rev a) ++ [x]).
  by rewrite rev_involutive, <- app_assoc.
Qed.

Lemma rstrip_trailing s :
  ∃ t, s = rstrip s ++ t ∧ Forall (λ c, is_space c = true) t.
Proof.
  exists (rev (take_while is_space (rev s))). split.
  - unfold rstrip, lstrip. rewrite <- rev_app_distr, take_drop_while.
    by rewrite rev_involutive.
  - apply Forall_rev, take_while_all.
Qed.

(** Stripping a text around a part that neither starts nor ends in whitespace
    strips what is before and after it. *)
Lemma strip_around pre x mid y post :
  is_space x = false → is_space y = false →
  strip (pre ++ (x :: mid ++ [y]) ++ post)
  = lstrip pre ++ (x :: mid ++ [y]) ++ rstrip post.
Proof.
  intros Hx Hy. unfold strip, lstrip.
  change ((x :: mid ++ [y]) ++ post) with (x :: (mid ++ [y]) ++ post).
  rewrite drop_while_app_stop by done.
  assert (∀ t, drop_while is_space pre ++ x :: (mid ++ [y]) ++ t
               = (drop_while is_space pre ++ x :: mid) ++ y :: t) as E.
  { intros t. rewrite <- !app_assoc. done. }
  rewrite E, rstrip_app_stop by done. by rewrite <- E.
Qed.

Lemma occurs_at_embed r s a b j :
  occurs_at r s j → occurs_at r (a ++ s ++ b) (length a + j).
Proof.
  intros (w & rest & g & Hd & Hw).
  destruct (decide (j ≤ length s)%nat) as [Hj|Hj].
  - exists w, (rest ++ b), g. split; [|done].
    rewrite drop_app_add', drop_app_le by done.
    rewrite Hd. by rewrite <- app_assoc.
  - rewrite drop_ge in Hd by lia. symmetry in Hd.
    apply app_eq_nil in Hd as [-> ->].
    by exists [], (drop (length a + j) (a ++ s ++ b)), g.
Qed.

(** ** Dates and their text *)

Lemma digit_value_range c : is_digit c = true → 0 ≤ digit_value c ≤ 9.
Proof. intros H. class_lia. Qed.

Lemma digit_char_of_value c n :
  is_digit c = true → n mod 10 = digit_value c → digit_char n = c.
Proof.
  intros H Hn. unfold digit_char. rewrite Hn.
  rewrite <- (ascii_N_embedding c) at 2. f_equal. fold (code c). class_lia.
Qed.

Lemma digit_char_digit n : is_digit (digit_char n) = true.
Proof.
  unfold digit_char, is_digit, in_range, code.
  pose proof (Z.mod_pos_bound n 10 ltac:(lia)).
  rewrite N_ascii_embedding by lia. lia.
Qed.

Lemma digit_value_char n : digit_value (digit_char n) = n mod 10.
Proof.
  unfold digit_char, digit_value, code.
  pose proof (Z.mod_pos_bound n 10 ltac:(lia)).
  rewrite N_ascii_embedding by lia. lia.
Qed.

Lemma zero_padded_digits s acc :
  Forall (λ c, is_digit c = true) s →
  zero_padded (length s) (digits_value s acc) = s.
Proof.
  induction s as [|c s IH] using rev_ind; [done|].
  intros [Hs Hc%Forall_inv]%Forall_app.
  unfold digits_value in *. rewrite fold_left_app, length_app. simpl.
  rewrite Nat.add_1_r. simpl.
  pose proof (digit_value_range c Hc).
  replace ((10 * fold_left (λ acc c, 10 * acc + digit_value c) s acc + digit_value c) / 10)
    with (fold_left (λ acc c, 10 * acc + digit_value c) s acc)
    by (apply Z.div_unique with (r := digit_value c); lia).
  rewrite IH by done. f_equal. f_equal.
  apply digit_char_of_value; [done|].
  symmetry. apply Z.mod_unique with (q := fold_left (λ acc c, 10 * acc + digit_value c) s acc); lia.
Qed.

Lemma zero_padded_length w n : length (zero_padded w n) = w.
Proof. revert n. induction w as [|w IH]; intros n; simpl; [done|]. rewrite length_app, IH. simpl. lia. Qed.

Lemma zero_padded_all_digits w n : Forall (λ c, is_digit c = true) (zero_padded w n).
Proof.
  revert n. induction w as [|w IH]; intros n; simpl; [constructor|].
  apply Forall_app. split; [apply IH|]. constructor; [apply digit_char_digit|constructor].
Qed.

Lemma zero_padded_value w n :
  0 ≤ n < 10 ^ Z.of_nat w → digits_value (zero_padded w n) 0 = n.
Proof.
  revert n. induction w as [|w IH]; intros n Hn.
  - simpl in *. unfold digits_value. simpl. lia.
  - simpl. unfold digits_value in *. rewrite fold_left_app. simpl.
    rewrite Nat2Z.inj_succ, Z.pow_succ_r in Hn by lia.
    rewrite IH, digit_value_char.
    + pose proof (Z.div_mod n 10 ltac:(lia)). lia.
    + split; [apply Z.div_pos; lia|]. apply Z.div_lt_upper_bound; lia.
Qed.

Lemma int_Ok s : truthy s = true → Forall (λ c, is_digit c = true) s →
  int s = Ok (digits_value s 0).
Proof.
  intros Ht Hs. unfold int. rewrite Ht. simpl.
  rewrite (proj2 (forallb_forall _ _)); [done|].
  intros c Hc. rewrite Forall_forall in Hs. apply Hs. by apply list_elem_of_In.
Qed.

Lemma int_inv s n : int s = Ok n →
  truthy s = true ∧ Forall (λ c, is_digit c = true) s ∧ n = digits_value s 0.
Proof.
  unfold int. destruct (truthy s) eqn:Ht; [|done]. simpl.
  destruct (forallb is_digit s) eqn:Hs; [|done]. intros [= <-].
  split_and!; [done| |done]. rewrite Forall_forall. intros c Hc.
  rewrite forallb_forall in Hs. apply Hs. by apply list_elem_of_In.
Qed.

Lemma datetime_inv y m d dt :
  datetime y m d = Ok dt →
  valid_date y m d = true ∧ dt = {| year := y; month := m; day := d |}.
Proof. unfold datetime. destruct (valid_date y m d); [|done]. by intros [= <-]. Qed.

Lemma valid_date_bounds y m d :
  valid_date y m d = true → 1 ≤ y ≤ 9999 ∧ 1 ≤ m ≤ 12 ∧ 1 ≤ d ≤ 31.
Proof.
  unfold valid_date. rewrite !andb_true_iff, !Z.leb_le.
  intros [[[[[? ?] ?] ?] ?] Hd].
  assert (days_in_month y m ≤ 31); [|lia].
  unfold days_in_month. repeat case_match; lia.
Qed.

Lemma fromisoformat_parts y1 y2 y3 y4 m1 m2 d1 d2 :
  fromisoformat [y1; y2; y3; y4; "-"%char; m1; m2; "-"%char; d1; d2]
  = (y ← int [y1; y2; y3; y4]; m ← int [m1; m2]; d ← int [d1; d2];
     datetime y m d).
Proof. reflexivity. Qed.

(** The text of a date reads back as the date: it has the form [YYYY-MM-DD]. *)
Lemma fromisoformat_isoformat y m d :
  valid_date y m d = true →
  fromisoformat (isoformat {| year := y; month := m; day := d |})
  = Ok {| year := y; month := m; day := d |}.
Proof.
  intros Hv. pose proof (valid_date_bounds _ _ _ Hv) as (Hy & Hm & Hd).
  unfold isoformat. simpl year; simpl month; simpl day.
  pose proof (zero_padded_value 4 y ltac:(simpl; lia)) as Ey.
  pose proof (zero_padded_value 2 m ltac:(simpl; lia)) as Em.
  pose proof (zero_padded_value 2 d ltac:(simpl; lia)) as Ed.
  pose proof (zero_padded_all_digits 4 y) as Ay.
  pose proof (zero_padded_all_digits 2 m) as Am.
  pose proof (zero_padded_all_digits 2 d) as Ad.
  revert Ey Em Ed Ay Am Ad. simpl zero_padded. simpl app.
  intros Ey Em Ed Ay Am Ad.
  change (lit "-") with ["-"%char]. simpl app.
  rewrite fromisoformat_parts, !int_Ok by done.
  rewrite Ey, Em, Ed. simpl. unfold datetime. by rewrite Hv.
Qed.

(** A text that reads as a date is the text of that date. *)
Lemma isoformat_fromisoformat s dt :
  fromisoformat s = Ok dt →
  isoformat dt = s ∧ valid_date (year dt) (month dt) (day dt) = true.
Proof.
  unfold fromisoformat.
  destruct s as [|y1 [|y2 [|y3 [|y4 [|h1 [|m1 [|m2 [|h2 [|d1 [|d2 [|]]]]]]]]]]]; try done.
  destruct (Ascii.eqb_spec h1 "-") as [->|]; [|done].
  destruct (Ascii.eqb_spec h2 "-") as [->|]; [|done]. simpl.
  destruct (int [y1; y2; y3; y4]) as [y|] eqn:Ey; [|done].
  destruct (int [m1; m2]) as [m|] eqn:Em; [|done].
  destruct (int [d1; d2]) as [d|] eqn:Ed; [|done]. simpl.
  intros [Hv ->]%datetime_inv. split; [|done].
  apply int_inv in Ey as (_ & Ay & ->), Em as (_ & Am & ->), Ed as (_ & Ad & ->).
  unfold isoformat. simpl year; simpl month; simpl day.
  pose proof (zero_padded_digits [y1; y2; y3; y4] 0 Ay) as Zy.
  pose proof (zero_padded_digits [m1; m2] 0 Am) as Zm.
  pose proof (zero_padded_digits [d1; d2] 0 Ad) as Zd.
  change (length [y1; y2; y3; y4]) with 4%nat in Zy.
  change (length [m1; m2]) with 2%nat in Zm.
  change (length [d1; d2]) with 2%nat in Zd.
  unfold digits_value in Zy, Zm, Zd. simpl fold_left in Zy, Zm, Zd.
  by rewrite Zy, Zm, Zd.
Qed.

(** ** [normalize_whitespace] *)

Lemma take_length_drop_while p s :
  take (length s - length (drop_while p s)) s = take_while p s.
Proof.
  rewrite <- (take_drop_while p s) at 1 3.
  rewrite length_app.
  replace (length (take_while p s) + length (drop_while p s)
           - length (drop_while p s))%nat
    with (length (take_while p s)) by lia.
  apply take_app_length.
Qed.

(** With no upper bound a repetition takes every character of its class, if
    what follows accepts the rest. *)
Lemma chars_bt_longest {A} cls lo s (k : str → option A) a :
  (lo ≤ length (take_while cls s))%nat →
  k (drop_while cls s) = Some a →
  chars_bt cls lo None s k = Some a.
Proof.
  revert lo. induction s as [|c s IH]; intros lo Hlo Hk; simpl in *.
  - by destruct lo; [|lia].
  - destruct (cls c) eqn:Hc; simpl in *.
    + rewrite (IH (Nat.pred lo)); [done|lia|done].
    + by destruct lo; [|lia].
Qed.

Lemma re_match_whitespace_space b c s :
  is_space c = true →
  re_match_at whitespace_re b (c :: s)
  = Some {| m_before := b; m_group0 := c :: take_while is_space s;
            m_groups := []; m_after := drop_while is_space s |}.
Proof.
  intros Hc. unfold re_match_at, whitespace_re, plus, bt.
  erewrite chars_bt_longest; [|simpl; rewrite Hc; simpl; lia|reflexivity].
  rewrite take_length_drop_while. simpl. by rewrite Hc.
Qed.

Lemma re_match_whitespace_other b c s :
  is_space c = false → re_match_at whitespace_re b (c :: s) = None.
Proof. intros Hc. unfold re_match_at. simpl. by rewrite Hc. Qed.

Lemma drop_while_length p s : (length (drop_while p s) ≤ length s)%nat.
Proof. rewrite <- (take_drop_while p s) at 2. rewrite length_app. lia. Qed.

(** Enough fuel is as good as any. *)
Lemma re_sub_fuel_enough r repl fuel s :
  (length s ≤ fuel)%nat →
  re_sub_fuel fuel r repl s = re_sub r repl s.
Proof.
  unfold re_sub. revert s. induction fuel as [fuel IH] using lt_wf_ind.
  intros s Hs. destruct s as [|c s]; [by destruct fuel|].
  destruct fuel as [|fuel]; [simpl in Hs; lia|].
  change (length (c :: s)) with (S (length s)). simpl in Hs. simpl.
  destruct (re_match_at r [] (c :: s)) as [m|] eqn:Hm.
  - destruct (truthy (m_group0 m)) eqn:Ht.
    + apply re_match_at_Some in Hm as (w & rest & g & Hw & _ & ->).
      simpl in *. destruct w as [|c' w]; [done|].
      simpl in Hw. injection Hw as <- ->.
      assert (length rest ≤ length (w ++ rest))%nat by (rewrite length_app; lia).
      rewrite (IH fuel ltac:(lia) rest ltac:(lia)). f_equal.
      symmetry. apply IH; lia.
    + by rewrite (IH fuel ltac:(lia) s ltac:(lia)).
  - by rewrite (IH fuel ltac:(lia) s ltac:(lia)).
Qed.

Lemma re_sub_whitespace_nil repl : re_sub whitespace_re repl [] = [].
Proof. done. Qed.

Lemma re_sub_whitespace_space repl c s :
  is_space c = true →
  re_sub whitespace_re repl (c :: s)
  = repl ++ re_sub whitespace_re repl (drop_while is_space s).
Proof.
  intros Hc. unfold re_sub at 1. simpl.
  rewrite re_match_whitespace_space by done. simpl.
  by rewrite re_sub_fuel_enough by apply drop_while_length.
Qed.

Lemma re_sub_whitespace_other repl c s :
  is_space c = false →
  re_sub whitespace_re repl (c :: s) = c :: re_sub whitespace_re repl s.
Proof.
  intros Hc. unfold re_sub at 1. simpl.
  by rewrite re_match_whitespace_other.
Qed.


Lemma drop_while_starts s : starts_in_space (drop_while is_space s) = false.
Proof.
  destruct (drop_while is_space s) as [|c rest] eqn:E; [done|].
  simpl. by eapply drop_while_head.
Qed.

Lemma spaced_re_sub s :
  spaced false (re_sub whitespace_re (lit " ") s) = true ∧
  (starts_in_space s = false → spaced true (re_sub whitespace_re (lit " ") s) = true).
Proof.
  remember (length s) as n eqn:Hn. revert s Hn.
  induction n as [n IH] using lt_wf_ind. intros s ->.
  assert (∀ t, (length t < length s)%nat →
    spaced false (re_sub whitespace_re (lit " ") t) = true ∧
    (starts_in_space t = false →
     spaced true (re_sub whitespace_re (lit " ") t) = true)) as IH'
    by (intros t Ht; by eapply IH).
  clear IH. rename IH' into IH.
  destruct s as [|c s]; [done|]. destruct (is_space c) eqn:Hc.
  - rewrite re_sub_whitespace_space by done. simpl. rewrite Hc.
    split; [|done]. change (is_space " ") with true. simpl.
    apply IH; [|apply drop_while_starts].
    simpl. pose proof (drop_while_length is_space s). lia.
  - rewrite re_sub_whitespace_other by done. simpl. rewrite Hc.
    split; [|intros _]; apply IH; simpl; lia.
Qed.

Lemma spaced_weaken b s : spaced b s = true → spaced false s = true.
Proof. destruct s as [|c s]; [done|]. simpl. destruct (is_space c), b; naive_solver. Qed.

Lemma spaced_true_starts s : spaced true s = true → starts_in_space s = false.
Proof. destruct s as [|c s]; [done|]. simpl. by destruct (is_space c). Qed.

Lemma spaced_lstrip s : spaced false s = true → spaced true (lstrip s) = true.
Proof.
  destruct s as [|c s]; [done|]. unfold lstrip. simpl.
  destruct (is_space c) eqn:Hc; simpl; [|by rewrite Hc].
  rewrite andb_true_iff. intros [_ Hs].
  rewrite drop_while_id; [done|]. intros c' rest ->.
  by apply spaced_true_starts in Hs.
Qed.

Lemma drop_while_app p a b :
  drop_while p (a ++ b)
  = if forallb p a then drop_while p b else drop_while p a ++ b.
Proof.
  induction a as [|c a IH]; [done|]. simpl. by destruct (p c).
Qed.

Lemma forallb_rev {X} (p : X → bool) l : forallb p (rev l) = forallb p l.
Proof.
  induction l as [|x l IH]; [done|]. simpl.
  rewrite forallb_app, IH. simpl. destruct (p x), (forallb p l); done.
Qed.

Lemma rstrip_cons c s :
  rstrip (c :: s)
  = if forallb is_space s && is_space c then [] else c :: rstrip s.
Proof.
  unfold rstrip, lstrip. change (rev (c :: s)) with (rev s ++ [c]).
  rewrite drop_while_app, forallb_rev.
  destruct (forallb is_space s) eqn:Hs; simpl.
  - rewrite drop_while_all.
    + by destruct (is_space c).
    + rewrite Forall_forall. intros x Hx%list_elem_of_In%in_rev.
      rewrite forallb_forall in Hs. by apply Hs.
  - rewrite rev_app_distr. done.
Qed.

Lemma spaced_rstrip b s : spaced b s = true → spaced b (rstrip s) = true.
Proof.
  revert b. induction s as [|c s IH]; intros b; [done|].
  rewrite rstrip_cons. destruct (forallb is_space s && is_space c); [done|].
  simpl. destruct (is_space c).
  - rewrite !andb_true_iff. intros [? ?]. split; [done|]. by apply IH.
  - apply IH.
Qed.

Lemma last_rev {X} (l : list X) : last (rev l) = head l.
Proof. destruct l as [|x l]; [done|]. simpl. apply last_snoc. Qed.

Lemma ends_in_space_rstrip s : ends_in_space (rstrip s) = false.
Proof.
  unfold ends_in_space, rstrip, lstrip. rewrite last_rev.
  destruct (drop_while is_space (rev s)) as [|c rest] eqn:E; [done|].
  simpl. by eapply drop_while_head.
Qed.

(** The result of [normalize_whitespace]: every whitespace character is one
    space between two characters that are no whitespace. *)
Lemma normalize_whitespace_spaced text :
  spaced true (normalize_whitespace text) = true ∧
  ends_in_space (normalize_whitespace text) = false.
Proof.
  unfold normalize_whitespace, strip. split.
  - apply spaced_rstrip, spaced_lstrip, spaced_re_sub.
  - apply ends_in_space_rstrip.
Qed.

Lemma spaced_no_double b s a c1 c2 t :
  spaced b s = true → s = a ++ c1 :: c2 :: t →
  ¬ (is_space c1 = true ∧ is_space c2 = true).
Proof.
  revert b s. induction a as [|c a IH]; intros b s Hs -> [H1 H2]; simpl in Hs.
  - rewrite H1, H2 in Hs. simpl in Hs. by rewrite andb_false_r in Hs.
  - destruct (is_space c).
    + apply andb_true_iff in Hs as [_ Hs]. by eapply IH.
    + by eapply IH.
Qed.

Lemma re_sub_spaced b s :
  spaced b s = true → re_sub whitespace_re (lit " ") s = s.
Proof.
  revert b. induction s as [|c s IH]; intros b; [done|]. simpl spaced.
  destruct (is_space c) eqn:Hc.
  - rewrite !andb_true_iff. intros [[_ ->%Ascii.eqb_eq] Hs].
    rewrite re_sub_whitespace_space by done.
    rewrite drop_while_id.
    + by rewrite (IH true).
    + intros c' rest ->. by apply spaced_true_starts in Hs.
  - intros Hs. rewrite re_sub_whitespace_other by done. by rewrite (IH false).
Qed.

Lemma rstrip_id s : ends_in_space s = false → rstrip s = s.
Proof.
  unfold ends_in_space, rstrip, lstrip. rewrite <- (rev_involutive s) at 1.
  rewrite last_rev. intros H. rewrite drop_while_id; [apply rev_involutive|].
  intros c rest E. by rewrite E in H.
Qed.

(** [normalize_whitespace] leaves such a text as it is. *)
Lemma normalize_whitespace_fixed s :
  spaced true s = true → ends_in_space s = false → normalize_whitespace s = s.
Proof.
  intros Hs He. unfold normalize_whitespace, strip.
  rewrite (re_sub_spaced true) by done.
  unfold lstrip. rewrite drop_while_id.
  - by apply rstrip_id.
  - intros c rest ->. by apply spaced_true_starts in Hs.
Qed.

Lemma normalize_whitespace_idempotent text :
  normalize_whitespace (normalize_whitespace text) = normalize_whitespace text.
Proof. apply normalize_whitespace_fixed; apply normalize_whitespace_spaced. Qed.

Lemma normalize_whitespace_blank s :
  Forall (λ c, is_space c = true) s → normalize_whitespace s = [].
Proof.
  intros Hs. unfold normalize_whitespace. destruct Hs as [|c s Hc Hs]; [done|].
  rewrite re_sub_whitespace_space by done.
  by rewrite drop_while_all.
Qed.

(** ** Reading the patterns *)

Lemma matches_chars_inv cls lo hi w g :
  matches (Chars cls lo hi) w g →
  g = [] ∧ Forall (λ c, cls c = true) w ∧ (lo ≤ length w)%nat ∧
  ∀ n, hi = Some n → (length w ≤ n)%nat.
Proof. by inversion 1. Qed.

Lemma matches_seq_inv r1 r2 w g :
  matches (r1 +++ r2) w g →
  ∃ w1 w2 g1 g2, w = w1 ++ w2 ∧ g = g1 ++ g2 ∧ matches r1 w1 g1 ∧ matches r2 w2 g2.
Proof. inversion 1; subst. by eexists _, _, _, _. Qed.

Lemma matches_group_inv r w g :
  matches (Group r) w g → ∃ g', g = g' ++ [w] ∧ matches r w g'.
Proof. inversion 1; subst. by eexists. Qed.

Lemma matches_times_inv cls n w g :
  matches (times cls n) w g →
  g = [] ∧ Forall (λ c, cls c = true) w ∧ length w = n.
Proof.
  intros (-> & Hw & Hlo & Hhi)%matches_chars_inv.
  specialize (Hhi _ eq_refl). split_and!; [done..|lia].
Qed.

Lemma matches_chr_inv c w g : matches (chr c) w g → g = [] ∧ w = [c].
Proof.
  intros (-> & Hw & Hlen)%matches_times_inv. split; [done|].
  destruct w as [|c' [|]]; try done.
  apply Forall_inv in Hw. by apply Ascii.eqb_eq in Hw as ->.
Qed.

Lemma matches_times cls n w :
  Forall (λ c, cls c = true) w → length w = n → matches (times cls n) w [].
Proof. intros. constructor; [done|lia|]. intros ? [= <-]. lia. Qed.

Lemma matches_chr c : matches (chr c) [c] [].
Proof. apply matches_times; [|done]. constructor; [apply Ascii.eqb_refl|constructor]. Qed.

Lemma matches_plus cls w :
  Forall (λ c, cls c = true) w → w ≠ [] → matches (plus cls) w [].
Proof. intros ? ?. constructor; [done|destruct w; [done|simpl; lia]|done]. Qed.

Lemma matches_plus_inv cls w g :
  matches (plus cls) w g → g = [] ∧ Forall (λ c, cls c = true) w ∧ w ≠ [].
Proof.
  intros (-> & Hw & Hlo & _)%matches_chars_inv. split_and!; [done..|].
  intros ->. simpl in Hlo. lia.
Qed.


Ltac list_of_length :=
  repeat match goal with
  | H : length ?w = _ |- _ =>
      destruct w; simpl in H; [try discriminate H|try discriminate H; apply eq_add_S in H]
  | H : 0%nat = 0%nat |- _ => clear H
  end.

Lemma matches_iso_date_inv w g :
  matches iso_date_re w g → g = [w] ∧ iso_shaped w.
Proof.
  intros (g' & -> & H)%matches_group_inv.
  apply matches_seq_inv in H as (wy & w1 & gy & g1 & -> & -> & Hy & H).
  apply matches_seq_inv in H as (h1 & w2 & gh1 & g2 & -> & -> & Hh1 & H).
  apply matches_seq_inv in H as (wm & w3 & gm & g3 & -> & -> & Hm & H).
  apply matches_seq_inv in H as (h2 & wd & gh2 & gd & -> & -> & Hh2 & Hd).
  apply matches_times_inv in Hy as (-> & Ay & Ly), Hm as (-> & Am & Lm),
    Hd as (-> & Ad & Ld).
  apply matches_chr_inv in Hh1 as [-> ->], Hh2 as [-> ->].
  split; [done|]. list_of_length. simpl.
  eexists _, _, _, _, _, _, _, _. split; [done|].
  repeat match goal with H : Forall _ (_ :: _) |- _ => apply Forall_cons in H as [? H] end.
  repeat constructor; done.
Qed.

Lemma iso_shaped_matches w : iso_shaped w → matches iso_date_re w [w].
Proof.
  intros (y1 & y2 & y3 & y4 & m1 & m2 & d1 & d2 & -> & H).
  repeat match goal with H : Forall _ (_ :: _) |- _ => apply Forall_cons in H as [? H] end.
  apply (matches_group _ _ []).
  apply (matches_seq _ _ [y1; y2; y3; y4] _ [] []);
    [apply matches_times; [by repeat constructor|done]|].
  apply (matches_seq _ _ ["-"%char] _ [] []); [apply matches_chr|].
  apply (matches_seq _ _ [m1; m2] _ [] []);
    [apply matches_times; [by repeat constructor|done]|].
  apply (matches_seq _ _ ["-"%char] _ [] []); [apply matches_chr|].
  apply matches_times; [by repeat constructor|done].
Qed.

Lemma fromisoformat_shaped s dt : fromisoformat s = Ok dt → iso_shaped s.
Proof.
  unfold fromisoformat.
  destruct s as [|y1 [|y2 [|y3 [|y4 [|h1 [|m1 [|m2 [|h2 [|d1 [|d2 [|]]]]]]]]]]]; try done.
  destruct (Ascii.eqb_spec h1 "-") as [->|]; [|done].
  destruct (Ascii.eqb_spec h2 "-") as [->|]; [|done]. simpl.
  destruct (int [y1; y2; y3; y4]) as [y|] eqn:Ey; [|done].
  destruct (int [m1; m2]) as [m|] eqn:Em; [|done].
  destruct (int [d1; d2]) as [d|] eqn:Ed; [|done]. intros _.
  apply int_inv in Ey as (_ & Ay & _), Em as (_ & Am & _), Ed as (_ & Ad & _).
  eexists _, _, _, _, _, _, _, _. split; [done|].
  repeat match goal with H : Forall _ (_ :: _) |- _ => apply Forall_cons in H as [? H] end.
  repeat constructor; done.
Qed.

Lemma iso_shaped_length w : iso_shaped w → length w = 10%nat.
Proof. by intros (? & ? & ? & ? & ? & ? & ? & ? & -> & _). Qed.

(** ** Leftmost matches *)

Lemma leftmost_unique r s i j : leftmost r s i → leftmost r s j → i = j.
Proof.
  intros (_ & Hi & Li) (_ & Hj & Lj).
  destruct (Nat.lt_trichotomy i j) as [?|[?|?]]; [|done|].
  - by destruct (Lj i).
  - by destruct (Li j).
Qed.

Lemma re_search_leftmost r s i :
  leftmost r s i →
  ∃ m, re_search r s = Some m ∧ length (m_before m) = i ∧
       s = m_before m ++ m_group0 m ++ m_after m ∧
       matches r (m_group0 m) (m_groups m).
Proof.
  intros Hi. destruct (re_search_is_Some r s i) as [m Hm]; [apply Hi|].
  exists m. apply re_search_Some in Hm as Hm'. destruct Hm' as (Hs & Hw & Hl).
  split_and!; [done| |done..]. by eapply leftmost_unique.
Qed.

(** A leftmost match of a text is the leftmost match of the stripped text
    when it neither starts nor ends in whitespace. *)
Lemma leftmost_strip r pre x mid y post :
  is_space x = false → is_space y = false →
  (∃ g, matches r (x :: mid ++ [y]) g) →
  (∀ j, (j < length pre)%nat → ¬ occurs_at r (pre ++ (x :: mid ++ [y]) ++ post) j) →
  leftmost r (strip (pre ++ (x :: mid ++ [y]) ++ post)) (length (lstrip pre)).
Proof.
  intros Hx Hy [g Hg] Hleft. rewrite strip_around by done.
  split_and!.
  - rewrite length_app. lia.
  - exists (x :: mid ++ [y]), (rstrip post), g. by rewrite drop_app_length.
  - intros j Hj Hocc.
    destruct (rstrip_trailing post) as (t & Hpost & _).
    apply (occurs_at_embed _ _ (take_while is_space pre) t) in Hocc.
    apply (Hleft (length (take_while is_space pre) + j)%nat).
    + pose proof (f_equal length (take_drop_while is_space pre)) as E.
      rewrite length_app in E. unfold lstrip in Hj. lia.
    + replace (pre ++ (x :: mid ++ [y]) ++ post)
        with (take_while is_space pre
              ++ (lstrip pre ++ (x :: mid ++ [y]) ++ rstrip post) ++ t); [done|].
      transitivity ((take_while is_space pre ++ drop_while is_space pre)
                    ++ (x :: mid ++ [y]) ++ (rstrip post ++ t)).
      * unfold lstrip. by rewrite <- !app_assoc.
      * by rewrite take_drop_while, <- Hpost.
Qed.

(** ** The date strategies *)

Lemma parse_group1_inv m o :
  parse_group1 m = Ok o →
  ∃ g dt, group m 1 = Ok g ∧ fromisoformat g = Ok dt ∧ o = Some (isoformat dt).
Proof.
  unfold parse_group1. destruct (group m 1) as [g|]; [|done]. simpl.
  destruct (fromisoformat g) as [dt|] eqn:E; [|done]. intros [= <-].
  by exists g, dt.
Qed.


Lemma fromisoformat_date_text g dt :
  fromisoformat g = Ok dt → date_text (isoformat dt).
Proof.
  intros [_ Hv]%isoformat_fromisoformat. destruct dt as [y m d].
  by exists y, m, d.
Qed.

Lemma try_parse_iso_Ok date_text0 :
  ∃ o, try_parse_iso date_text0 = Ok o ∧ ∀ v, o = Some v → date_text v.
Proof.
  unfold try_parse_iso.
  set (second := match re_search iso_datetime_re (strip date_text0) with
                 | Some m => try_except (parse_group1 m) (λ _, Ok None)
                 | None => Ok None
                 end).
  assert (∃ o, second = Ok o ∧ ∀ v, o = Some v → date_text v) as Hsecond.
  { subst second. destruct (re_search iso_datetime_re _) as [m|]; [|by exists None].
    destruct (parse_group1 m) as [o|] eqn:E; simpl; [|by exists None].
    exists o. split; [done|].
    apply parse_group1_inv in E as (g & dt & _ & Hdt & ->).
    intros v [= <-]. by eapply fromisoformat_date_text. }
  destruct (re_search iso_date_re _) as [m|]; [|done].
  destruct (parse_group1 m) as [o|] eqn:E; simpl; [|done].
  exists o. split; [done|].
  apply parse_group1_inv in E as (g & dt & _ & Hdt & ->).
  intros v [= <-]. by eapply fromisoformat_date_text.
Qed.


Lemma matches_groups_count r w g : matches r w g → length g = groups_count r.
Proof.
  induction 1; simpl; [done|..]; rewrite length_app; simpl; lia.
Qed.

Lemma try_parse_swedish_Ok date_text0 :
  ∃ o, try_parse_swedish date_text0 = Ok o ∧ ∀ v, o = Some v → date_text v.
Proof.
  unfold try_parse_swedish.
  destruct (re_search swedish_re _) as [m|] eqn:Hm; [|by exists None].
  apply re_search_Some in Hm as (_ & Hg%matches_groups_count & _).
  destruct (m_groups m) as [|d [|mn [|y [|]]]]; try done.
  destruct (dict_get SWEDISH_MONTHS mn) as [mo|]; [|by exists None].
  destruct (mo =? 0); [by exists None|].
  destruct (int y) as [yv|]; simpl; [|by exists None].
  destruct (int d) as [dv|]; simpl; [|by exists None].
  destruct (datetime yv mo dv) as [dt|] eqn:E; simpl; [|by exists None].
  eexists. split; [done|]. intros v [= <-].
  apply datetime_inv in E as [Hv ->]. by exists yv, mo, dv.
Qed.

Lemma date_text_truthy v : date_text v → truthy v = true.
Proof.
  intros (y & m & d & _ & ->). unfold isoformat.
  by destruct (zero_padded 4 _ ++ _) eqn:E; [destruct (zero_padded 4 _) eqn:E'|].
Qed.

(** [normalize_date] raises nothing, and what it returns is the text of a
    date of the calendar. *)
Lemma normalize_date_Ok text :
  ∃ o, normalize_date text = Ok o ∧ ∀ v, o = Some v → date_text v.
Proof.
  unfold normalize_date. destruct (truthy text); simpl; [|by exists None].
  destruct (try_parse_iso_Ok text) as (o1 & -> & H1).
  destruct (try_parse_swedish_Ok text) as (o2 & E2 & H2). simpl.
  destruct o1 as [v1|].
  - rewrite (date_text_truthy v1) by by apply H1. by exists (Some v1).
  - rewrite E2. simpl. destruct o2 as [v2|]; [|by exists None].
    rewrite (date_text_truthy v2) by by apply H2. by exists (Some v2).
Qed.

Lemma normalize_date_iso text pre d post dt :
  text = pre ++ d ++ post →
  fromisoformat d = Ok dt →
  (∀ j, (j < length pre)%nat → ¬ occurs_at iso_date_re text j) →
  normalize_date text = Ok (Some d).
Proof.
  intros -> Hd Hleft.
  pose proof (fromisoformat_shaped _ _ Hd) as Hshape.
  pose proof (iso_shaped_matches _ Hshape) as Hmatch.
  destruct Hshape as (y1 & y2 & y3 & y4 & m1 & m2 & d1 & d2 & -> & Hdig).
  assert (is_space y1 = false ∧ is_space d2 = false) as [Hx Hy].
  { repeat match goal with H : Forall _ (_ :: _) |- _ => apply Forall_cons in H as [? H] end.
    split; by apply digit_not_space. }
  set (d := [y1; y2; y3; y4; "-"%char; m1; m2; "-"%char; d1; d2]) in *.
  assert (d = y1 :: [y2; y3; y4; "-"%char; m1; m2; "-"%char; d1] ++ [d2]) as Ed by done.
  assert (strip (pre ++ d ++ post) = lstrip pre ++ d ++ rstrip post) as Hstrip.
  { rewrite Ed. by apply strip_around. }
  assert (leftmost iso_date_re (strip (pre ++ d ++ post)) (length (lstrip pre))) as HL.
  { rewrite Ed. apply leftmost_strip; [done..|by exists [d]; rewrite <- Ed|by rewrite <- Ed]. }
  apply re_search_leftmost in HL as (m & Hm & Hlen & Hs & Hw).
  rewrite Hstrip in Hs. apply app_inj_1 in Hs as [_ Hs]; [|done].
  apply matches_iso_date_inv in Hw as [Hg Hw%iso_shaped_length].
  apply app_inj_1 in Hs as [Hg0 _]; [|by rewrite Hw].
  assert (parse_group1 m = Ok (Some d)) as Hp.
  { unfold parse_group1, group. rewrite Hg. simpl. rewrite <- Hg0, Hd. simpl.
    by apply isoformat_fromisoformat in Hd as [-> _]. }
  assert (try_parse_iso (pre ++ d ++ post) = Ok (Some d)) as Hiso.
  { unfold try_parse_iso. by rewrite Hm, Hp. }
  unfold normalize_date.
  replace (truthy (pre ++ d ++ post)) with true by by destruct pre.
  cbn [negb first_parsed]. by rewrite Hiso.
Qed.

(** ** The Swedish form *)

Lemma matches_swedish_inv w g :
  matches swedish_re w g →
  ∃ D W1 M W2 Y, w = D ++ W1 ++ M ++ W2 ++ Y ∧ g = [D; M; Y] ∧
    all is_digit D ∧ D ≠ [] ∧ all is_space W1 ∧ W1 ≠ [] ∧
    all is_swedish_lower M ∧ M ≠ [] ∧ all is_space W2 ∧ W2 ≠ [] ∧
    all is_digit Y ∧ length Y = 4%nat.
Proof.
  intros H.
  apply matches_seq_inv in H as (D & w1 & gD & g1 & -> & -> & HD & H).
  apply matches_seq_inv in H as (W1 & w2 & gW1 & g2 & -> & -> & HW1 & H).
  apply matches_seq_inv in H as (M & w3 & gM & g3 & -> & -> & HM & H).
  apply matches_seq_inv in H as (W2 & Y & gW2 & gY & -> & -> & HW2 & HY).
  apply matches_group_inv in HD as (g & -> & HD), HM as (g' & -> & HM),
    HY as (g'' & -> & HY).
  apply matches_chars_inv in HD as (-> & AD & LD & _).
  apply matches_plus_inv in HW1 as (-> & AW1 & NW1), HM as (-> & AM & NM),
    HW2 as (-> & AW2 & NW2).
  apply matches_times_inv in HY as (-> & AY & LY).
  exists D, W1, M, W2, Y. split_and!; try done.
  intros ->. simpl in LD. lia.
Qed.


Lemma class_prefix_unique cls a a' x x' :
  all cls a → all cls a' → a ++ x = a' ++ x' →
  head_not cls x → head_not cls x' → a = a' ∧ x = x'.
Proof.
  intros Ha. revert a'. induction Ha as [|c a Hc Ha IH]; intros a' Ha' E Hx Hx'.
  - destruct Ha' as [|c' a' Hc' _]; [done|]. simpl in E.
    by rewrite (Hx _ _ E) in Hc'.
  - destruct Ha' as [|c' a' Hc' Ha']; simpl in E.
    + symmetry in E. by rewrite (Hx' _ _ E) in Hc.
    + injection E as <- E. by destruct (IH a' Ha' E Hx Hx') as [-> ->].
Qed.

Lemma head_not_app cls cls' w rest :
  (∀ c, cls' c = true → cls c = false) → all cls' w → w ≠ [] →
  head_not cls (w ++ rest).
Proof.
  intros Hcls Hw Hne c t E. destruct Hw as [|c' w Hc' _]; [done|].
  simpl in E. injection E as -> _. by apply Hcls.
Qed.

(** The pattern reads a text that starts with day, month word and year in
    one way only. *)
Lemma swedish_match_unique w g tail D W1 M W2 Y post :
  matches swedish_re w g →
  w ++ tail = D ++ W1 ++ M ++ W2 ++ Y ++ post →
  all is_digit D → all is_space W1 → W1 ≠ [] →
  all is_swedish_lower M → M ≠ [] → all is_space W2 → W2 ≠ [] →
  length Y = 4%nat →
  all is_digit Y →
  g = [D; M; Y].
Proof.
  intros (D' & W1' & M' & W2' & Y' & -> & -> & AD' & _ & AW1' & NW1' & AM' & NM'
          & AW2' & NW2' & AY' & LY')%matches_swedish_inv
    E AD AW1 NW1 AM NM AW2 NW2 LY AY.
  rewrite <- !app_assoc in E.
  apply (class_prefix_unique is_digit) in E as [-> E]; [|done..| |];
    [|by eapply head_not_app; [apply space_not_digit|..]..].
  apply (class_prefix_unique is_space) in E as [-> E]; [|done..| |];
    [|by eapply head_not_app; [apply letter_not_space|..]..].
  apply (class_prefix_unique is_swedish_lower) in E as [-> E]; [|done..| |];
    [|by eapply head_not_app; [apply space_not_letter|..]..].
  apply (class_prefix_unique is_space) in E as [-> E]; [|done..| |].
  - apply app_inj_1 in E as [-> _]; [done|lia].
  - eapply (head_not_app _ is_digit); [apply digit_not_space|done|].
    by destruct Y'.
  - eapply (head_not_app _ is_digit); [apply digit_not_space|done|].
    by destruct Y.
Qed.

Lemma swedish_matches D W1 M W2 Y :
  all is_digit D → (1 ≤ length D ≤ 2)%nat → all is_space W1 → W1 ≠ [] →
  all is_swedish_lower M → M ≠ [] → all is_space W2 → W2 ≠ [] →
  all is_digit Y → length Y = 4%nat →
  matches swedish_re (D ++ W1 ++ M ++ W2 ++ Y) [D; M; Y].
Proof.
  intros AD LD AW1 NW1 AM NM AW2 NW2 AY LY.
  apply (matches_seq _ _ D _ [D] [M; Y]).
  { apply (matches_group _ _ []). constructor; [done|lia|]. intros ? [= <-]. lia. }
  apply (matches_seq _ _ W1 _ [] [M; Y]); [by apply matches_plus|].
  apply (matches_seq _ _ M _ [M] [Y]).
  { apply (matches_group _ _ []). by apply matches_plus. }
  apply (matches_seq _ _ W2 _ [] [Y]); [by apply matches_plus|].
  apply (matches_group _ _ []). by apply matches_times.
Qed.

Lemma month_name M mo :
  dict_get SWEDISH_MONTHS M = Some mo →
  all is_swedish_lower M ∧ M ≠ [] ∧ 1 ≤ mo ≤ 12.
Proof.
  unfold SWEDISH_MONTHS. cbn [dict_get].
  repeat (case_bool_decide;
          [subst M; intros [= <-];
           split_and!; [by repeat constructor|done|lia|lia]|]).
  done.
Qed.

Lemma lower_app a b : lower (a ++ b) = lower a ++ lower b.
Proof. apply map_app. Qed.

(** The Swedish strategy on a text whose leftmost day-word-year match is a
    day, a month name of the table and a year. *)
Lemma try_parse_swedish_month text pre D W1 M W2 Y post mo :
  lower text = pre ++ D ++ W1 ++ M ++ W2 ++ Y ++ post →
  all is_digit D → (1 ≤ length D ≤ 2)%nat →
  all is_space W1 → W1 ≠ [] → all is_space W2 → W2 ≠ [] →
  all is_digit Y → length Y = 4%nat →
  dict_get SWEDISH_MONTHS M = Some mo →
  (∀ j, (j < length pre)%nat → ¬ occurs_at swedish_re (lower text) j) →
  try_parse_swedish text
  = Ok (match datetime (digits_value Y 0) mo (digits_value D 0) with
        | Ok dt => Some (isoformat dt)
        | Raise _ => None
        end).
Proof.
  intros Htext AD LD AW1 NW1 AW2 NW2 AY LY HM Hleft.
  destruct (month_name _ _ HM) as (AM & NM & Hmo).
  assert (leftmost swedish_re (lower text) (length pre)) as HL.
  { split_and!; [rewrite Htext, length_app; lia| |done].
    exists (D ++ W1 ++ M ++ W2 ++ Y), post, [D; M; Y]. split.
    - by rewrite Htext, drop_app_length, <- !app_assoc.
    - by apply swedish_matches. }
  apply re_search_leftmost in HL as (m & Hm & Hlen & Hs & Hw).
  rewrite Htext in Hs. apply app_inj_1 in Hs as [_ Hs]; [|done].
  symmetry in Hs.
  pose proof (swedish_match_unique _ _ _ _ _ _ _ _ _ Hw Hs AD AW1 NW1 AM NM
                AW2 NW2 LY AY) as Hg.
  unfold try_parse_swedish. rewrite Hm, Hg, HM.
  replace (mo =? 0) with false by lia.
  rewrite (int_Ok Y); [|by destruct Y|done].
  rewrite (int_Ok D); [|by destruct D; [simpl in LD; lia|]|done].
  simpl. by destruct (datetime _ _ _).
Qed.

(** ** [clean_text] *)

Section clean_text.
Context `{parser : HtmlParser}.

Lemma clean_text_spaced x :
  spaced true (clean_text x) = true ∧ ends_in_space (clean_text x) = false.
Proof. apply normalize_whitespace_spaced. Qed.

Lemma clean_text_fixed x :
  parses_plain_text parser → plain_text x →
  spaced true x = true → ends_in_space x = false →
  clean_text x = x.
Proof.
  intros Hp Hx Hs He. unfold clean_text. rewrite Hp by done.
  by apply normalize_whitespace_fixed.
Qed.

End clean_text.

(** ** The reference parser reads plain text as character data *)

Lemma tokenize_plain_text fuel acc t :
  plain_text t → (length t ≤ fuel)%nat →
  tokenize fuel acc t = flush (rev t ++ acc) [].
Proof.
  revert acc t. induction fuel as [|fuel IH]; intros acc t Ht Hlen.
  - by destruct t; [|simpl in Hlen; lia].
  - destruct Ht as [|c t [Hlt Hamp] Ht]; [done|]. simpl.
    destruct (Ascii.eqb_spec c "<"); [done|].
    destruct (Ascii.eqb_spec c "&"); [done|].
    rewrite IH; [|done|simpl in Hlen; lia].
    by rewrite <- app_assoc.
Qed.

Lemma ascii_space_is_space c : is_ascii_space c = true → is_space c = true.
Proof.
  unfold is_ascii_space. rewrite bool_decide_eq_true, !elem_of_cons, elem_of_nil.
  intros [->|[->|[->|[->|[->|[]]]]]]; done.
Qed.

Lemma html_parser_parses_plain_text : parses_plain_text html_parser.
Proof.
  intros t Ht. unfold BeautifulSoup, html_parser.
  rewrite tokenize_plain_text, app_nil_r by done.
  destruct t as [|c t]; [done|].
  assert (flush (rev (c :: t)) [] = [TData (c :: t)]) as ->.
  { unfold flush. rewrite <- (rev_involutive (c :: t)) at 2.
    by destruct (rev (c :: t)) eqn:E; [apply (f_equal (@rev _)) in E;
      rewrite rev_involutive in E|]. }
  cbn [build collapse].
  set (d := data_string _ (c :: t)).
  change (normalize_whitespace d = normalize_whitespace (c :: t)).
  subst d. unfold data_string.
  destruct (forallb is_ascii_space (c :: t)) eqn:Hall; [|done].
  cbn [andb]. 
  replace (negb _) with true by done.
  rewrite (normalize_whitespace_blank (c :: t)).
  - by case_bool_decide.
  - rewrite Forall_forall. intros x Hx%list_elem_of_In.
    rewrite forallb_forall in Hall. by apply ascii_space_is_space, Hall.
Qed.

Example clean_text_decodes :
  @clean_text html_parser (lit "&lt;b&gt;hi&lt;/b&gt;") = lit "<b>hi</b>" ∧
  @clean_text html_parser (lit "<b>hi</b>") = lit "hi".
Proof. by vm_compute. Qed.

Section listing.
Context `{parser : HtmlParser}.

Lemma main_items_loop_spec anchors items seen max_items :
  main_items_loop anchors items seen max_items
  = items ++ take (Z.to_nat (Z.max 1 (max_items - Z.of_nat (length items))))
                  (first_by_url seen (omap candidate anchors)).
Proof.
  revert items seen. induction anchors as [|a rest IH]; intros items seen.
  { simpl. by rewrite take_nil, app_nil_r. }
  cbn [main_items_loop omap list_omap].
  remember (candidate a) as ca eqn:Hca. unfold candidate in Hca.
  destruct (get (el_node a) (lit "href")) as [href|];
    cbn [mbind option_bind] in Hca; [|subst ca; apply IH].
  destruct (truthy href); cbn [negb] in *; [|subst ca; apply IH].
  case_bool_decide as Hseen.
  { rewrite IH. destruct (truthy (title_of a (find_container 3 a)));
      cbn [negb] in Hca; subst ca; [|done].
    cbn [first_by_url item_url]. by rewrite bool_decide_true. }
  destruct (truthy (title_of a (find_container 3 a))); cbn [negb] in *;
    subst ca; [|apply IH].
  cbn [first_by_url item_url]. rewrite bool_decide_false by done.
  rewrite length_app. cbn [length].
  destruct (Z.geb_spec (Z.of_nat (length items + 1)) max_items) as [Hfull|Hroom].
  - replace (Z.to_nat (Z.max 1 (max_items - Z.of_nat (length items)))) with 1%nat by lia.
    done.
  - rewrite IH, length_app. cbn [length]. rewrite <- app_assoc. f_equal.
    replace (Z.to_nat (Z.max 1 (max_items - Z.of_nat (length items))))
      with (S (Z.to_nat (Z.max 1 (max_items - Z.of_nat (length items + 1))))) by lia.
    done.
Qed.

(** What [extract_main_items] returns: the first candidate of every URL, cut
    at the cap (at one item when the cap is below one). *)
Lemma extract_main_items_spec soup max_items :
  extract_main_items soup max_items
  = take (Z.to_nat (Z.max 1 max_items))
         (first_by_url ∅ (omap candidate (select soup))).
Proof.
  unfold extract_main_items. rewrite main_items_loop_spec. simpl.
  by rewrite Z.sub_0_r.
Qed.

End listing.

Lemma first_by_url_fresh seen items it :
  it ∈ first_by_url seen items → item_url it ∉ seen.
Proof.
  revert seen. induction items as [|x items IH]; intros seen; simpl; [by intros ?%elem_of_nil|].
  case_bool_decide as Hx; [apply IH|].
  intros [->|Hin]%elem_of_cons; [done|].
  apply IH in Hin. set_solver.
Qed.

Lemma first_by_url_NoDup seen items :
  NoDup (map item_url (first_by_url seen items)).
Proof.
  revert seen. induction items as [|x items IH]; intros seen; simpl; [constructor|].
  case_bool_decide as Hx; [apply IH|]. simpl. constructor; [|apply IH].
  intros (it & E & Hin%first_by_url_fresh)%list_elem_of_fmap. set_solver.
Qed.

Lemma first_by_url_first seen items it :
  it ∈ first_by_url seen items →
  ∃ before after, items = before ++ it :: after ∧
    ∀ it', it' ∈ before → item_url it' ≠ item_url it.
Proof.
  revert seen. induction items as [|x items IH]; intros seen; simpl; [by intros ?%elem_of_nil|].
  case_bool_decide as Hx.
  - intros Hin. pose proof (first_by_url_fresh _ _ _ Hin) as Hfresh.
    apply IH in Hin as (before & after & -> & Hb).
    exists (x :: before), after. split; [done|].
    intros it' [->|?]%elem_of_cons; [congruence|by apply Hb].
  - intros [->|Hin]%elem_of_cons.
    + exists [], items. split; [done|]. by intros ? ?%elem_of_nil.
    + pose proof (first_by_url_fresh _ _ _ Hin) as Hfresh.
      apply IH in Hin as (before & after & -> & Hb).
      exists (x :: before), after. split; [done|].
      intros it' [->|?]%elem_of_cons; [set_solver|by apply Hb].
Qed.

Lemma omap_app_cons_inv {X Y} (f : X → option Y) l before y after :
  omap f l = before ++ y :: after →
  ∃ lb x la, l = lb ++ x :: la ∧ f x = Some y ∧ omap f lb = before.
Proof.
  revert before. induction l as [|x l IH]; intros before; simpl.
  { by destruct before. }
  destruct (f x) as [y'|] eqn:E.
  - destruct before as [|b before]; simpl.
    + intros [= -> _]. by exists [], x, l.
    + intros [= -> (lb & x' & la & -> & Hx' & <-)%IH].
      exists (x :: lb), x', la. split_and!; [done..|]. simpl. by rewrite E.
  - intros (lb & x' & la & -> & Hx' & <-)%IH.
    exists (x :: lb), x', la. split_and!; [done..|]. simpl. by rewrite E.
Qed.


Lemma NoDup_take {X} (l : list X) n : NoDup l → NoDup (take n l).
Proof. intros H. eapply sublist_NoDup; [done|apply sublist_take]. Qed.

Section listing_results.
Context `{parser : HtmlParser}.

Lemma extract_main_items_props soup max_items :
  (1 ≤ max_items → Z.of_nat (length (extract_main_items soup max_items)) ≤ max_items) ∧
  NoDup (map item_url (extract_main_items soup max_items)) ∧
  ∀ it, it ∈ extract_main_items soup max_items →
    ∃ before a after,
      select soup = before ++ a :: after ∧ candidate a = Some it ∧
      ∀ b it', b ∈ before → candidate b = Some it' → item_url it' ≠ item_url it.
Proof.
  rewrite extract_main_items_spec. split_and!.
  - intros Hcap. rewrite length_take. lia.
  - rewrite <- firstn_map. apply NoDup_take, first_by_url_NoDup.
  - intros it Hin%subseteq_take.
    apply first_by_url_first in Hin as (cb & ca & Hc & Hfirst).
    apply omap_app_cons_inv in Hc as (before & a & after & Hsel & Ha & <-).
    exists before, a, after. split_and!; [done..|].
    intros b it' Hb Hit'. apply Hfirst.
    apply list_elem_of_omap. eauto.
Qed.

End listing_results.

(** ** The container of an anchor *)

Lemma find_container_spec n e :
  find_container n e
  = match list_find is_container (take n (el_parents e)) with
    | Some (i, p) => {| el_node := p; el_parents := drop (S i) (el_parents e) |}
    | None =>
        match last (take n (el_parents e)) with
        | Some p => {| el_node := p; el_parents := drop n (el_parents e) |}
        | None => e
        end
    end.
Proof.
  revert e. induction n as [|n IH]; intros [a ps]; [done|].
  destruct ps as [|p ps]; [done|].
  cbn [find_container parent el_parents el_node take list_find].
  fold container_names.
  destruct (decide (is_container p)) as [Hp|Hp].
  - unfold is_container in Hp. by rewrite Hp.
  - unfold is_container in Hp. apply not_true_is_false in Hp.
    rewrite Hp. rewrite IH. cbn [el_parents el_node].
    destruct (list_find is_container (take n ps)) as [[i q]|]; [done|].
    simpl. destruct (take n ps) as [|q qs] eqn:E.
    + destruct n; [done|]. by destruct ps.
    + change (last (p :: q :: qs)) with (last (q :: qs)).
      destruct (last (q :: qs)) eqn:El; [done|]. by apply last_None in El.
Qed.

(** ** Trees *)

Lemma node_ind' (P : node → Prop) :
  (∀ s, P (NavigableString s)) →
  (∀ s, P (Comment s)) →
  (∀ name attrs contents, Forall P contents → P (Tag name attrs contents)) →
  ∀ n, P n.
Proof.
  intros Hs Hc Ht. fix IH 1. intros [s|s|name attrs contents]; [apply Hs|apply Hc|].
  apply Ht. induction contents as [|c cs IHcs]; constructor; [apply IH|apply IHcs].
Qed.

Lemma descendants_in_deeper n ps e :
  In e (descendants_in ps n) → (length ps < length (el_parents e))%nat.
Proof.
  revert ps e. induction n as [s|s|name attrs contents IH] using node_ind';
    intros ps e; [done..|].
  cbn [descendants_in]. rewrite in_flat_map. intros (c & Hc & [<-|He]).
  - simpl. lia.
  - rewrite Forall_forall in IH. apply list_elem_of_In in Hc.
    apply (IH c Hc) in He. simpl in He. lia.
Qed.

Lemma select_has_parent soup a : a ∈ select soup → el_parents a ≠ [].
Proof.
  unfold select. intros [_ Ha]%list_elem_of_filter.
  apply list_elem_of_In, descendants_in_deeper in Ha.
  destruct (el_parents a); [simpl in Ha; lia|done].
Qed.

Lemma find_container_above n e :
  el_parents e ≠ [] →
  (length (el_parents (find_container (S n) e)) < length (el_parents e))%nat.
Proof.
  intros Hne. rewrite find_container_spec.
  destruct (list_find _ _) as [[i p]|] eqn:Hf.
  - cbn [el_parents]. rewrite length_drop.
    destruct (el_parents e); [done|simpl; lia].
  - destruct (el_parents e) as [|p ps] eqn:E; [done|].
    cbn [take]. destruct (last (p :: take n ps)) eqn:El.
    + cbn [el_parents]. rewrite length_drop. simpl. lia.
    + by apply last_None in El.
Qed.








(** [find] gives the first descendant of one of the names, in document order. *)
Lemma find_first names n r :
  find names n = Some r ↔
  ∃ before after, descendants n = before ++ r :: after ∧
    name_in names r = true ∧ Forall (λ d, name_in names d = false) before.
Proof.
  unfold find, find_all. generalize (descendants n). intros l. split.
  - induction l as [|d l IH]; [done|]. rewrite filter_cons.
    destruct (decide (name_in names d = true)) as [Hd|Hd].
    + intros [= ->]. exists [], l. by split_and!.
    + intros (before & after & -> & Hr & Hb)%IH.
      exists (d :: before), after. split_and!; [done..|].
      constructor; [by apply not_true_is_false|done].
  - intros (before & after & -> & Hr & Hb).
    induction Hb as [|d before Hd _ IH]; simpl.
    + by rewrite filter_cons, decide_True.
    + rewrite filter_cons, decide_False by congruence. done.
Qed.

Lemma find_None names n :
  find names n = None ↔ Forall (λ d, name_in names d = false) (descendants n).
Proof.
  unfold find, find_all. generalize (descendants n). intros l.
  induction l as [|d l IH]; [done|]. rewrite filter_cons, Forall_cons.
  destruct (decide (name_in names d = true)) as [Hd|Hd].
  - split; [done|]. intros [? _]. congruence.
  - rewrite IH. split; [|by intros [_ ?]]. intros ?. split; [|done].
    by apply not_true_is_false.
Qed.

Section detail.
Context `{parser : HtmlParser}.






End detail.

(** ** [scrape] *)

Section scrape.
Context `{parser : HtmlParser} `{network : Network}.

Lemma or_str_Some v : or_str (Some v) [] = v.
Proof. by destruct v. Qed.

Lemma try_except_default {A} (body : result A) (d : A) :
  try_except body (λ _, Ok d)
  = Ok (match body with Ok a => a | Raise _ => d end).
Proof. by destruct body. Qed.

Lemma record_of_eq k item o :
  normalize_date (item_date_raw item) = Ok o →
  {| art_id := hexdigest (md5 (encode_utf8 (item_url item)));
     art_title := item_title item;
     art_date := or_str o [];
     art_url := item_url item;
     art_content := match fetch_detail k (item_url item) with
                    | Ok content => content
                    | Raise _ => []
                    end |}
  = record_of k item.
Proof. intros E. unfold record_of. rewrite E. by destruct o as [[|]|]. Qed.

Lemma scrape_items_spec k items :
  scrape_items k items = Ok (imap (λ i, record_of (k + i)) items).
Proof.
  revert k. induction items as [|item items IH]; intros k; [done|].
  cbn [scrape_items]. rewrite imap_cons, IH, !or_str_Some, try_except_default.
  assert (imap ((λ i, record_of (k + i)) ∘ S) items
          = imap (λ i, record_of (S k + i)) items) as ->.
  { apply imap_ext. intros i x _. simpl. by rewrite Nat.add_succ_r. }
  rewrite Nat.add_0_r.
  destruct (normalize_date_Ok (item_date_raw item)) as (o & E & _).
  rewrite E. cbn [mbind result_bind]. by rewrite (record_of_eq k item o E).
Qed.

Lemma scrape_inv records :
  scrape = Ok records →
  ∃ resp, requests_get 0%nat BASE_URL = Ok resp ∧ raise_for_status resp = Ok () ∧
    records = imap (λ i, record_of (S i))
                (extract_main_items (BeautifulSoup (text resp)) 5).
Proof.
  unfold scrape. destruct (requests_get 0%nat BASE_URL) as [resp|]; [|done]. simpl.
  destruct (raise_for_status resp) as [[]|] eqn:E; [|done]. simpl.
  rewrite scrape_items_spec. intros [= <-]. by exists resp.
Qed.


Lemma record_of_date k item :
  art_date (record_of k item) = [] ∨ date_text (art_date (record_of k item)).
Proof.
  unfold record_of. cbn [art_date].
  destruct (normalize_date_Ok (item_date_raw item)) as (o & -> & Ho).
  destruct o as [v|]; [|by left]. right. by apply Ho.
Qed.

Lemma candidate_url a it :
  candidate a = Some it →
  ∃ href, get (el_node a) (lit "href") = Some href ∧ item_url it = absolute_url href.
Proof.
  unfold candidate. destruct (get _ _) as [href|]; [|done]. simpl.
  destruct (truthy href); [|done]. simpl.
  destruct (truthy _); [|done]. simpl. intros [= <-]. by exists href.
Qed.

End scrape.

Lemma date_text_shaped v :
  date_text v → iso_shaped v ∧ ∃ dt, fromisoformat v = Ok dt.
Proof.
  intros (y & m & d & Hv & ->).
  pose proof (fromisoformat_isoformat _ _ _ Hv) as H.
  split; [by eapply fromisoformat_shaped|by eexists].
Qed.

(** ** The index *)

Section index.
Context `{services : Services}.

Lemma embed_texts_length k texts vs :
  embed_texts k texts = Ok vs → length vs = length texts.
Proof.
  revert k vs. induction texts as [|t texts IH]; intros k vs; simpl.
  - by intros [= <-].
  - destruct (embeddings_create k t); [|done]. simpl.
    destruct (embed_texts (S k) texts) eqn:E; [|done]. simpl.
    intros [= <-]. simpl. f_equal. by eapply IH.
Qed.

Lemma upsert_of_metadata article v :
  dom (up_metadata (upsert_of article v)) = metadata_keys ∧
  up_metadata (upsert_of article v) !! lit "content" = None.
Proof.
  unfold upsert_of. cbn [up_metadata]. split.
  - rewrite !dom_insert_L, dom_empty_L. unfold metadata_keys. set_solver.
  - by rewrite !lookup_insert_ne, lookup_empty.
Qed.

Lemma upserts_of_inv articles upserts :
  upserts_of articles = Ok upserts →
  length upserts = length articles ∧
  ∀ i u, upserts !! i = Some u →
    ∃ a v, articles !! i = Some a ∧ u = upsert_of a v.
Proof.
  unfold upserts_of. destruct (embed_texts _ _) as [vs|] eqn:E; [|done].
  simpl. intros [= <-]. apply embed_texts_length in E.
  rewrite length_map in E. split.
  - rewrite length_zip_with. lia.
  - intros i u (a & v & -> & Ha & Hv)%lookup_zip_with_Some. by exists a, v.
Qed.

Lemma index_upsert_snoc index upserts u :
  index_upsert index (upserts ++ [u])
  = <[ up_id u := (up_values u, up_metadata u) ]> (index_upsert index upserts).
Proof. unfold index_upsert. by rewrite fold_left_app. Qed.

(** After an upsert, what is stored under the id of one of the entries is
    one of the entries. *)
Lemma index_upsert_lookup (index : index_state) upserts i :
  i ∈ map up_id upserts →
  ∃ u, u ∈ upserts ∧ up_id u = i ∧
       index_upsert index upserts !! i = Some (up_values u, up_metadata u).
Proof.
  induction upserts as [|u upserts IH] using rev_ind; [by intros ?%elem_of_nil|].
  rewrite map_app, index_upsert_snoc. simpl.
  destruct (decide (up_id u = i)) as [<-|Hne].
  - intros _. exists u. split_and!; [apply elem_of_app; right; constructor|done|].
    by rewrite lookup_insert_eq.
  - intros [Hin|Hin]%elem_of_app;
      [|apply list_elem_of_singleton in Hin; congruence].
    destruct (IH Hin) as (u' & Hu' & Hid & Hl).
    exists u'. split_and!; [apply elem_of_app; by left|done|].
    by rewrite lookup_insert_ne.
Qed.

Lemma search_result_no_content m md :
  sv_metadata m = Some md → md !! lit "content" = None →
  sr_content (search_result_of m) = [].
Proof.
  intros Hm Hc. unfold search_result_of. cbn [sr_content]. rewrite Hm.
  unfold md_get. cbn [default from_option id]. by rewrite Hc.
Qed.

End index.

(** * The claims *)

(** ** C1: the id of a record *)

Section scrape_claims.
Context `{parser : HtmlParser} `{network : Network}.

Lemma scrape_record records r :
  scrape = Ok records → r ∈ records →
  ∃ resp i item,
    requests_get 0%nat BASE_URL = Ok resp ∧ raise_for_status resp = Ok () ∧
    extract_main_items (BeautifulSoup (text resp)) 5 !! i = Some item ∧
    records !! i = Some r ∧ r = record_of (S i) item.
Proof.
  intros (resp & Hget & Hst & ->)%scrape_inv Hr.
  apply list_elem_of_lookup in Hr as [i Hi]. exists resp, i.
  pose proof Hi as Hi'. rewrite list_lookup_imap in Hi'.
  destruct (extract_main_items _ _ !! i) as [item|] eqn:E; [|done].
  injection Hi' as <-. by exists item.
Qed.

Lemma scrape_record_id records r :
  scrape = Ok records → r ∈ records →
  art_id r = hexdigest (md5 (encode_utf8 (art_url r))) ∧
  ∃ resp a href,
    requests_get 0%nat BASE_URL = Ok resp ∧
    a ∈ select (BeautifulSoup (text resp)) ∧
    get (el_node a) (lit "href") = Some href ∧
    art_url r = absolute_url href.
Proof.
  intros Hs Hr.
  destruct (scrape_record _ _ Hs Hr) as (resp & i & item & Hget & _ & Hi & _ & ->).
  split; [done|].
  apply list_elem_of_lookup_2 in Hi.
  destruct (extract_main_items_props (BeautifulSoup (text resp)) 5)
    as (_ & _ & Hfirst).
  destruct (Hfirst _ Hi) as (before & a & after & Hsel & Ha & _).
  apply candidate_url in Ha as (href & Hhref & Hurl).
  exists resp, a, href. split_and!; [done| |done..].
  rewrite Hsel. apply elem_of_app. right. constructor.
Qed.

End scrape_claims.

(** C1.  The id of an Article Record is the MD5 hex digest of the UTF-8
    bytes of its url and depends on nothing else: in any two runs of [scrape],
    whatever the parser and the network give for titles, dates and contents,
    every record's id is the hash of its own url, two records with equal urls
    have equal ids, and every record's url is the absolute URL of an href of
    a selected anchor of the listing. *)
Theorem scrape_id_is_hash_of_url
    (p1 p2 : HtmlParser) (n1 n2 : Network) records1 records2 r1 r2 :
  @scrape p1 n1 = Ok records1 → @scrape p2 n2 = Ok records2 →
  r1 ∈ records1 → r2 ∈ records2 →
  art_id r1 = hexdigest (md5 (encode_utf8 (art_url r1))) ∧
  art_id r2 = hexdigest (md5 (encode_utf8 (art_url r2))) ∧
  (art_url r1 = art_url r2 → art_id r1 = art_id r2) ∧
  (∃ resp a href,
     @requests_get n1 0%nat BASE_URL = Ok resp ∧
     a ∈ select (@BeautifulSoup p1 (text resp)) ∧
     get (el_node a) (lit "href") = Some href ∧
     art_url r1 = absolute_url href).
Proof.
  intros H1 H2 Hr1 Hr2.
  destruct (@scrape_record_id p1 n1 _ _ H1 Hr1) as [E1 Hhref].
  destruct (@scrape_record_id p2 n2 _ _ H2 Hr2) as [E2 _].
  split_and!; [done..| |done]. intros E. by rewrite E1, E2, E.
Qed.

Lemma example_scrape : @scrape html_parser example_network = Ok example_records.
Proof. by vm_compute. Qed.

Lemma example_scrape_down :
  @scrape html_parser example_network_down = Ok example_records_down.
Proof. by vm_compute. Qed.

Lemma scrape_id_is_hash_of_url_witness :
  art_id example_record
    = hexdigest (md5 (encode_utf8 (art_url example_record))) ∧
  art_id example_record_down
    = hexdigest (md5 (encode_utf8 (art_url example_record_down))) ∧
  (art_url example_record = art_url example_record_down →
   art_id example_record = art_id example_record_down) ∧
  (∃ resp a href,
     @requests_get example_network 0%nat BASE_URL = Ok resp ∧
     a ∈ select (@BeautifulSoup html_parser (text resp)) ∧
     get (el_node a) (lit "href") = Some href ∧
     art_url example_record = absolute_url href).
Proof.
  apply (scrape_id_is_hash_of_url html_parser html_parser
           example_network example_network_down
           example_records example_records_down).
  - vm_compute. reflexivity.
  - vm_compute. reflexivity.
  - apply (list_elem_of_lookup_2 _ 0%nat). reflexivity.
  - apply (list_elem_of_lookup_2 _ 0%nat). reflexivity.
Defined.

(** ** C2: the listing extractor *)




(** ** C3: dates in the ISO form *)

Lemma before_search r s m j :
  re_search r s = Some m → (j < length (m_before m))%nat → ¬ occurs_at r s j.
Proof. intros (_ & _ & _ & _ & Hleft)%re_search_Some. apply Hleft. Qed.



(** ** C4: dates in the Swedish form, and no exception *)

(** C4, as stated, fails: a text can contain a day, a Swedish month name and
    a year that make a day of the calendar and [normalize_date] returns
    another date (an earlier ISO date wins) or none (the leftmost
    day-word-year match governs, and its word is no month). *)
Lemma normalize_date_swedish_counterexample :
  normalize_date (lit "2023-01-01 1 maj 2024") = Ok (Some (lit "2023-01-01")) ∧
  normalize_date (lit "5 personer 2024, 1 maj 2024") = Ok None ∧
  normalize_date (lit "1 maj 2024") = Ok (Some (lit "2024-05-01")).
Proof. split_and!; by vm_compute. Qed.

Lemma normalize_date_after_iso text :
  truthy text = true → try_parse_iso text = Ok None →
  normalize_date text
  = (o ← try_parse_swedish text;
     Ok (match o with Some v => if truthy v then Some v else None | None => None end)).
Proof.
  intros Ht Hiso. unfold normalize_date. rewrite Ht. cbn [negb first_parsed].
  rewrite Hiso. cbn [mbind result_bind].
  destruct (try_parse_swedish text) as [[v|]|]; [|done..].
  cbn [mbind result_bind]. by destruct (truthy v).
Qed.

(** C4, amended.  [normalize_date] raises no exception on any input.  When
    the ISO strategy finds no date in [text] and the leftmost match of the
    day-word-year pattern in the lower-cased text is a day [D], a month name
    [M] of the table and a year [Y], the result is the ISO text of that day
    if day, month and year name a day of the calendar, and the unparseable
    result [None] if they do not (a day 32, say). *)
Theorem normalize_date_total_and_swedish :
  (∀ text, ∃ o, normalize_date text = Ok o) ∧
  (∀ text pre D W1 M W2 Y post mo,
     lower text = pre ++ D ++ W1 ++ M ++ W2 ++ Y ++ post →
     all is_digit D → (1 ≤ length D ≤ 2)%nat →
     all is_space W1 → W1 ≠ [] → all is_space W2 → W2 ≠ [] →
     all is_digit Y → length Y = 4%nat →
     dict_get SWEDISH_MONTHS M = Some mo →
     (∀ j, (j < length pre)%nat → ¬ occurs_at swedish_re (lower text) j) →
     try_parse_iso text = Ok None →
     normalize_date text
     = Ok (match datetime (digits_value Y 0) mo (digits_value D 0) with
           | Ok dt => Some (isoformat dt)
           | Raise _ => None
           end)).
Proof.
  split.
  - intros text. destruct (normalize_date_Ok text) as (o & Ho & _). by exists o.
  - intros text pre D W1 M W2 Y post mo Htext AD LD AW1 NW1 AW2 NW2 AY LY HM
      Hleft Hiso.
    assert (truthy text = true) as Ht.
    { destruct text; [|done]. destruct pre, D; try done. simpl in LD. lia. }
    rewrite normalize_date_after_iso by done.
    erewrite try_parse_swedish_month by done. cbn [mbind result_bind].
    destruct (datetime _ _ _) as [dt|] eqn:E; [|done].
    apply datetime_inv in E as [Hv ->].
    rewrite (date_text_truthy (isoformat _)); [done|]. by eexists _, _, _.
Qed.

Lemma normalize_date_total_and_swedish_witness :
  (∃ o, normalize_date (lit "32 maj 2024") = Ok o) ∧
  normalize_date (lit "Publicerad 28 Augusti 2024 kl. 10")
  = Ok (Some (lit "2024-08-28")) ∧
  normalize_date (lit "Publicerad 32 maj 2024") = Ok None.
Proof.
  destruct normalize_date_total_and_swedish as [Htotal Hswedish].
  split; [apply Htotal|]. split.
  - apply (Hswedish (lit "Publicerad 28 Augusti 2024 kl. 10")
             (lit "publicerad ") (lit "28") (lit " ") (lit "augusti") (lit " ")
             (lit "2024") (lit " kl. 10") 8).
    + reflexivity.
    + by repeat constructor.
    + simpl. lia.
    + by repeat constructor.
    + done.
    + by repeat constructor.
    + done.
    + by repeat constructor.
    + reflexivity.
    + reflexivity.
    + intros j Hj.
      eapply (before_search swedish_re _
                {| m_before := lit "publicerad "; m_group0 := lit "28 augusti 2024";
                   m_groups := [lit "28"; lit "augusti"; lit "2024"];
                   m_after := lit " kl. 10" |}).
      * vm_compute. reflexivity.
      * exact Hj.
    + vm_compute. reflexivity.
  - apply (Hswedish (lit "Publicerad 32 maj 2024")
             (lit "publicerad ") (lit "32") (lit " ") (lit "maj") (lit " ")
             (lit "2024") [] 5).
    + reflexivity.
    + by repeat constructor.
    + simpl. lia.
    + by repeat constructor.
    + done.
    + by repeat constructor.
    + done.
    + by repeat constructor.
    + reflexivity.
    + reflexivity.
    + intros j Hj.
      eapply (before_search swedish_re _
                {| m_before := lit "publicerad "; m_group0 := lit "32 maj 2024";
                   m_groups := [lit "32"; lit "maj"; lit "2024"];
                   m_after := [] |}).
      * vm_compute. reflexivity.
      * exact Hj.
    + vm_compute. reflexivity.
Defined.

(** ** C5: the text cleaner *)

(** C5, as stated, fails: cleaning decodes character references, so a
    cleaned text can be markup, and cleaning it again removes that markup. *)
Lemma clean_text_not_idempotent :
  @clean_text html_parser (@clean_text html_parser escaped_markup)
  ≠ @clean_text html_parser escaped_markup.
Proof. vm_compute. discriminate. Qed.

(** C5, amended.  The result of [clean_text] never contains two consecutive
    whitespace characters and neither starts nor ends in whitespace;
    normalising its whitespace again changes nothing; and cleaning it again
    changes nothing when it contains neither [<] nor [&] (and the parser
    reads such text as character data).  Without that condition
    [clean_text] is not idempotent. *)
Theorem clean_text_normalized `{parser : HtmlParser} (x : str) :
  (∀ a c1 c2 t, clean_text x = a ++ c1 :: c2 :: t →
                ¬ (is_space c1 = true ∧ is_space c2 = true)) ∧
  starts_in_space (clean_text x) = false ∧
  ends_in_space (clean_text x) = false ∧
  normalize_whitespace (clean_text x) = clean_text x ∧
  (parses_plain_text parser → plain_text (clean_text x) →
   clean_text (clean_text x) = clean_text x).
Proof.
  destruct (clean_text_spaced x) as [Hs He]. split_and!.
  - intros a c1 c2 t E. by eapply spaced_no_double.
  - by apply spaced_true_starts.
  - done.
  - by apply normalize_whitespace_fixed.
  - intros Hp Hx. by apply clean_text_fixed.
Qed.

Lemma clean_text_normalized_witness :
  @clean_text html_parser messy_markup = lit "Hej d" ++ ["229"%char] ++ lit ", Link" ++ ["246"%char] ++ lit "ping" ∧
  @clean_text html_parser (@clean_text html_parser messy_markup)
  = @clean_text html_parser messy_markup.
Proof.
  split; [by vm_compute|].
  apply (@clean_text_normalized html_parser messy_markup).
  - apply html_parser_parses_plain_text.
  - vm_compute. repeat (constructor; [split; discriminate|]). constructor.
Defined.

(** ** C6: the container of an anchor *)

(** C6, as stated, fails: an anchor with no [article], [li] or [div] among
    its three nearest ancestors gets the last ancestor reached as its
    container (here the document), not the anchor. *)
Lemma find_container_counterexample :
  ∃ a, select (html_parser bare_listing) = [a] ∧
       Forall (λ p, name_in container_names p = false) (take 3 (el_parents a)) ∧
       find_container 3 a ≠ a ∧
       el_node (find_container 3 a) = html_parser bare_listing.
Proof.
  eexists. split; [by vm_compute|]. split_and!.
  - by repeat constructor.
  - vm_compute. discriminate.
  - by vm_compute.
Qed.

(** C6, amended.  The container is the nearest of the anchor's first three
    ancestors that is an [article], [li] or [div].  When none of them is, the
    container is the third ancestor, or the outermost one when the anchor has
    fewer than three; it is the anchor itself only when the anchor has no
    parent, which no selected anchor is: for an anchor of the listing the
    container is never the anchor. *)
Theorem find_container_levels (a : element) :
  (∀ before p after,
     el_parents a = before ++ p :: after → (length before < 3)%nat →
     name_in container_names p = true →
     Forall (λ q, name_in container_names q = false) before →
     find_container 3 a = {| el_node := p; el_parents := after |}) ∧
  (Forall (λ q, name_in container_names q = false) (take 3 (el_parents a)) →
   find_container 3 a
   = match el_parents a with
     | [] => a
     | [p1] => {| el_node := p1; el_parents := [] |}
     | [p1; p2] => {| el_node := p2; el_parents := [] |}
     | p1 :: p2 :: p3 :: rest => {| el_node := p3; el_parents := rest |}
     end) ∧
  (∀ soup, a ∈ select soup → find_container 3 a ≠ a).
Proof.
  split_and!.
  - intros before p after E Hlen Hp Hb. destruct a as [n ps]. simpl in E. subst ps.
    unfold container_names in *.
    destruct before as [|q1 [|q2 [|q3 [|]]]]; simpl in Hlen; try lia;
      repeat match goal with H : Forall _ (_ :: _) |- _ => apply Forall_cons in H as [? H] end;
      cbn [find_container parent el_parents el_node app];
      repeat match goal with H : name_in _ _ = _ |- _ => rewrite H end; done.
  - intros Hb. destruct a as [n ps]. cbn [el_parents] in *.
    unfold container_names in *.
    destruct ps as [|p1 [|p2 [|p3 rest]]]; cbn [take] in Hb;
      repeat match goal with H : Forall _ (_ :: _) |- _ => apply Forall_cons in H as [? H] end;
      cbn [find_container parent el_parents el_node];
      repeat match goal with H : name_in _ _ = _ |- _ => rewrite H end; done.
  - intros soup Ha%select_has_parent E.
    pose proof (find_container_above 2 a Ha) as Hlt. rewrite E in Hlt. lia.
Qed.

Lemma find_container_levels_witness :
  ∃ a, select (html_parser list_item_listing) = [a] ∧
       name_in [lit "li"] (el_node (find_container 3 a)) = true ∧
       find_container 3 a ≠ a.
Proof.
  eexists. split; [vm_compute; reflexivity|].
  match goal with |- context [find_container 3 ?a] =>
    destruct (find_container_levels a) as (Hnear & _ & Hnot) end.
  split.
  - rewrite (Hnear [_] _ _ eq_refl); [reflexivity|simpl; lia|reflexivity|].
    by repeat constructor.
  - apply (Hnot (html_parser list_item_listing)).
    apply (list_elem_of_lookup_2 _ 0%nat). vm_compute. reflexivity.
Defined.


(** ** C7: the detail extractor *)




(** ** C8: failures of single detail pages *)



(** ** C9: the date of a record *)

(** C9.  The date of every record [scrape] returns is a string (never an
    absent value): the empty string, or a text of the form [YYYY-MM-DD] that
    reads as a day of the calendar. *)
Theorem scrape_date_empty_or_iso
    `{parser : HtmlParser} `{network : Network} (records : list Article) (r : Article) :
  scrape = Ok records → r ∈ records →
  art_date r = [] ∨
  (matches iso_date_re (art_date r) [art_date r] ∧
   ∃ y m d, valid_date y m d = true ∧
            fromisoformat (art_date r) = Ok {| year := y; month := m; day := d |} ∧
            art_date r = isoformat {| year := y; month := m; day := d |}).
Proof.
  intros Hs Hr.
  destruct (scrape_record _ _ Hs Hr) as (resp & i & item & _ & _ & _ & _ & ->).
  destruct (record_of_date (S i) item) as [?|Hd]; [by left|right].
  destruct (date_text_shaped _ Hd) as [Hshape _]. split; [by apply iso_shaped_matches|].
  destruct Hd as (y & m & d & Hv & E). exists y, m, d.
  split_and!; [done| |done]. rewrite E. by apply fromisoformat_isoformat.
Qed.

Lemma scrape_date_empty_or_iso_witness :
  art_date example_record = [] ∨
  (matches iso_date_re (art_date example_record) [art_date example_record] ∧
   ∃ y m d, valid_date y m d = true ∧
            fromisoformat (art_date example_record)
            = Ok {| year := y; month := m; day := d |} ∧
            art_date example_record
            = isoformat {| year := y; month := m; day := d |}).
Proof.
  apply (@scrape_date_empty_or_iso html_parser example_network example_records).
  - vm_compute. reflexivity.
  - apply (list_elem_of_lookup_2 _ 0%nat). reflexivity.
Defined.

(** ** C10: what the index holds and what a search returns *)

Section index_claims.
Context `{services : Services}.

Lemma upsert_ids articles vs :
  length vs = length articles →
  map up_id (zip_with upsert_of articles vs) = map art_id articles.
Proof.
  revert vs. induction articles as [|a articles IH]; intros [|v vs]; try done.
  simpl. intros [= Hlen]. f_equal. by apply IH.
Qed.

Lemma upserts_of_ids articles upserts :
  upserts_of articles = Ok upserts → map up_id upserts = map art_id articles.
Proof.
  unfold upserts_of. destruct (embed_texts _ _) as [vs|] eqn:E; [|done].
  simpl. intros [= <-]. apply embed_texts_length in E.
  rewrite length_map in E. by apply upsert_ids.
Qed.

End index_claims.

(** C10.  The metadata [upsert_to_pinecone] writes for a vector has exactly
    the keys [title], [date] and [url], and no key [content]; so, after the
    upsert, every search result built from a match whose id is the id of one
    of the upserted articles has the empty string as its content. *)
Theorem upserted_metadata_has_no_content
    `{services : Services} (index index' : index_state) (articles : list Article) :
  upsert_to_pinecone index articles = Ok index' →
  (∃ upserts,
     upserts_of articles = Ok upserts ∧ length upserts = length articles ∧
     ∀ u, u ∈ upserts →
       dom (up_metadata u) = metadata_keys ∧
       up_metadata u !! lit "content" = None) ∧
  (∀ v k m, m ∈ index_query index' v k → sv_id m ∈ map art_id articles →
     sr_content (search_result_of m) = []) ∧
  (∀ req results, search index' req = Ok results →
     ∀ i res, results !! i = Some res →
       ∃ v m, index_query index' v (top_k req) !! i = Some m ∧
              res = search_result_of m ∧
              (sv_id m ∈ map art_id articles → sr_content res = [])).
Proof.
  unfold upsert_to_pinecone. destruct (upserts_of articles) as [upserts|] eqn:Hu; [|done].
  simpl. intros [= <-].
  pose proof (upserts_of_inv _ _ Hu) as [Hlen Hup].
  assert (∀ u, u ∈ upserts →
    dom (up_metadata u) = metadata_keys ∧ up_metadata u !! lit "content" = None) as Hmd.
  { intros u [i Hi]%list_elem_of_lookup.
    destruct (Hup _ _ Hi) as (a & v & _ & ->). apply upsert_of_metadata. }
  assert (∀ v k m, m ∈ index_query (index_upsert index upserts) v k →
    sv_id m ∈ map art_id articles → sr_content (search_result_of m) = []) as Hq.
  { intros v k m Hm Hid. unfold index_query in Hm.
    apply list_elem_of_fmap in Hm as ([i sc] & -> & _). cbn [sv_id] in Hid.
    rewrite <- (upserts_of_ids _ _ Hu) in Hid.
    destruct (index_upsert_lookup index upserts i Hid) as (u & Hin & _ & Hl).
    eapply search_result_no_content; [cbn [sv_metadata]; by rewrite Hl|].
    by apply Hmd. }
  split_and!; [by exists upserts|done|].
  intros req results. unfold search.
  destruct (truthy (strip (query req))); [|done]. cbn [negb].
  destruct (embeddings_create 0 (query req)) as [v|]; [|done]. simpl.
  intros [= <-] i res Hi.
  apply list_lookup_fmap_Some in Hi as (m & -> & Hm).
  exists v, m. split_and!; [done..|]. intros Hid.
  eapply Hq; [|done]. by eapply list_elem_of_lookup_2.
Qed.

Lemma upserted_metadata_has_no_content_witness :
  (∃ upserts,
     @upserts_of example_services example_records = Ok upserts ∧
     length upserts = length example_records ∧
     ∀ u, u ∈ upserts →
       dom (up_metadata u) = metadata_keys ∧
       up_metadata u !! lit "content" = None) ∧
  (∀ v k m, m ∈ @index_query example_services example_index v k →
     sv_id m ∈ map art_id example_records →
     sr_content (search_result_of m) = []) ∧
  (∀ req results, @search example_services example_index req = Ok results →
     ∀ i res, results !! i = Some res →
       ∃ v m, @index_query example_services example_index v (top_k req) !! i = Some m ∧
              res = search_result_of m ∧
              (sv_id m ∈ map art_id example_records → sr_content res = [])).
Proof.
  apply (@upserted_metadata_has_no_content example_services ∅ example_index
           example_records).
  reflexivity.
Defined.

(** * Further results *)

(** ** [normalize_whitespace] and the words of a text *)

Lemma lstrip_cons_space c s : is_space c = true → lstrip (c :: s) = lstrip s.
Proof. intros H. unfold lstrip. simpl. by rewrite H. Qed.

Lemma lstrip_cons_other c s : is_space c = false → lstrip (c :: s) = c :: s.
Proof. intros H. unfold lstrip. simpl. by rewrite H. Qed.

Lemma rstrip_nil : rstrip [] = [].
Proof. reflexivity. Qed.

Lemma rstrip_cons_other c s : is_space c = false → rstrip (c :: s) = c :: rstrip s.
Proof. intros Hc. exact (rstrip_app_stop [] c s Hc). Qed.

Lemma rstrip_word w :
  Forall (λ c, is_space c = false) w → rstrip w = w.
Proof.
  induction w as [|c w IH]; [done|]. intros [Hc Hw]%Forall_cons.
  rewrite rstrip_cons_other by done. by rewrite IH.
Qed.

Lemma rstrip_word_app w x :
  Forall (λ c, is_space c = false) w → w ≠ [] → rstrip (w ++ x) = w ++ rstrip x.
Proof.
  intros Hw Hne. destruct (rev w) as [|c r] eqn:E.
  { apply (f_equal (@rev ascii)) in E. rewrite rev_involutive in E. done. }
  assert (w = rev r ++ [c]) as ->.
  { rewrite <- (rev_involutive w), E. reflexivity. }
  apply Forall_app in Hw as [_ [Hc _]%Forall_cons].
  rewrite <- !app_assoc. simpl. by rewrite rstrip_app_stop.
Qed.

Lemma split_whitespace_acc_drop_while s :
  split_whitespace_acc [] (drop_while is_space s) = split_whitespace_acc [] s.
Proof.
  induction s as [|c s IH]; [done|]. simpl. destruct (is_space c) eqn:E; [done|].
  simpl. by rewrite E.
Qed.

Lemma split_whitespace_acc_word_nonempty c wr s : split_whitespace_acc (c :: wr) s ≠ [].
Proof.
  revert c wr. induction s as [|d s IH]; intros c wr; simpl; [done|].
  destruct (is_space d); [done|apply IH].
Qed.

Lemma join_cons sep w l :
  l ≠ [] → join sep (w :: l) = w ++ sep ++ join sep l.
Proof. by destruct l. Qed.

Lemma strip_words_aux n : ∀ s wr,
  (length s ≤ n)%nat →
  Forall (λ c, is_space c = false) wr →
  strip (rev wr ++ re_sub whitespace_re (lit " ") s)
  = join (lit " ") (split_whitespace_acc wr s).
Proof.
  induction n as [|n IH]; intros s wr Hlen Hwr.
  - destruct s; [|simpl in Hlen; lia]. rewrite re_sub_whitespace_nil, app_nil_r.
    assert (Forall (λ c, is_space c = false) (rev wr)) as Hr.
    { by apply Forall_rev. }
    unfold strip. destruct wr as [|c wr]; [done|].
    cbn [split_whitespace_acc join].
    destruct (rev (c :: wr)) as [|x r] eqn:E; [done|].
    apply Forall_cons in Hr as [Hx Hr'].
    rewrite lstrip_cons_other by done. apply rstrip_word. by constructor.
  - destruct s as [|c s]; [apply (IH []); [simpl; lia|done]|].
    simpl in Hlen. destruct (is_space c) eqn:Hc.
    + rewrite re_sub_whitespace_space by done.
      set (d := drop_while is_space s).
      assert (length d ≤ n)%nat as Hd.
      { pose proof (drop_while_length is_space s). unfold d. lia. }
      pose proof (IH d [] Hd (Forall_nil_2 _)) as IHd.
      cbn [rev app] in IHd.
      cbn [split_whitespace_acc]. rewrite Hc.
      destruct wr as [|x wr].
      * cbn [rev app]. rewrite <- split_whitespace_acc_drop_while. fold d.
        rewrite <- IHd. unfold strip.
        change (lit " " ++ ?y) with (" "%char :: y).
        by rewrite lstrip_cons_space.
      * rewrite <- split_whitespace_acc_drop_while. fold d.
        assert (Forall (λ c, is_space c = false) (rev (x :: wr))) as Hr.
        { by apply Forall_rev. }
        assert (rev (x :: wr) ≠ []) as Hne.
        { intros E. apply (f_equal (@length _)) in E. rewrite length_rev in E. done. }
        assert (lstrip (rev (x :: wr) ++ lit " " ++ re_sub whitespace_re (lit " ") d)
                = rev (x :: wr) ++ lit " " ++ re_sub whitespace_re (lit " ") d) as Hl.
        { destruct (rev (x :: wr)) as [|y r]; [done|].
          apply Forall_cons in Hr as [Hy _]. simpl. by rewrite lstrip_cons_other. }
        unfold strip. rewrite Hl, rstrip_word_app by done.
        destruct d as [|c2 d'] eqn:Ed.
        { rewrite re_sub_whitespace_nil. cbn [split_whitespace_acc join].
          change (rstrip (lit " " ++ [])) with (@nil ascii). by rewrite app_nil_r. }
        assert (is_space c2 = false) as Hc2.
        { eapply (drop_while_head is_space s). exact Ed. }
        rewrite re_sub_whitespace_other by done.
        rewrite re_sub_whitespace_other in IHd by done.
        unfold strip in IHd. rewrite lstrip_cons_other in IHd by done.
        rewrite join_cons.
        2:{ cbn [split_whitespace_acc]. rewrite Hc2. apply split_whitespace_acc_word_nonempty. }
        rewrite <- IHd.
        change (lit " " ++ c2 :: ?y) with ([" "%char] ++ c2 :: y).
        rewrite (rstrip_app_stop [" "%char] c2) by done.
        by rewrite rstrip_cons_other.
    + rewrite re_sub_whitespace_other by done. cbn [split_whitespace_acc]. rewrite Hc.
      rewrite <- (IH s (c :: wr)); [|lia|by constructor].
      cbn [rev]. by rewrite <- app_assoc.
Qed.

Lemma normalize_whitespace_join_split text :
  normalize_whitespace text = join (lit " ") (split_whitespace text).
Proof.
  unfold normalize_whitespace, split_whitespace.
  by rewrite <- (strip_words_aux (length text) text []).
Qed.

(** ** The ISO strategy, case by case *)

Lemma strip_embed s :
  ∃ a b, s = a ++ strip s ++ b.
Proof.
  destruct (rstrip_trailing (lstrip s)) as (t & Ht & _).
  exists (take_while is_space s), t. unfold strip.
  rewrite <- Ht. unfold lstrip. by rewrite take_drop_while.
Qed.

Lemma occurs_at_strip r s j :
  occurs_at r (strip s) j → ∃ i, occurs_at r s i.
Proof.
  intros H. destruct (strip_embed s) as (a & b & E).
  exists (length a + j)%nat. rewrite E at 1. by apply occurs_at_embed.
Qed.

Lemma list_of_length_2 {X} (l : list X) :
  length l = 2%nat → ∃ a b, l = [a; b].
Proof. destruct l as [|a [|b [|]]]; try done. by exists a, b. Qed.

Lemma matches_iso_datetime_inv w g :
  matches iso_datetime_re w g →
  ∃ d t, w = d ++ t ∧ g = [d] ∧ iso_shaped d ∧ time_shaped t.
Proof.
  intros H. unfold iso_datetime_re in H.
  apply matches_seq_inv in H as (d & w1 & gd & g1 & -> & -> & Hd & H).
  apply matches_seq_inv in H as (T & w2 & gT & g2 & -> & -> & HT & H).
  apply matches_seq_inv in H as (hh & w3 & gh & g3 & -> & -> & Hh & H).
  apply matches_seq_inv in H as (co & mm & gc & gm & -> & -> & Hc & Hm).
  apply matches_iso_date_inv in Hd as [-> Hd].
  apply matches_chr_inv in HT as [-> ->], Hc as [-> ->].
  apply matches_times_inv in Hh as (-> & Ah & Lh), Hm as (-> & Am & Lm).
  apply list_of_length_2 in Lh as (h1 & h2 & ->), Lm as (m1 & m2 & ->).
  exists d, ["T"%char; h1; h2; ":"%char; m1; m2]. split_and!; [done..|].
  exists h1, h2, m1, m2. split; [done|].
  apply Forall_cons in Ah as [? [? _]%Forall_cons].
  apply Forall_cons in Am as [? [? _]%Forall_cons].
  by repeat constructor.
Qed.

Lemma iso_datetime_matches d t :
  iso_shaped d → time_shaped t → matches iso_datetime_re (d ++ t) [d].
Proof.
  intros Hd (h1 & h2 & m1 & m2 & -> & Hdig).
  apply Forall_cons in Hdig as [? [? [? [? _]%Forall_cons]%Forall_cons]%Forall_cons].
  unfold iso_datetime_re.
  change [d] with ([d] ++ [] ++ [] ++ [] ++ @nil str).
  apply matches_seq; [by apply iso_shaped_matches|].
  change ["T"%char; h1; h2; ":"%char; m1; m2]
    with (["T"%char] ++ [h1; h2] ++ [":"%char] ++ [m1; m2]).
  apply matches_seq; [apply matches_chr|].
  apply matches_seq; [apply matches_times; [by repeat constructor|done]|].
  apply matches_seq; [apply matches_chr|].
  apply matches_times; [by repeat constructor|done].
Qed.

Lemma iso_datetime_occurs_iso s j :
  occurs_at iso_datetime_re s j → occurs_at iso_date_re s j.
Proof.
  intros (w & rest & g & E & H).
  apply matches_iso_datetime_inv in H as (d & t & -> & -> & Hd & _).
  exists d, (t ++ rest), [d]. split; [by rewrite E, <- app_assoc|].
  by apply iso_shaped_matches.
Qed.

Lemma iso_shaped_ends d :
  iso_shaped d → ∃ x mid y, d = x :: mid ++ [y] ∧ is_digit x = true ∧ is_digit y = true.
Proof.
  intros (y1 & y2 & y3 & y4 & m1 & m2 & d1 & d2 & -> & Hdig).
  exists y1, [y2; y3; y4; "-"%char; m1; m2; "-"%char; d1], d2.
  repeat match goal with H : Forall _ (_ :: _) |- _ => apply Forall_cons in H as [? H] end.
  done.
Qed.

(** The search of [try_parse_iso] for the date pattern finds the leftmost
    text of its form. *)
Lemma re_search_iso_leftmost pre d post :
  iso_shaped d →
  (∀ j, (j < length pre)%nat → ¬ occurs_at iso_date_re (pre ++ d ++ post) j) →
  ∃ m, re_search iso_date_re (strip (pre ++ d ++ post)) = Some m ∧ m_groups m = [d].
Proof.
  intros Hshape Hleft.
  pose proof (iso_shaped_matches _ Hshape) as Hmatch.
  destruct (iso_shaped_ends _ Hshape) as (x & mid & y & Ed & Hx%digit_not_space & Hy%digit_not_space).
  assert (leftmost iso_date_re (strip (pre ++ d ++ post)) (length (lstrip pre))) as HL.
  { rewrite Ed. apply leftmost_strip; [done..|by exists [d]; rewrite <- Ed|by rewrite <- Ed]. }
  apply re_search_leftmost in HL as (m & Hm & Hlen & Hs & Hw).
  exists m. split; [done|].
  rewrite Ed, strip_around, <- Ed in Hs by done.
  apply app_inj_1 in Hs as [_ Hs]; [|done].
  apply matches_iso_date_inv in Hw as [Hg Hw%iso_shaped_length].
  apply app_inj_1 in Hs as [Hg0 _]; [|by rewrite Hw, (iso_shaped_length d)].
  by rewrite Hg, <- Hg0.
Qed.

Lemma time_shaped_length t : time_shaped t → length t = 6%nat.
Proof. by intros (? & ? & ? & ? & -> & _). Qed.

Lemma re_search_iso_datetime_leftmost pre d t post :
  iso_shaped d → time_shaped t →
  (∀ j, (j < length pre)%nat →
        ¬ occurs_at iso_datetime_re (pre ++ (d ++ t) ++ post) j) →
  ∃ m, re_search iso_datetime_re (strip (pre ++ (d ++ t) ++ post)) = Some m ∧
       m_groups m = [d].
Proof.
  intros Hshape Ht Hleft.
  pose proof (iso_datetime_matches _ _ Hshape Ht) as Hmatch.
  pose proof (iso_shaped_length _ Hshape) as Ld.
  pose proof (time_shaped_length _ Ht) as Lt.
  destruct (iso_shaped_ends _ Hshape) as (x & mid & y0 & Ed & Hx%digit_not_space & _).
  destruct Ht as (h1 & h2 & m1 & m2 & Et & Hdig).
  assert (is_space m2 = false) as Hy.
  { apply digit_not_space.
    by apply Forall_cons in Hdig as [? [? [? [? _]%Forall_cons]%Forall_cons]%Forall_cons]. }
  assert (d ++ t = x :: (mid ++ [y0] ++ ["T"%char; h1; h2; ":"%char; m1]) ++ [m2]) as Ew.
  { rewrite Ed, Et. cbn [app]. f_equal. rewrite <- !app_assoc. reflexivity. }
  assert (leftmost iso_datetime_re (strip (pre ++ (d ++ t) ++ post))
            (length (lstrip pre))) as HL.
  { rewrite Ew. apply leftmost_strip; [done..|by exists [d]; rewrite <- Ew|by rewrite <- Ew]. }
  apply re_search_leftmost in HL as (m & Hm & Hlen & Hs & Hw).
  exists m. split; [done|].
  rewrite Ew, strip_around, <- Ew in Hs by done.
  apply app_inj_1 in Hs as [_ Hs]; [|done].
  apply matches_iso_datetime_inv in Hw as (d' & t' & Hg0 & Hg & Hd' & Ht').
  rewrite Hg0, <- !app_assoc in Hs.
  apply app_inj_1 in Hs as [Hdd _];
    [|by rewrite Ld, (iso_shaped_length d')].
  by rewrite Hg, <- Hdd.
Qed.

Lemma parse_group1_groups m d :
  m_groups m = [d] →
  parse_group1 m
  = match fromisoformat d with
    | Ok _ => Ok (Some d)
    | Raise e => Raise e
    end.
Proof.
  intros Hg. unfold parse_group1, group. rewrite Hg. cbn [lookup list_lookup mbind result_bind].
  destruct (fromisoformat d) as [dt|e] eqn:E; [|done].
  cbn [mbind result_bind]. by apply isoformat_fromisoformat in E as [-> _].
Qed.

Lemma search_group_in_text r s m d :
  re_search r s = Some m →
  (∀ w g, matches r w g → ∃ t, w = hd [] g ++ t) →
  m_groups m = [d] → ∃ a b, s = a ++ d ++ b.
Proof.
  intros (Hs & Hw & _)%re_search_Some Hr Hg.
  destruct (Hr _ _ Hw) as (t & Et). rewrite Hg in Et. cbn [hd] in Et.
  exists (m_before m), (t ++ m_after m). by rewrite Hs, Et, <- app_assoc.
Qed.

Lemma try_parse_iso_inv text v :
  try_parse_iso text = Ok (Some v) →
  date_text v ∧ ∃ a b, strip text = a ++ v ++ b.
Proof.
  intros H. split.
  { destruct (try_parse_iso_Ok text) as (o & Ho & Hd). rewrite Ho in H.
    injection H as ->. by apply Hd. }
  unfold try_parse_iso in H.
  assert (∀ r m,
    (r = iso_date_re ∨ r = iso_datetime_re) →
    re_search r (strip text) = Some m → parse_group1 m = Ok (Some v) →
    ∃ a b, strip text = a ++ v ++ b) as Hone.
  { intros r m Hr Hm Hp.
    pose proof Hm as (_ & Hw & _)%re_search_Some.
    assert (∃ d, m_groups m = [d]) as [d Hg].
    { destruct Hr as [->| ->].
      - apply matches_iso_date_inv in Hw as [-> _]. by eexists.
      - apply matches_iso_datetime_inv in Hw as (d & t & _ & -> & _). by eexists. }
    rewrite (parse_group1_groups _ _ Hg) in Hp.
    destruct (fromisoformat d); [|done]. injection Hp as <-.
    eapply search_group_in_text; [done| |done].
    intros w g Hwg. destruct Hr as [->| ->].
    - apply matches_iso_date_inv in Hwg as [-> _]. exists []. by rewrite app_nil_r.
    - apply matches_iso_datetime_inv in Hwg as (d' & t & -> & -> & _). by exists t. }
  set (second := match re_search iso_datetime_re (strip text) with
                 | Some m => try_except (parse_group1 m) (λ _, Ok None)
                 | None => Ok None
                 end) in H.
  assert (second = Ok (Some v) → ∃ a b, strip text = a ++ v ++ b) as Hsecond.
  { subst second. destruct (re_search iso_datetime_re _) as [m|] eqn:Hm; [|done].
    destruct (parse_group1 m) as [o|] eqn:E; [|done]. cbn [try_except].
    intros [= ->]. eapply Hone; [by right|done..]. }
  destruct (re_search iso_date_re _) as [m|] eqn:Hm; [|by apply Hsecond].
  destruct (parse_group1 m) as [o|] eqn:E; cbn [try_except] in H; [|by apply Hsecond].
  injection H as ->. eapply Hone; [by left|done..].
Qed.

Lemma try_parse_iso_no_shape text :
  (∀ j, ¬ occurs_at iso_date_re text j) → try_parse_iso text = Ok None.
Proof.
  intros Hno. unfold try_parse_iso.
  assert (re_search iso_date_re (strip text) = None) as ->.
  { destruct (re_search iso_date_re _) as [m|] eqn:Hm; [|done].
    apply re_search_Some in Hm as (_ & _ & _ & Hocc & _).
    apply occurs_at_strip in Hocc as [i Hi]. by destruct (Hno i). }
  assert (re_search iso_datetime_re (strip text) = None) as ->; [|done].
  destruct (re_search iso_datetime_re _) as [m|] eqn:Hm; [|done].
  apply re_search_Some in Hm as (_ & _ & _ & Hocc & _).
  apply iso_datetime_occurs_iso, occurs_at_strip in Hocc as [i Hi].
  by destruct (Hno i).
Qed.

Lemma try_parse_iso_second text pre d post e :
  text = pre ++ d ++ post → iso_shaped d →
  (∀ j, (j < length pre)%nat → ¬ occurs_at iso_date_re text j) →
  fromisoformat d = Raise e →
  try_parse_iso text
  = match re_search iso_datetime_re (strip text) with
    | Some m => try_except (parse_group1 m) (λ _, Ok None)
    | None => Ok None
    end.
Proof.
  intros -> Hd Hleft He.
  destruct (re_search_iso_leftmost pre d post Hd Hleft) as (m & Hm & Hg).
  unfold try_parse_iso. rewrite Hm, (parse_group1_groups _ _ Hg), He. done.
Qed.

Lemma split_whitespace_acc_words wr s :
  Forall (λ c, is_space c = false) wr →
  Forall (λ w, w ≠ [] ∧ Forall (λ c, is_space c = false) w) (split_whitespace_acc wr s) ∧
  concat (split_whitespace_acc wr s) = rev wr ++ filter (λ c, is_space c = false) s.
Proof.
  revert wr. induction s as [|c s IH]; intros wr Hwr.
  - cbn [split_whitespace_acc]. rewrite filter_nil, app_nil_r. destruct wr as [|x wr]; [done|].
    split; [|by cbn [concat]; rewrite app_nil_r].
    constructor; [|done]. split; [|by apply Forall_rev].
    intros E. apply (f_equal (@length _)) in E. by rewrite length_rev in E.
  - cbn [split_whitespace_acc]. destruct (is_space c) eqn:Hc.
    + rewrite filter_cons_False by by rewrite Hc.
      destruct (IH [] (Forall_nil_2 _)) as [IH1 IH2]. cbn [rev app] in IH2.
      destruct wr as [|x wr]; [done|]. split.
      * constructor; [|done]. split; [|by apply Forall_rev].
        intros E. apply (f_equal (@length _)) in E. by rewrite length_rev in E.
      * cbn [concat]. by rewrite IH2.
    + rewrite filter_cons_True by done.
      destruct (IH (c :: wr)) as [IH1 IH2]; [by constructor|].
      split; [done|]. rewrite IH2. cbn [rev]. by rewrite <- app_assoc.
Qed.

(** X1.  [normalize_whitespace text] is the words of [text] joined by single
    spaces, what [" ".join(text.split())] gives: the words are the maximal
    runs of characters that are no whitespace, none is empty, and together
    they hold exactly the characters of [text] that are no whitespace, in
    order. *)
Theorem normalize_whitespace_joins_words (text : str) :
  normalize_whitespace text = join (lit " ") (split_whitespace text) ∧
  Forall (λ w, w ≠ [] ∧ Forall (λ c, is_space c = false) w) (split_whitespace text) ∧
  concat (split_whitespace text) = filter (λ c, is_space c = false) text.
Proof.
  split; [apply normalize_whitespace_join_split|].
  apply (split_whitespace_acc_words [] text). constructor.
Qed.

(** X2.  [normalize_whitespace] is idempotent, and the texts it leaves unchanged
    are exactly those in which every whitespace character is a single space
    between two characters that are no whitespace. *)
Theorem normalize_whitespace_fixed_points (text : str) :
  normalize_whitespace (normalize_whitespace text) = normalize_whitespace text ∧
  (normalize_whitespace text = text ↔
   spaced true text = true ∧ ends_in_space text = false).
Proof.
  split; [apply normalize_whitespace_idempotent|]. split.
  - intros <-. apply normalize_whitespace_spaced.
  - intros [Hs He]. by apply normalize_whitespace_fixed.
Qed.

(** X3.  [try_parse_iso] raises no exception; a date it returns is a text
    [YYYY-MM-DD] of a day of the calendar that occurs literally in the input,
    and it returns [None] when nothing of the form [YYYY-MM-DD] occurs in the
    input. *)
Theorem try_parse_iso_sound (text : str) :
  ∃ o, try_parse_iso text = Ok o ∧
    (∀ v, o = Some v → date_text v ∧ ∃ pre post, text = pre ++ v ++ post) ∧
    ((∀ j, ¬ occurs_at iso_date_re text j) → o = None).
Proof.
  destruct (try_parse_iso_Ok text) as (o & Ho & _). exists o. split; [done|]. split.
  - intros v ->. apply try_parse_iso_inv in Ho as [Hd (a & b & E)]. split; [done|].
    destruct (strip_embed text) as (a' & b' & E').
    exists (a' ++ a), (b ++ b'). rewrite E' at 1. rewrite E.
    by rewrite <- !app_assoc.
  - intros Hno. apply try_parse_iso_no_shape in Hno. congruence.
Qed.

(** X4.  When the leftmost text of the form [YYYY-MM-DD] in the input is no day
    of the calendar, [try_parse_iso] does not look for a later plain date: the
    result is [None] unless some [YYYY-MM-DDTHH:MM] occurs, and then it is
    decided by the leftmost such occurrence alone (its date if that is a day
    of the calendar, [None] otherwise). *)
Theorem try_parse_iso_invalid_leftmost (text pre d post : str) (e : exn) :
  text = pre ++ d ++ post → iso_shaped d →
  (∀ j, (j < length pre)%nat → ¬ occurs_at iso_date_re text j) →
  fromisoformat d = Raise e →
  ((∀ j, ¬ occurs_at iso_datetime_re text j) → try_parse_iso text = Ok None) ∧
  (∀ pre' d' t post',
     text = pre' ++ (d' ++ t) ++ post' → iso_shaped d' → time_shaped t →
     (∀ j, (j < length pre')%nat → ¬ occurs_at iso_datetime_re text j) →
     try_parse_iso text
     = Ok (match fromisoformat d' with Ok _ => Some d' | Raise _ => None end)).
Proof.
  intros Htext Hd Hleft He.
  rewrite (try_parse_iso_second text pre d post e) by done. split.
  - intros Hno. destruct (re_search iso_datetime_re _) as [m|] eqn:Hm; [|done].
    apply re_search_Some in Hm as (_ & _ & _ & Hocc & _).
    apply occurs_at_strip in Hocc as [i Hi]. by destruct (Hno i).
  - intros pre' d' t post' Htext' Hd' Ht Hleft'. rewrite Htext' in Hleft' |- *.
    destruct (re_search_iso_datetime_leftmost pre' d' t post' Hd' Ht Hleft')
      as (m & -> & Hg).
    rewrite (parse_group1_groups _ _ Hg). by destruct (fromisoformat d').
Qed.

Lemma try_parse_iso_invalid_leftmost_witness :
  try_parse_iso (lit "2024-13-01 och 2024-09-01") = Ok None ∧
  try_parse_iso (lit "2024-13-01 och 2024-09-01T12:34")
  = Ok (Some (lit "2024-09-01")).
Proof.
  assert (iso_shaped (lit "2024-13-01")) as Hshape.
  { eexists _, _, _, _, _, _, _, _. split; [reflexivity|]. by repeat constructor. }
  split.
  - destruct (try_parse_iso_invalid_leftmost (lit "2024-13-01 och 2024-09-01")
                [] (lit "2024-13-01") (lit " och 2024-09-01") ValueError)
      as [Hnone _]; [reflexivity|exact Hshape|simpl; lia|reflexivity|].
    apply Hnone, re_search_None. vm_compute. reflexivity.
  - destruct (try_parse_iso_invalid_leftmost (lit "2024-13-01 och 2024-09-01T12:34")
                [] (lit "2024-13-01") (lit " och 2024-09-01T12:34") ValueError)
      as [_ Hsecond]; [reflexivity|exact Hshape|simpl; lia|reflexivity|].
    apply (Hsecond (lit "2024-13-01 och ") (lit "2024-09-01") (lit "T12:34") []).
    + reflexivity.
    + eexists _, _, _, _, _, _, _, _. split; [reflexivity|]. by repeat constructor.
    + eexists _, _, _, _. split; [reflexivity|]. by repeat constructor.
    + intros j Hj.
      eapply (before_search iso_datetime_re _
                {| m_before := lit "2024-13-01 och ";
                   m_group0 := lit "2024-09-01T12:34";
                   m_groups := [lit "2024-09-01"]; m_after := [] |}).
      * vm_compute. reflexivity.
      * exact Hj.
Defined.

Lemma matches_swedish_day_length w g :
  matches swedish_re w g → ∃ D, g !! 0%nat = Some D ∧ (length D ≤ 2)%nat.
Proof.
  intros H.
  apply matches_seq_inv in H as (D & w1 & gD & g1 & -> & -> & HD & _).
  apply matches_group_inv in HD as (g & -> & HD).
  apply matches_chars_inv in HD as (-> & _ & _ & Hhi).
  exists D. split; [done|]. by apply Hhi.
Qed.

(** X5.  A date [try_parse_swedish] returns comes from the leftmost match of the
    day-word-year pattern in the lower-cased input: its word is a month name
    of the table, day, month and year name a day of the calendar, and the
    result is the ISO text of that day. *)
Theorem try_parse_swedish_sound (text v : str) :
  try_parse_swedish text = Ok (Some v) →
  ∃ pre D W1 M W2 Y post mo,
    lower text = pre ++ D ++ W1 ++ M ++ W2 ++ Y ++ post ∧
    all is_digit D ∧ (1 ≤ length D ≤ 2)%nat ∧
    all is_space W1 ∧ W1 ≠ [] ∧ all is_space W2 ∧ W2 ≠ [] ∧
    all is_digit Y ∧ length Y = 4%nat ∧
    dict_get SWEDISH_MONTHS M = Some mo ∧
    (∀ j, (j < length pre)%nat → ¬ occurs_at swedish_re (lower text) j) ∧
    valid_date (digits_value Y 0) mo (digits_value D 0) = true ∧
    v = isoformat {| year := digits_value Y 0; month := mo;
                     day := digits_value D 0 |}.
Proof.
  unfold try_parse_swedish.
  destruct (re_search swedish_re _) as [m|] eqn:Hm; [|done].
  apply re_search_Some in Hm as (Hs & Hw & _ & _ & Hleft).
  destruct (matches_swedish_day_length _ _ Hw) as (D0 & HD0 & LD).
  apply matches_swedish_inv in Hw
    as (D & W1 & M & W2 & Y & Hg0 & Hg & AD & ND & AW1 & NW1 & AM & NM & AW2 & NW2 & AY & LY).
  rewrite Hg in HD0 |- *. injection HD0 as <-.
  destruct (dict_get SWEDISH_MONTHS M) as [mo|] eqn:HM; [|done].
  destruct (mo =? 0); [done|].
  rewrite (int_Ok Y); [|by destruct Y|done].
  rewrite (int_Ok D); [|by destruct D|done].
  cbn [mbind result_bind].
  destruct (datetime _ mo _) as [dt|] eqn:E; [|done].
  apply datetime_inv in E as [Hv ->]. cbn [mbind result_bind try_except].
  intros [= <-].
  exists (m_before m), D, W1, M, W2, Y, (m_after m), mo.
  split_and!; try done.
  - rewrite Hs, Hg0. by rewrite <- !app_assoc.
  - destruct D; [done|simpl; lia].
Qed.

Lemma try_parse_swedish_sound_witness :
  ∃ pre D W1 M W2 Y post mo,
    lower (lit "Publicerad 3 Juni 2024") = pre ++ D ++ W1 ++ M ++ W2 ++ Y ++ post ∧
    all is_digit D ∧ (1 ≤ length D ≤ 2)%nat ∧
    all is_space W1 ∧ W1 ≠ [] ∧ all is_space W2 ∧ W2 ≠ [] ∧
    all is_digit Y ∧ length Y = 4%nat ∧
    dict_get SWEDISH_MONTHS M = Some mo ∧
    (∀ j, (j < length pre)%nat →
          ¬ occurs_at swedish_re (lower (lit "Publicerad 3 Juni 2024")) j) ∧
    valid_date (digits_value Y 0) mo (digits_value D 0) = true ∧
    lit "2024-06-03"
    = isoformat {| year := digits_value Y 0; month := mo;
                   day := digits_value D 0 |}.
Proof.
  apply (try_parse_swedish_sound (lit "Publicerad 3 Juni 2024") (lit "2024-06-03")).
  vm_compute. reflexivity.
Defined.

(** X6.  A date [normalize_date] returns is left unchanged by [normalize_date]:
    normalising twice gives what normalising once gives. *)
Theorem normalize_date_fixed_on_results (text d : str) :
  normalize_date text = Ok (Some d) → normalize_date d = Ok (Some d).
Proof.
  intros H. destruct (normalize_date_Ok text) as (o & Ho & Hd).
  rewrite Ho in H. injection H as ->.
  destruct (date_text_shaped d) as [_ [dt Hdt]]; [by apply Hd|].
  apply (normalize_date_iso d [] d [] dt); [by rewrite app_nil_r|done|].
  simpl. lia.
Qed.

Lemma normalize_date_fixed_on_results_witness :
  normalize_date (lit "2024-08-28") = Ok (Some (lit "2024-08-28")).
Proof.
  apply (normalize_date_fixed_on_results (lit "Publicerad 28 augusti 2024")).
  vm_compute. reflexivity.
Defined.

(** ** Addresses *)

Lemma startswith_app p t : startswith p (p ++ t) = true.
Proof. induction p as [|c p IH]; [done|]. simpl. by rewrite Ascii.eqb_refl. Qed.

Lemma startswith_inv p s : startswith p s = true → ∃ t, s = p ++ t.
Proof.
  revert s. induction p as [|c p IH]; intros s; [by exists s|].
  destruct s as [|d s]; [done|]. simpl.
  intros [Hc Hp]%andb_prop. apply Ascii.eqb_eq in Hc as ->.
  destruct (IH _ Hp) as [t ->]. by exists t.
Qed.

Lemma absolute_url_http href : startswith (lit "http") (absolute_url href) = true.
Proof. unfold absolute_url. by destruct (startswith (lit "http") href) eqn:E. Qed.

Lemma absolute_url_fixed href :
  startswith (lit "http") href = true → absolute_url href = href.
Proof. unfold absolute_url. by intros ->. Qed.

Lemma news_link_url n href :
  news_link n = true → get n (lit "href") = Some href →
  startswith BASE_URL (absolute_url href) = true.
Proof.
  unfold news_link. intros [_ H]%andb_prop Hhref. rewrite Hhref in H.
  apply orb_prop in H as [H|H]; apply startswith_inv in H as [t ->]; reflexivity.
Qed.

Section items.
Context `{parser : HtmlParser}.

Lemma item_of_anchor soup max_items it :
  it ∈ extract_main_items soup max_items →
  ∃ a, a ∈ select soup ∧ candidate a = Some it.
Proof.
  intros Hin. destruct (extract_main_items_props soup max_items) as (_ & _ & H).
  destruct (H _ Hin) as (before & a & after & Hsel & Ha & _).
  exists a. split; [|done]. rewrite Hsel. apply elem_of_app. right. constructor.
Qed.

Lemma select_news_link soup a : a ∈ select soup → news_link (el_node a) = true.
Proof. unfold select. by intros [H _]%list_elem_of_filter. Qed.

Lemma item_url_base soup max_items it :
  it ∈ extract_main_items soup max_items →
  startswith BASE_URL (item_url it) = true.
Proof.
  intros (a & Ha & Hc)%item_of_anchor.
  apply candidate_url in Hc as (href & Hhref & ->).
  eapply news_link_url; [by eapply select_news_link|done].
Qed.

Lemma strip_fixed s :
  spaced true s = true → ends_in_space s = false → strip s = s.
Proof.
  intros Hs He. unfold strip.
  assert (lstrip s = s) as ->; [|by apply rstrip_id].
  apply spaced_true_starts in Hs. destruct s as [|c s]; [done|].
  simpl in Hs. unfold lstrip. simpl. by rewrite Hs.
Qed.

Lemma title_of_spaced a container :
  spaced true (title_of a container) = true ∧
  ends_in_space (title_of a container) = false.
Proof.
  unfold title_of. destruct (find _ _) as [h|].
  - destruct (clean_text_spaced (get_text (lit " ") h)) as [Hs He].
    by rewrite strip_fixed.
  - destruct (clean_text_spaced (get_text (lit " ") (el_node a))) as [Hs He].
    by rewrite strip_fixed.
Qed.

Lemma candidate_title a it :
  candidate a = Some it →
  item_title it = title_of a (find_container 3 a) ∧ item_title it ≠ [].
Proof.
  unfold candidate. destruct (get _ _) as [href|]; [|done]. simpl.
  destruct (truthy href); [|done]. simpl.
  destruct (truthy (title_of _ _)) eqn:E; [|done]. simpl. intros [= <-].
  split; [done|]. cbn [item_title]. by destruct (title_of _ _).
Qed.

Lemma candidate_title_of_item soup max_items it :
  it ∈ extract_main_items soup max_items →
  item_title it ≠ [] ∧ spaced true (item_title it) = true ∧
  ends_in_space (item_title it) = false.
Proof.
  intros (a & _ & Hc)%item_of_anchor.
  apply candidate_title in Hc as [E Hne].
  destruct (title_of_spaced a (find_container 3 a)) as [Hs He].
  by rewrite <- E in Hs, He.
Qed.

End items.

(** X7.  [absolute_url] is idempotent and its result always starts with
    [http]. *)
Theorem absolute_url_idempotent (href : str) :
  absolute_url (absolute_url href) = absolute_url href ∧
  startswith (lit "http") (absolute_url href) = true.
Proof.
  split; [|apply absolute_url_http].
  apply absolute_url_fixed, absolute_url_http.
Qed.

(** X8.  The url of every item [extract_main_items] returns starts with
    [https://www.linkoping.se/nyheter/], is left unchanged by [absolute_url],
    and is the absolute URL of the [href] of a selected anchor. *)
Theorem extract_main_items_urls_on_site
    `{parser : HtmlParser} (soup : node) (max_items : Z) (it : Item) :
  it ∈ extract_main_items soup max_items →
  startswith BASE_URL (item_url it) = true ∧
  absolute_url (item_url it) = item_url it ∧
  ∃ a href, a ∈ select soup ∧ get (el_node a) (lit "href") = Some href ∧
            item_url it = absolute_url href.
Proof.
  intros Hin. pose proof (item_url_base _ _ _ Hin) as Hbase. split; [done|]. split.
  - apply absolute_url_fixed. apply startswith_inv in Hbase as [t ->]. reflexivity.
  - apply item_of_anchor in Hin as (a & Ha & Hc).
    apply candidate_url in Hc as (href & Hhref & E). by exists a, href.
Qed.

Lemma example_item_extracted :
  example_item ∈ @extract_main_items html_parser (html_parser example_listing) 5.
Proof. apply (list_elem_of_lookup_2 _ 1%nat). vm_compute. reflexivity. Qed.

Lemma extract_main_items_urls_on_site_witness :
  startswith BASE_URL (item_url example_item) = true ∧
  absolute_url (item_url example_item) = item_url example_item ∧
  ∃ a href, a ∈ select (html_parser example_listing) ∧
            get (el_node a) (lit "href") = Some href ∧
            item_url example_item = absolute_url href.
Proof.
  apply (@extract_main_items_urls_on_site html_parser
           (html_parser example_listing) 5 example_item).
  apply example_item_extracted.
Defined.

(** X9.  The title of every item [extract_main_items] returns is not empty and
    is whitespace-normalised: no whitespace at either end and no whitespace
    other than single spaces inside. *)
Theorem extract_main_items_titles
    `{parser : HtmlParser} (soup : node) (max_items : Z) (it : Item) :
  it ∈ extract_main_items soup max_items →
  item_title it ≠ [] ∧
  spaced true (item_title it) = true ∧
  ends_in_space (item_title it) = false ∧
  normalize_whitespace (item_title it) = item_title it.
Proof.
  intros (a & _ & Hc)%item_of_anchor.
  apply candidate_title in Hc as [E Hne].
  destruct (title_of_spaced a (find_container 3 a)) as [Hs He].
  rewrite <- E in Hs, He. split_and!; [done..|].
  by apply normalize_whitespace_fixed.
Qed.

Lemma extract_main_items_titles_witness :
  item_title example_item ≠ [] ∧
  spaced true (item_title example_item) = true ∧
  ends_in_space (item_title example_item) = false ∧
  normalize_whitespace (item_title example_item) = item_title example_item.
Proof.
  apply (@extract_main_items_titles html_parser
           (html_parser example_listing) 5 example_item).
  apply example_item_extracted.
Defined.

Lemma first_by_url_sublist seen items : first_by_url seen items `sublist_of` items.
Proof.
  revert seen. induction items as [|it items IH]; intros seen; simpl; [done|].
  case_bool_decide.
  - by apply sublist_cons.
  - by apply sublist_skip.
Qed.

(** X10.  The cap only truncates: for caps [1 <= k <= k'] the items for [k] are
    the first [k] of the items for [k'].  Whatever the cap, the items are in
    the document order of their anchors: they are a subsequence of the
    candidates of the selected anchors. *)
Theorem extract_main_items_cap_truncates
    `{parser : HtmlParser} (soup : node) (k k' : Z) :
  (1 ≤ k ≤ k' →
   extract_main_items soup k = take (Z.to_nat k) (extract_main_items soup k')) ∧
  extract_main_items soup k `sublist_of` omap candidate (select soup).
Proof.
  rewrite !extract_main_items_spec. split.
  - intros Hk. rewrite take_take. f_equal. lia.
  - etrans; [apply sublist_take|apply first_by_url_sublist].
Qed.

Section scrape_results.
Context `{parser : HtmlParser} `{network : Network}.

Lemma fetch_detail_spaced k url content :
  fetch_detail k url = Ok content →
  spaced true content = true ∧ ends_in_space content = false.
Proof.
  unfold fetch_detail. destruct (requests_get k url) as [d|]; [|done].
  cbn [mbind result_bind]. destruct (raise_for_status d) as [[]|]; [|done].
  cbn [mbind result_bind]. intros [= <-].
  unfold extract_detail_content, extract_detail_from.
  destruct (find [lit "article"] _); [apply clean_text_spaced|].
  destruct (find [lit "main"] _); apply clean_text_spaced.
Qed.

Lemma record_of_content_spaced k item :
  spaced true (art_content (record_of k item)) = true ∧
  ends_in_space (art_content (record_of k item)) = false.
Proof.
  unfold record_of. cbn [art_content].
  destruct (fetch_detail k (item_url item)) as [content|] eqn:E; [|done].
  by eapply fetch_detail_spaced.
Qed.

End scrape_results.


(** X12.  [scrape] returns at most five records, no two with the same url; every
    record has a title that is not empty and is whitespace-normalised, a url
    that starts with [https://www.linkoping.se/nyheter/], and a content that
    is whitespace-normalised. *)
Theorem scrape_records_wellformed
    `{parser : HtmlParser} `{network : Network} (records : list Article) :
  scrape = Ok records →
  (length records ≤ 5)%nat ∧
  NoDup (map art_url records) ∧
  ∀ r, r ∈ records →
    art_title r ≠ [] ∧
    normalize_whitespace (art_title r) = art_title r ∧
    startswith BASE_URL (art_url r) = true ∧
    normalize_whitespace (art_content r) = art_content r.
Proof.
  intros (resp & _ & _ & ->)%scrape_inv.
  set (soup := BeautifulSoup (text resp)).
  destruct (extract_main_items_props soup 5) as (Hcap & Hdup & _).
  assert (map art_url (imap (λ i, record_of (S i)) (extract_main_items soup 5))
          = map item_url (extract_main_items soup 5)) as Hurls.
  { change (art_url <$> imap (λ i, record_of (S i)) (extract_main_items soup 5)
            = item_url <$> extract_main_items soup 5).
    rewrite fmap_imap, <- imap_const. by apply imap_ext. }
  split_and!.
  - rewrite length_imap. lia.
  - by rewrite Hurls.
  - intros r [i Hi]%list_elem_of_lookup. rewrite list_lookup_imap in Hi.
    destruct (extract_main_items soup 5 !! i) as [item|] eqn:E; [|done].
    injection Hi as <-. apply list_elem_of_lookup_2 in E.
    destruct (candidate_title_of_item soup 5 item E) as (Hne & Hs & He).
    destruct (record_of_content_spaced (S i) item) as [Hcs Hce].
    split_and!.
    + done.
    + by apply normalize_whitespace_fixed.
    + by eapply item_url_base.
    + by apply normalize_whitespace_fixed.
Qed.

(** ** The form of an id *)

Lemma le_bytes_bytes n x :
  length (le_bytes n x) = n ∧ Forall (λ b, 0 ≤ b < 256) (le_bytes n x).
Proof.
  revert x. induction n as [|n IH]; intros x; simpl; [done|].
  destruct (IH (x / 256)) as [Hl Hb]. split; [by rewrite Hl|].
  constructor; [|done]. apply Z.mod_pos_bound. lia.
Qed.

Lemma md5_bytes data :
  length (md5 data) = 16%nat ∧ Forall (λ b, 0 ≤ b < 256) (md5 data).
Proof.
  unfold md5. destruct (md5_blocks _ _ _) as [[[a b] c] d].
  destruct (le_bytes_bytes 4 a) as [La Ba], (le_bytes_bytes 4 b) as [Lb Bb],
    (le_bytes_bytes 4 c) as [Lc Bc], (le_bytes_bytes 4 d) as [Ld Bd].
  split.
  - rewrite !length_app. lia.
  - by repeat apply Forall_app_2.
Qed.

Lemma hex_digit_hex n : 0 ≤ n < 16 → is_hex (hex_digit n).
Proof.
  intros Hn. unfold is_hex, hex_digit.
  assert (Z.to_nat n < 16)%nat as Hlt by lia.
  destruct (Z.to_nat n) as [|[|[|[|[|[|[|[|[|[|[|[|[|[|[|[|]]]]]]]]]]]]]]]];
    [cbn [nth lit String.list_ascii_of_string]; by repeat constructor..|lia].
Qed.

Lemma hexdigest_hex digest :
  Forall (λ b, 0 ≤ b < 256) digest →
  length (hexdigest digest) = (2 * length digest)%nat ∧
  Forall is_hex (hexdigest digest).
Proof.
  induction 1 as [|b digest Hb _ [IHl IHh]]; [done|]. cbv beta in Hb.
  change (hexdigest (b :: digest))
    with ([hex_digit (b / 16); hex_digit (b mod 16)] ++ hexdigest digest).
  split; [rewrite length_app, IHl; simpl; lia|].
  assert (0 ≤ b / 16 < 16 ∧ 0 ≤ b mod 16 < 16) as [Hhi Hlo].
  { clear IHl IHh. split.
    - split; [apply Z.div_pos; lia|apply Z.div_lt_upper_bound; lia].
    - apply Z.mod_pos_bound. lia. }
  constructor; [by apply hex_digit_hex|].
  constructor; [by apply hex_digit_hex|done].
Qed.

Lemma hexdigest_md5_form data :
  length (hexdigest (md5 data)) = 32%nat ∧ Forall is_hex (hexdigest (md5 data)).
Proof.
  destruct (md5_bytes data) as [Hl Hb].
  destruct (hexdigest_hex _ Hb) as [Hl' Hh]. split; [lia|done].
Qed.

(** X13.  The id of every record [scrape] returns is 32 characters long and every
    character is one of [0123456789abcdef]. *)
Theorem scrape_id_form
    `{parser : HtmlParser} `{network : Network}
    (records : list Article) (r : Article) :
  scrape = Ok records → r ∈ records →
  length (art_id r) = 32%nat ∧ Forall is_hex (art_id r).
Proof.
  intros (resp & _ & _ & ->)%scrape_inv [i Hi]%list_elem_of_lookup.
  rewrite list_lookup_imap in Hi.
  destruct (extract_main_items _ _ !! i) as [item|]; [|done].
  injection Hi as <-. apply hexdigest_md5_form.
Qed.

Lemma scrape_id_form_witness :
  length (art_id example_record) = 32%nat ∧ Forall is_hex (art_id example_record).
Proof.
  apply (@scrape_id_form html_parser example_network example_records).
  - vm_compute. reflexivity.
  - apply (list_elem_of_lookup_2 _ 0%nat). reflexivity.
Defined.

Lemma scrape_records_wellformed_witness :
  (length example_records ≤ 5)%nat ∧
  NoDup (map art_url example_records) ∧
  ∀ r, r ∈ example_records →
    art_title r ≠ [] ∧
    normalize_whitespace (art_title r) = art_title r ∧
    startswith BASE_URL (art_url r) = true ∧
    normalize_whitespace (art_content r) = art_content r.
Proof.
  apply (@scrape_records_wellformed html_parser example_network example_records).
  vm_compute. reflexivity.
Defined.

(** ** Embeddings, the index and the search handler *)

Section services_results.
Context `{services : Services}.

Lemma embed_texts_Ok k texts vs :
  embed_texts k texts = Ok vs ↔
  length vs = length texts ∧
  ∀ i t, texts !! i = Some t →
    ∃ v, vs !! i = Some v ∧ embeddings_create (k + i) t = Ok v.
Proof.
  revert k vs. induction texts as [|t texts IH]; intros k vs.
  - cbn [embed_texts]. split.
    + intros [= <-]. split; [done|]. intros i t Hi. by rewrite lookup_nil in Hi.
    + intros [Hl _]. by destruct vs.
  - cbn [embed_texts]. split.
    + destruct (embeddings_create k t) as [e|] eqn:He; [|done].
      cbn [mbind result_bind].
      destruct (embed_texts (S k) texts) as [es|] eqn:Hes; [|done].
      cbn [mbind result_bind]. intros [= <-].
      apply IH in Hes as [Hl Hes]. split; [by simpl; rewrite Hl|].
      intros [|i] t' Hi.
      * injection Hi as <-. exists e. by rewrite Nat.add_0_r.
      * destruct (Hes i t' Hi) as (v & Hv & Hc). exists v. split; [done|].
        by replace (k + S i)%nat with (S k + i)%nat by lia.
    + intros [Hl H]. destruct vs as [|v vs]; [done|].
      destruct (H 0%nat t eq_refl) as (v' & [= <-] & Hv).
      rewrite Nat.add_0_r in Hv. rewrite Hv. cbn [mbind result_bind].
      assert (embed_texts (S k) texts = Ok vs) as ->; [|done].
      apply IH. split; [by injection Hl|].
      intros i t' Hi. destruct (H (S i) t' Hi) as (v' & Hv' & Hc).
      exists v'. split; [done|].
      by replace (S k + i)%nat with (k + S i)%nat by lia.
Qed.


Lemma index_upsert_frame (index : index_state) upserts i :
  i ∉ map up_id upserts → index_upsert index upserts !! i = index !! i.
Proof.
  induction upserts as [|u upserts IH] using rev_ind; [done|].
  rewrite map_app, index_upsert_snoc. intros Hni.
  rewrite lookup_insert_ne.
  - apply IH. intros Hin. apply Hni, elem_of_app. by left.
  - intros E. apply Hni, elem_of_app. right. rewrite <- E. constructor.
Qed.

Lemma index_upsert_app (index : index_state) us1 us2 :
  index_upsert index (us1 ++ us2) = index_upsert (index_upsert index us1) us2.
Proof. unfold index_upsert. by rewrite fold_left_app. Qed.

Lemma index_upsert_last (index : index_state) pre u post :
  up_id u ∉ map up_id post →
  index_upsert index (pre ++ u :: post) !! up_id u
  = Some (up_values u, up_metadata u).
Proof.
  intros Hni. rewrite index_upsert_app.
  change (u :: post) with ([u] ++ post). rewrite index_upsert_app.
  rewrite index_upsert_frame by done.
  unfold index_upsert at 1. cbn [fold_left]. by rewrite lookup_insert_eq.
Qed.

Lemma index_upsert_dom (index : index_state) upserts :
  dom (index_upsert index upserts) = dom index ∪ list_to_set (map up_id upserts).
Proof.
  induction upserts as [|u upserts IH] using rev_ind.
  - cbn [map list_to_set index_upsert fold_left]. by rewrite (right_id_L ∅ (∪)).
  - rewrite map_app, index_upsert_snoc, dom_insert_L, IH, list_to_set_app_L.
    cbn [map list_to_set]. rewrite (right_id_L ∅ (∪)).
    apply set_eq. intros x. rewrite !elem_of_union. tauto.
Qed.

Lemma upserts_of_zip articles upserts :
  upserts_of articles = Ok upserts →
  ∃ vs, embed_texts 0 (map embedding_input articles) = Ok vs ∧
        length vs = length articles ∧
        upserts = zip_with upsert_of articles vs.
Proof.
  unfold upserts_of. fold embedding_input.
  change (map (λ a, art_title a ++ [newline; newline] ++ art_content a) articles)
    with (map embedding_input articles).
  destruct (embed_texts _ _) as [vs|] eqn:E; [|done].
  cbn [mbind result_bind]. intros [= <-]. exists vs. split_and!; [done| |done].
  apply embed_texts_length in E. by rewrite length_map in E.
Qed.

Lemma zip_with_app_cons {X Y Z'} (f : X → Y → Z') pre a post vs :
  length vs = length (pre ++ a :: post) →
  ∃ vpre v vpost, vs = vpre ++ v :: vpost ∧ length vpre = length pre ∧
    zip_with f (pre ++ a :: post) vs
    = zip_with f pre vpre ++ f a v :: zip_with f post vpost.
Proof.
  intros Hl. rewrite length_app in Hl. simpl in Hl.
  exists (take (length pre) vs).
  destruct (drop (length pre) vs) as [|v vpost] eqn:Ed.
  { apply (f_equal length) in Ed. rewrite length_drop in Ed. simpl in Ed. lia. }
  exists v, vpost.
  assert (vs = take (length pre) vs ++ v :: vpost) as Evs.
  { by rewrite <- Ed, take_drop. }
  split_and!; [done|rewrite length_take; lia|].
  rewrite Evs at 1. rewrite zip_with_app; [done|]. rewrite length_take. lia.
Qed.

Lemma map_up_id_zip articles vs :
  length vs = length articles →
  map up_id (zip_with upsert_of articles vs) = map art_id articles.
Proof.
  revert vs. induction articles as [|a articles IH]; intros [|v vs]; try done.
  simpl. intros [= Hlen]. f_equal. by apply IH.
Qed.

Lemma upsert_to_pinecone_lookup (index index' : index_state) articles :
  upsert_to_pinecone index articles = Ok index' →
  dom index' = dom index ∪ list_to_set (map art_id articles) ∧
  (∀ i, i ∉ map art_id articles → index' !! i = index !! i) ∧
  (∀ pre a post, articles = pre ++ a :: post → art_id a ∉ map art_id post →
     ∃ v, embeddings_create (length pre) (embedding_input a) = Ok v ∧
          index' !! art_id a = Some (v, up_metadata (upsert_of a v))).
Proof.
  unfold upsert_to_pinecone.
  destruct (upserts_of articles) as [upserts|] eqn:Hu; [|done].
  cbn [mbind result_bind]. intros [= <-].
  apply upserts_of_zip in Hu as (vs & Hvs & Hl & ->).
  split_and!.
  - by rewrite index_upsert_dom, map_up_id_zip.
  - intros i Hi. apply index_upsert_frame. by rewrite map_up_id_zip.
  - intros pre a post -> Hni.
    destruct (zip_with_app_cons upsert_of pre a post vs Hl)
      as (vpre & v & vpost & -> & Hlpre & ->).
    exists v. split.
    + apply embed_texts_Ok in Hvs as [_ Hvs].
      destruct (Hvs (length pre) (embedding_input a)) as (v' & Hv' & Hc).
      { rewrite map_app. cbn [map].
        rewrite lookup_app_r by by rewrite length_map.
        by rewrite length_map, Nat.sub_diag. }
      rewrite lookup_app_r in Hv' by lia.
      rewrite Hlpre, Nat.sub_diag in Hv'. injection Hv' as <-. done.
    + change (art_id a) with (up_id (upsert_of a v)).
      apply index_upsert_last. cbn [up_id upsert_of].
      rewrite map_up_id_zip; [done|].
      rewrite !length_app in Hl. simpl in Hl. lia.
Qed.

Lemma strip_nil_blank s : strip s = [] ↔ blank s.
Proof.
  unfold blank, all. split.
  - intros E. destruct (rstrip_trailing (lstrip s)) as (t & Ht & Hb).
    fold (strip s) in Ht. rewrite E in Ht. cbn [app] in Ht.
    rewrite <- (take_drop_while is_space s). apply Forall_app. split.
    + apply take_while_all.
    + unfold lstrip in Ht. by rewrite Ht.
  - intros Hb. unfold strip, lstrip. by rewrite drop_while_all.
Qed.

Lemma upsert_of_fields a v :
  up_metadata (upsert_of a v) !! lit "title" = Some (art_title a) ∧
  up_metadata (upsert_of a v) !! lit "date" = Some (art_date a) ∧
  up_metadata (upsert_of a v) !! lit "url" = Some (art_url a).
Proof.
  unfold upsert_of. cbn [up_metadata]. split_and!.
  - do 2 rewrite lookup_insert_ne by done. by rewrite lookup_insert_eq.
  - rewrite lookup_insert_ne by done. by rewrite lookup_insert_eq.
  - by rewrite lookup_insert_eq.
Qed.

End services_results.


(** X15.  After [upsert_to_pinecone] the index holds the ids it held and the ids
    of the articles; entries under other ids are untouched; and under the id
    of an article that is the last of its id in the list the index holds the
    embedding of its title, two newlines and its content, with the article's
    title, date and url as metadata. *)
Theorem upsert_to_pinecone_stores
    `{services : Services} (index index' : index_state) (articles : list Article) :
  upsert_to_pinecone index articles = Ok index' →
  dom index' = dom index ∪ list_to_set (map art_id articles) ∧
  (∀ i, i ∉ map art_id articles → index' !! i = index !! i) ∧
  (∀ pre a post, articles = pre ++ a :: post → art_id a ∉ map art_id post →
     ∃ v md,
       embeddings_create (length pre) (embedding_input a) = Ok v ∧
       index' !! art_id a = Some (v, md) ∧
       md !! lit "title" = Some (art_title a) ∧
       md !! lit "date" = Some (art_date a) ∧
       md !! lit "url" = Some (art_url a)).
Proof.
  intros (Hdom & Hframe & Hlast)%upsert_to_pinecone_lookup.
  split_and!; [done..|].
  intros pre a post E Hni. destruct (Hlast pre a post E Hni) as (v & Hv & Hl).
  exists v, (up_metadata (upsert_of a v)).
  destruct (upsert_of_fields a v) as (? & ? & ?). done.
Qed.

Lemma example_upsert :
  @upsert_to_pinecone example_services ∅ example_records = Ok example_index.
Proof. reflexivity. Qed.

Lemma upsert_to_pinecone_stores_witness :
  dom example_index = dom (∅ : gmap str (@vector example_services * gmap str str))
                      ∪ list_to_set (map art_id example_records) ∧
  (∀ i, i ∉ map art_id example_records →
        example_index !! i = (∅ : gmap str (@vector example_services * gmap str str)) !! i) ∧
  (∀ pre a post, example_records = pre ++ a :: post → art_id a ∉ map art_id post →
     ∃ v md,
       @embeddings_create example_services (length pre) (embedding_input a) = Ok v ∧
       example_index !! art_id a = Some (v, md) ∧
       md !! lit "title" = Some (art_title a) ∧
       md !! lit "date" = Some (art_date a) ∧
       md !! lit "url" = Some (art_url a)).
Proof.
  apply (@upsert_to_pinecone_stores example_services ∅ example_index example_records).
  reflexivity.
Defined.

Section search_results.
Context `{services : Services}.

Lemma search_blank index req :
  blank (query req) → search index req = Raise (HTTPException 400).
Proof. intros Hb%strip_nil_blank. unfold search. by rewrite Hb. Qed.

Lemma search_not_blank index req :
  ¬ blank (query req) →
  search index req
  = (v ← embeddings_create 0 (query req);
     Ok (map search_result_of (index_query index v (top_k req)))).
Proof.
  intros Hnb. unfold search.
  destruct (strip (query req)) eqn:E; [|done].
  by apply strip_nil_blank in E.
Qed.


End search_results.


(** X17.  Searching an index that [upsert_to_pinecone] has written: the result
    built from a match whose id is that of an upserted article (the last of
    its id) carries the article's title, date and url, and the empty content. *)
Theorem search_returns_upserted_fields
    `{services : Services} (index index' : index_state)
    (articles : list Article) (req : SearchRequest) (results : list SearchResult) :
  upsert_to_pinecone index articles = Ok index' →
  search index' req = Ok results →
  ∃ v, embeddings_create 0 (query req) = Ok v ∧
    results = map search_result_of (index_query index' v (top_k req)) ∧
    ∀ m pre a post,
      m ∈ index_query index' v (top_k req) →
      articles = pre ++ a :: post → art_id a ∉ map art_id post →
      sv_id m = art_id a →
      sr_title (search_result_of m) = art_title a ∧
      sr_date (search_result_of m) = art_date a ∧
      sr_url (search_result_of m) = art_url a ∧
      sr_content (search_result_of m) = [].
Proof.
  intros (_ & _ & Hlast)%upsert_to_pinecone_lookup Hs.
  assert (¬ blank (query req)) as Hnb.
  { intros Hb. by rewrite search_blank in Hs. }
  rewrite search_not_blank in Hs by done.
  destruct (embeddings_create 0 (query req)) as [v|]; [|done].
  cbn [mbind result_bind] in Hs. injection Hs as <-.
  exists v. split_and!; [done..|].
  intros m pre a post Hm E Hni Hid.
  destruct (Hlast pre a post E Hni) as (va & _ & Hl).
  unfold index_query in Hm.
  apply list_elem_of_fmap in Hm as ([i sc] & -> & _). cbn [sv_id] in Hid. subst i.
  unfold search_result_of. cbn [sv_metadata sr_title sr_date sr_url sr_content].
  rewrite Hl. cbn [fmap option_fmap option_map snd default from_option id].
  destruct (upsert_of_fields a va) as (Ht & Hd & Hu).
  destruct (upsert_of_metadata a va) as [_ Hc].
  unfold md_get. by rewrite Ht, Hd, Hu, Hc.
Qed.

Lemma example_search :
  @search example_services example_index example_request = Ok example_results.
Proof.
  unfold example_results.
  destruct (@search example_services example_index example_request) eqn:E;
    [reflexivity|].
  vm_compute in E. discriminate.
Qed.

Lemma search_returns_upserted_fields_witness :
  ∃ v, @embeddings_create example_services 0 (query example_request) = Ok v ∧
    example_results
    = map search_result_of (@index_query example_services example_index v
                              (top_k example_request)) ∧
    ∀ m pre a post,
      m ∈ @index_query example_services example_index v (top_k example_request) →
      example_records = pre ++ a :: post → art_id a ∉ map art_id post →
      sv_id m = art_id a →
      sr_title (search_result_of m) = art_title a ∧
      sr_date (search_result_of m) = art_date a ∧
      sr_url (search_result_of m) = art_url a ∧
      sr_content (search_result_of m) = [].
Proof.
  apply (@search_returns_upserted_fields example_services ∅ example_index
           example_records example_request example_results).
  - reflexivity.
  - apply example_search.
Defined.

(** ** The text [save_json] writes *)


Lemma unescape_char_quote rest : unescape_char (quote :: rest) = None.
Proof. reflexivity. Qed.



















(** ** The index is created when it is missing, and awaited *)

Lemma py_in_strs s ns : py_in s (map PyStr ns) = bool_decide (s ∈ ns).
Proof.
  unfold py_in. induction ns as [|n ns IH]; [done|]. cbn [map existsb is_str].
  rewrite IH. apply eq_true_iff_eq.
  rewrite orb_true_iff, !bool_decide_eq_true, elem_of_cons.
  split; (intros [?|?]; [by left|by right]).
Qed.

Lemma forallb_hashable_strs ns : forallb hashable (map PyStr ns) = true.
Proof. by induction ns. Qed.

Lemma mapM_names_entries entries ns :
  Forall2 names_entry entries ns →
  mapM (λ i, d ← call_get i (lit "name"); Some (getattr i (lit "name") d)) entries
  = Some (map PyStr ns).
Proof.
  induction 1 as [|e n entries ns He _ IH]; [done|].
  cbn [mapM map]. rewrite IH.
  destruct He as [items n E|attrs methods yields n f r E1 E2 E3 E4].
  - cbn [call_get getattr mbind option_bind]. by rewrite E.
  - cbn [call_get getattr]. rewrite E2, E3. cbn [mbind option_bind].
    rewrite E4. cbn [mbind option_bind]. by rewrite E1.
Qed.

Lemma index_names_reports li ns index_name :
  reports li ns →
  py_in index_name (index_names li) = bool_decide (index_name ∈ ns).
Proof.
  intros [attrs methods yields f ns' E1 E2 E3|entries ns' H|ns'];
    unfold index_names.
  - cbn [hasattr call_names]. rewrite E1, E2.
    rewrite (bool_decide_eq_true_2 (is_Some (Some f))) by done.
    rewrite orb_true_r. cbn [mbind option_bind]. rewrite E3.
    cbn [mbind option_bind]. unfold py_set. cbn [iterate mbind option_bind].
    rewrite forallb_hashable_strs. apply py_in_strs.
  - cbn [hasattr iterate mbind option_bind].
    rewrite (mapM_names_entries _ _ H). cbn [mbind option_bind].
    rewrite forallb_hashable_strs. apply py_in_strs.
  - cbn [hasattr iterate mbind option_bind]. destruct ns' as [|n ns'].
    + done.
    + cbn [map mapM call_get mbind option_bind]. unfold py_set.
      cbn [iterate mbind option_bind].
      change (PyStr n :: map PyStr ns') with (map PyStr (n :: ns')).
      rewrite forallb_hashable_strs. apply py_in_strs.
Qed.

Section client_results.
Context `{pc : PineconeClient}.

Lemma wait_ready_not_ready fuel k j index_name :
  (∀ i, (i < k)%nat → ∃ d, describe_index (j + i) index_name = Ok d ∧ is_ready d = false) →
  wait_ready fuel j index_name
  = if decide (fuel ≤ k)%nat then (polls fuel index_name, Running)
    else (polls k index_name ++ (wait_ready (fuel - k) (j + k) index_name).1,
          (wait_ready (fuel - k) (j + k) index_name).2).
Proof.
  revert fuel j. induction k as [|k IH]; intros fuel j Hnot.
  - destruct fuel as [|fuel]; [done|]. rewrite decide_False by lia.
    rewrite Nat.sub_0_r, Nat.add_0_r. cbn [polls app]. by destruct (wait_ready _ _ _).
  - destruct fuel as [|fuel]; [done|].
    destruct (Hnot 0%nat) as (d & Hd & Hr); [lia|]. rewrite Nat.add_0_r in Hd.
    cbn [wait_ready]. rewrite Hd, Hr.
    rewrite (IH fuel (S j)).
    2:{ intros i Hi. destruct (Hnot (S i)) as (d' & Hd' & Hr'); [lia|].
        exists d'. split; [|done]. by replace (S j + i)%nat with (j + S i)%nat by lia. }
    replace (S j + k)%nat with (j + S k)%nat by lia.
    replace (S fuel - S k)%nat with (fuel - k)%nat by lia.
    destruct (decide (fuel ≤ k)%nat), (decide (S fuel ≤ S k)%nat); try lia; done.
Qed.

Lemma wait_ready_first fuel k index_name :
  (∀ i, (i < k)%nat → ∃ d, describe_index i index_name = Ok d ∧ is_ready d = false) →
  ((fuel ≤ k)%nat → wait_ready fuel 0 index_name = (polls fuel index_name, Running)) ∧
  ((k < fuel)%nat →
   wait_ready fuel 0 index_name
   = match describe_index k index_name with
     | Raise e => (polls k index_name ++ [CallDescribeIndex index_name], Raises e)
     | Ok d =>
         if is_ready d
         then (polls k index_name ++ [CallDescribeIndex index_name], Returns)
         else (polls k index_name
                 ++ CallDescribeIndex index_name :: CallSleep 1
                 :: (wait_ready (fuel - S k) (S k) index_name).1,
               (wait_ready (fuel - S k) (S k) index_name).2)
     end).
Proof.
  intros Hnot. rewrite (wait_ready_not_ready fuel k 0 index_name) by done.
  split; intros Hf.
  - by rewrite decide_True.
  - rewrite decide_False by lia. cbn [Nat.add].
    destruct (fuel - k)%nat as [|f] eqn:E; [lia|]. cbn [wait_ready].
    replace (fuel - S k)%nat with f by lia.
    destruct (describe_index k index_name) as [d|e]; [|done].
    destruct (is_ready d); [done|]. by destruct (wait_ready f (S k) index_name).
Qed.

Lemma ensure_pinecone_index_loop li fuel index_name dimension cloud region :
  list_indexes = Ok li →
  (py_in index_name (index_names li) = false →
   create_index index_name dimension (lit "cosine") cloud region = Ok ()) →
  ensure_pinecone_index fuel index_name dimension cloud region
  = (CallListIndexes
       :: (if py_in index_name (index_names li) then []
           else [CallCreateIndex index_name dimension (lit "cosine") cloud region])
       ++ (wait_ready fuel 0 index_name).1,
     (wait_ready fuel 0 index_name).2).
Proof.
  intros Hli Hcreate. unfold ensure_pinecone_index. rewrite Hli.
  destruct (py_in index_name (index_names li)); cbn [negb].
  - by destruct (wait_ready fuel 0 index_name).
  - rewrite Hcreate by done. by destruct (wait_ready fuel 0 index_name).
Qed.

Lemma index_names_without_get entries index_name :
  Forall named_without_get entries →
  py_in index_name (index_names (PyList entries)) = false.
Proof.
  intros Hall. unfold index_names. cbn [hasattr iterate mbind option_bind].
  assert (forallb hashable entries = true) as Hh.
  { induction Hall as [|e entries (a & m & y & n & -> & _) _ IH]; [done|].
    cbn [forallb hashable]. by rewrite IH. }
  assert (py_in index_name entries = false) as Hin.
  { unfold py_in. induction Hall as [|e entries (a & m & y & n & -> & _) _ IH]; [done|].
    cbn [existsb is_str]. by rewrite IH. }
  destruct entries as [|e entries]; [done|].
  apply Forall_cons in Hall as [(a & m & y & n & -> & _ & Hg1 & Hg2) _].
  cbn [mapM call_get]. rewrite Hg1, Hg2. cbn [mbind option_bind].
  unfold py_set. cbn [iterate mbind option_bind]. by rewrite Hh.
Qed.

End client_results.

(** X19.  When the listing reports the index names in one of the three shapes
    the source expects (an object with a method [names], a list of
    dictionaries or objects that name an index, a list of strings),
    [ensure_pinecone_index] creates the index, with the metric [cosine],
    exactly when its name is not among the reported names, and then before
    any description is asked for; when [create_index] raises, the run ends
    there with that exception. *)
Theorem ensure_pinecone_index_creates_when_missing
    `{pc : PineconeClient} (li : pyval) (ns : list str) (fuel : nat)
    (index_name : str) (dimension : Z) (cloud region : str) :
  list_indexes = Ok li → reports li ns →
  (index_name ∈ ns →
   ensure_pinecone_index fuel index_name dimension cloud region
   = (CallListIndexes :: (wait_ready fuel 0 index_name).1,
      (wait_ready fuel 0 index_name).2)) ∧
  (index_name ∉ ns →
   ensure_pinecone_index fuel index_name dimension cloud region
   = match create_index index_name dimension (lit "cosine") cloud region with
     | Raise e =>
         ([CallListIndexes;
           CallCreateIndex index_name dimension (lit "cosine") cloud region],
          Raises e)
     | Ok _ =>
         (CallListIndexes
            :: CallCreateIndex index_name dimension (lit "cosine") cloud region
            :: (wait_ready fuel 0 index_name).1,
          (wait_ready fuel 0 index_name).2)
     end).
Proof.
  intros Hli Hrep. unfold ensure_pinecone_index. rewrite Hli.
  rewrite (index_names_reports li ns index_name Hrep). split; intros Hin.
  - rewrite bool_decide_eq_true_2 by done. cbn [negb].
    by destruct (wait_ready fuel 0 index_name).
  - rewrite bool_decide_eq_false_2 by done. cbn [negb].
    destruct (create_index _ _ _ _ _); [|done].
    by destruct (wait_ready fuel 0 index_name).
Qed.

(** X20.  A listing that is a list of objects with the attribute [name] and no
    method [get] is not understood: the default [i.get(...)] of [getattr] is
    evaluated first and raises, the fallback [set(li)] holds no string, and
    [create_index] is called whatever the names of the entries are. *)
Theorem ensure_pinecone_index_objects_without_get
    `{pc : PineconeClient} (entries : list pyval) (fuel : nat)
    (index_name : str) (dimension : Z) (cloud region : str) :
  list_indexes = Ok (PyList entries) →
  Forall named_without_get entries →
  ∃ calls out,
    ensure_pinecone_index fuel index_name dimension cloud region
    = (CallListIndexes
         :: CallCreateIndex index_name dimension (lit "cosine") cloud region
         :: calls, out).
Proof.
  intros Hli Hall. unfold ensure_pinecone_index. rewrite Hli.
  rewrite index_names_without_get by done. cbn [negb].
  destruct (create_index _ _ _ _ _); [|by eexists _, _].
  destruct (wait_ready fuel 0 index_name). by eexists _, _.
Qed.

(** X21.  Once the index is listed or created, [ensure_pinecone_index] asks for
    its description until one says it is ready, sleeping one second after
    each that does not: if the first [k] descriptions are not ready, the run
    returns right after description [k] when that one is ready, raises what
    description [k] raises, and is still in its loop after any number of
    turns up to [k]; so it never returns while no description is ready. *)
Theorem ensure_pinecone_index_waits
    `{pc : PineconeClient} (li : pyval) (k : nat)
    (index_name : str) (dimension : Z) (cloud region : str) :
  list_indexes = Ok li →
  (py_in index_name (index_names li) = false →
   create_index index_name dimension (lit "cosine") cloud region = Ok ()) →
  (∀ j, (j < k)%nat →
     ∃ d, describe_index j index_name = Ok d ∧ is_ready d = false) →
  let first_calls :=
    CallListIndexes
      :: (if py_in index_name (index_names li) then []
          else [CallCreateIndex index_name dimension (lit "cosine") cloud region]) in
  (∀ fuel, (fuel ≤ k)%nat →
     ensure_pinecone_index fuel index_name dimension cloud region
     = (first_calls ++ polls fuel index_name, Running)) ∧
  (∀ fuel d, (k < fuel)%nat →
     describe_index k index_name = Ok d → is_ready d = true →
     ensure_pinecone_index fuel index_name dimension cloud region
     = (first_calls ++ polls k index_name ++ [CallDescribeIndex index_name],
        Returns)) ∧
  (∀ fuel e, (k < fuel)%nat →
     describe_index k index_name = Raise e →
     ensure_pinecone_index fuel index_name dimension cloud region
     = (first_calls ++ polls k index_name ++ [CallDescribeIndex index_name],
        Raises e)).
Proof.
  intros Hli Hcreate Hnot first_calls.
  assert (∀ fuel,
    ensure_pinecone_index fuel index_name dimension cloud region
    = (first_calls ++ (wait_ready fuel 0 index_name).1,
       (wait_ready fuel 0 index_name).2)) as Hrun.
  { intros fuel. by rewrite (ensure_pinecone_index_loop li). }
  split_and!.
  - intros fuel Hf. rewrite Hrun.
    destruct (wait_ready_first fuel k index_name Hnot) as [-> _]; done.
  - intros fuel d Hf Hd Hr. rewrite Hrun.
    destruct (wait_ready_first fuel k index_name Hnot) as [_ ->]; [|done].
    by rewrite Hd, Hr.
  - intros fuel e Hf He. rewrite Hrun.
    destruct (wait_ready_first fuel k index_name Hnot) as [_ ->]; [|done].
    by rewrite He.
Qed.

Lemma ensure_pinecone_index_creates_when_missing_witness :
  (lit "linkoping" ∈ [lit "linkoping"] →
   @ensure_pinecone_index example_client 5 (lit "linkoping") 1536
      (lit "aws") (lit "eu-west-1")
   = (CallListIndexes :: (@wait_ready example_client 5 0 (lit "linkoping")).1,
      (@wait_ready example_client 5 0 (lit "linkoping")).2)) ∧
  (lit "linkoping" ∉ [lit "linkoping"] →
   @ensure_pinecone_index example_client 5 (lit "linkoping") 1536
      (lit "aws") (lit "eu-west-1")
   = match @create_index example_client (lit "linkoping") 1536 (lit "cosine")
             (lit "aws") (lit "eu-west-1") with
     | Raise e =>
         ([CallListIndexes;
           CallCreateIndex (lit "linkoping") 1536 (lit "cosine") (lit "aws")
             (lit "eu-west-1")],
          Raises e)
     | Ok _ =>
         (CallListIndexes
            :: CallCreateIndex (lit "linkoping") 1536 (lit "cosine") (lit "aws")
                 (lit "eu-west-1")
            :: (@wait_ready example_client 5 0 (lit "linkoping")).1,
          (@wait_ready example_client 5 0 (lit "linkoping")).2)
     end).
Proof.
  apply (@ensure_pinecone_index_creates_when_missing example_client
           (PyObject [] [(lit "names", λ _, Some (PyList [PyStr (lit "linkoping")]))]
              (Some [PyStr (lit "linkoping")]))
           [lit "linkoping"] 5 (lit "linkoping") 1536 (lit "aws") (lit "eu-west-1")).
  - reflexivity.
  - by eapply (reports_names _ _ _ _ [lit "linkoping"]).
Defined.

Lemma ensure_pinecone_index_objects_without_get_witness :
  ∃ calls out,
    @ensure_pinecone_index example_client_objects 5 (lit "linkoping") 1536
       (lit "aws") (lit "eu-west-1")
    = (CallListIndexes
         :: CallCreateIndex (lit "linkoping") 1536 (lit "cosine") (lit "aws")
              (lit "eu-west-1")
         :: calls, out).
Proof.
  apply (@ensure_pinecone_index_objects_without_get example_client_objects
           [PyObject [(lit "name", PyStr (lit "linkoping"))] [] None]).
  - reflexivity.
  - constructor; [|constructor]. by eexists _, _, _, _.
Defined.

Lemma ensure_pinecone_index_waits_witness :
  @ensure_pinecone_index example_client 5 (lit "linkoping") 1536
     (lit "aws") (lit "eu-west-1")
  = ([CallListIndexes;
      CallDescribeIndex (lit "linkoping"); CallSleep 1;
      CallDescribeIndex (lit "linkoping"); CallSleep 1;
      CallDescribeIndex (lit "linkoping")], Returns).
Proof.
  destruct (@ensure_pinecone_index_waits example_client
              (PyObject [] [(lit "names", λ _, Some (PyList [PyStr (lit "linkoping")]))]
                 (Some [PyStr (lit "linkoping")]))
              2 (lit "linkoping") 1536 (lit "aws") (lit "eu-west-1"))
    as (_ & Hready & _).
  - reflexivity.
  - intros H. vm_compute in H. discriminate.
  - intros j Hj. eexists. split; [reflexivity|].
    destruct j as [|[|j]]; [reflexivity..|lia].
  - apply (Hready 5%nat _ ltac:(lia) eq_refl). reflexivity.
Defined.
